(** * SpecTacularAI: requirement / test-case matching and traceability engine

    A shallow embedding of the Python sources
      - [src/semantic_search.py]      (the lexical chunk index),
      - [src/mapping_engine.py]       (requirement extraction, mapping and
                                       the coverage report),
      - [src/traceability_matrix.py]  (coverage matrix and statistics),
      - [src/preprocessing.py]        (cleaning and chunking),
      - [src/validation_engine.py]    (the requirement-mapping rule),
      - [app.py]                      (the upload pipeline and the explicit
                                       requirement id of generated test cases),
    followed by the properties that the specification states about them
    and by further properties that the code shows.

    Modelling conventions.
      - A Python [str] is a [list ascii]; the model covers ASCII text
        (character codes below 128), on which [lower], [upper], [strip],
        [split], [\w], [\d] and [\s] are the functions below.  Python
        treats characters above 127 differently ([\w] matches accented
        letters, [upper] of the sharp s is two letters); a property that
        depends on them is stated for ASCII text only.
      - A Python [float] is a binary64 number, recorded as a rational [Q]
        that it is the nearest binary64 number to: a quotient [a / b] of
        two lengths is recorded as the rational [a # b], and [round x n]
        as the decimal it denotes.  For sets of fewer than 2^26 words two
        different quotients differ by more than the spacing of binary64,
        so the order of the floats is the order of the rationals.  Where
        the code computes with floats ([+ 0.2], [* 0.8], [* 100], and the
        argument of [round]) the model computes with their values:
        [binary64 x] is the binary64 number nearest to [x], ties to even,
        every operation rounds its exact result with it, and [round x n]
        rounds the value of the float [x] to [n] decimals, ties to even,
        as CPython does.
      - Python's [hash] on strings is a parameter of the extractor: any
        function from strings to integers.
      - A raised exception is the [Raise] branch of [result].
      - The module-level variable [chunks] of [semantic_search.py] is passed
        explicitly as the index state.
      - A count such as [top_k] is a natural number. *)

From Stdlib Require Import QArith Qround Qabs Qminmax Qpower Lqa Ascii String DecimalString DecimalNat.
From stdpp Require Import gmap strings list fin_maps sorting.
Open Scope list_scope.

Abbreviation str := (list ascii).

(** Literal text: [txt "abc"] is the Python string ['abc']. *)
Definition txt (s : string) : str := list_ascii_of_string s.

(* ================================================================== *)
(** * Python string primitives                                         *)
(* ================================================================== *)

Module Text.

(** The functions of Python on the characters with codes below 128.  On
    the other characters of the type (codes 128 to 255) Python differs:
    it lowers and raises accented letters, and counts them as word
    characters and the no-break space as a space, while the functions
    below leave such a character unchanged and class it as neither. *)

Definition code (c : ascii) : nat := nat_of_ascii c.

Definition is_upper (c : ascii) : bool := (65 <=? code c)%nat && (code c <=? 90)%nat.
Definition is_lower (c : ascii) : bool := (97 <=? code c)%nat && (code c <=? 122)%nat.
(** [\d] *)
Definition is_digit (c : ascii) : bool := (48 <=? code c)%nat && (code c <=? 57)%nat.
(** [\w]: letters, digits and the underscore. *)
Definition is_word (c : ascii) : bool :=
  is_upper c || is_lower c || is_digit c || (code c =? 95)%nat.
(** [\s] and [str.isspace]: TAB, LF, VT, FF, CR, FS, GS, RS, US and SPACE. *)
Definition is_space (c : ascii) : bool :=
  ((9 <=? code c)%nat && (code c <=? 13)%nat)
  || ((28 <=? code c)%nat && (code c <=? 32)%nat).

Definition lower_char (c : ascii) : ascii :=
  if is_upper c then ascii_of_nat (code c + 32) else c.
Definition upper_char (c : ascii) : ascii :=
  if is_lower c then ascii_of_nat (code c - 32) else c.

(** [s.lower()], [s.upper()] *)
Definition lower (s : str) : str := map lower_char s.
Definition upper (s : str) : str := map upper_char s.

(** [s.lstrip()], [s.rstrip()], [s.strip()] *)
Fixpoint lstrip (s : str) : str :=
  match s with
  | c :: s' => if is_space c then lstrip s' else s
  | [] => []
  end.
Definition rstrip (s : str) : str := rev (lstrip (rev s)).
Definition strip (s : str) : str := rstrip (lstrip s).

(** [s[:n]] and [s[a:b]] for non-negative bounds. *)
Definition slice_to (n : nat) (s : str) : str := take n s.
Definition slice (a b : nat) (s : str) : str := take (b - a) (drop a s).

(** [sep.join(parts)] *)
Fixpoint join (sep : str) (parts : list str) : str :=
  match parts with
  | [] => []
  | [p] => p
  | p :: rest => p ++ sep ++ join sep rest
  end.

Fixpoint starts_with (p s : str) : bool :=
  match p, s with
  | [], _ => true
  | a :: p', b :: s' => bool_decide (a = b) && starts_with p' s'
  | _ :: _, [] => false
  end.

(** [needle in hay] *)
Fixpoint contains (needle hay : str) : bool :=
  starts_with needle hay ||
  match hay with
  | [] => false
  | _ :: hay' => contains needle hay'
  end.

(** Lexicographic comparison of strings by character code: [a < b]. *)
Fixpoint ltb (a b : str) : bool :=
  match a, b with
  | [], [] => false
  | [], _ :: _ => true
  | _ :: _, [] => false
  | x :: a', y :: b' =>
      if (code x <? code y)%nat then true
      else if (code y <? code x)%nat then false
      else ltb a' b'
  end.

(** [str(n)] for a non-negative integer. *)
Definition of_nat (n : nat) : str :=
  list_ascii_of_string (NilEmpty.string_of_uint (Nat.to_uint n)).

(** Maximal runs of characters satisfying [p]: the pieces that
    [re.findall] returns for a pattern [p+] whose matches cannot be
    extended, and that [str.split()] returns for [p] = non-space. *)
Fixpoint runs_aux (p : ascii → bool) (cur : str) (s : str) : list str :=
  match s with
  | [] => match cur with [] => [] | _ => [rev cur] end
  | c :: s' =>
      if p c then runs_aux p (c :: cur) s'
      else match cur with
           | [] => runs_aux p [] s'
           | _ => rev cur :: runs_aux p [] s'
           end
  end.
Definition runs (p : ascii → bool) (s : str) : list str := runs_aux p [] s.

(** [re.findall(r'\b\w+\b', s)]: a match starts at a word boundary, the
    greedy [\w+] takes the whole run and the closing [\b] holds there, so
    the matches are the maximal runs of word characters. *)
Definition findall_words (s : str) : list str := runs is_word s.

(** [s.split()] *)
Definition split_ws (s : str) : list str := runs (fun c => negb (is_space c)) s.

(** [re.split(r'[.!?]+', s)]: the text between maximal runs of sentence
    punctuation; empty pieces at either end are kept. *)
Definition is_sentence_end (c : ascii) : bool :=
  (code c =? 46)%nat || (code c =? 33)%nat || (code c =? 63)%nat.

Fixpoint split_punct_aux (cur : str) (in_delim : bool) (s : str) : list str :=
  match s with
  | [] => if in_delim then [[]] else [rev cur]
  | c :: s' =>
      if is_sentence_end c then
        if in_delim then split_punct_aux [] true s'
        else rev cur :: split_punct_aux [] true s'
      else split_punct_aux (c :: cur) false s'
  end.
Definition split_punct (s : str) : list str := split_punct_aux [] false s.

End Text.

(* ================================================================== *)
(** * The fragment of Python's [re] used by the extractor              *)
(* ================================================================== *)

Module Regex.

(** Patterns are compiled with [re.IGNORECASE]: a literal matches either
    case.  [Star] and [Opt] are greedy; [Grp] is capturing group 1 (no
    pattern of the program has more than one group). *)
Inductive regex : Type :=
| Chr (c : ascii)
| Cls (p : ascii → bool)
| Cat (r1 r2 : regex)
| Alt (r1 r2 : regex)
| Star (r : regex)
| Opt (r : regex)
| Grp (r : regex).

Definition Plus (r : regex) : regex := Cat r (Star r).

Fixpoint lit_chars (s : str) : regex :=
  match s with
  | [] => Star (Cls (fun _ => false))
  | [c] => Chr c
  | c :: s' => Cat (Chr c) (lit_chars s')
  end.
Definition lit (s : string) : regex := lit_chars (txt s).

(** The loop of a greedy repetition: one more iteration of [body] if it
    consumes input and the rest of the pattern then matches, else the
    rest of the pattern from here.  An iteration that consumed nothing
    is not repeated. *)
Fixpoint star_loop {R : Type}
         (body : str → option str → (str → option str → option R) → option R)
         (k : str → option str → option R)
         (fuel : nat) (s : str) (cap : option str) {struct fuel} : option R :=
  match fuel with
  | O => k s cap
  | S fuel' =>
      match body s cap
                 (fun s' cap' =>
                    if (length s' <? length s)%nat
                    then star_loop body k fuel' s' cap' else None)
      with
      | Some res => Some res
      | None => k s cap
      end
  end.

(** A backtracking matcher in continuation-passing style.  [m r s cap k]
    matches [r] at the head of [s] and hands the rest of the input and
    the capture to [k]; alternatives are tried in the order Python tries
    them (left branch first, longest repetition first). *)
Fixpoint m {R : Type} (r : regex) (s : str) (cap : option str)
         (k : str → option str → option R) {struct r} : option R :=
  match r with
  | Chr c =>
      match s with
      | x :: s' =>
          if bool_decide (Text.lower_char x = Text.lower_char c) then k s' cap else None
      | [] => None
      end
  | Cls p =>
      match s with
      | x :: s' => if p x then k s' cap else None
      | [] => None
      end
  | Cat r1 r2 => m r1 s cap (fun s' cap' => m r2 s' cap' k)
  | Alt r1 r2 =>
      match m r1 s cap k with
      | Some res => Some res
      | None => m r2 s cap k
      end
  | Star r1 => star_loop (fun s' cap' k' => m r1 s' cap' k') k (length s) s cap
  | Opt r1 =>
      match m r1 s cap k with
      | Some res => Some res
      | None => k s cap
      end
  | Grp r1 =>
      m r1 s cap (fun s' _ => k s' (Some (take (length s - length s') s)))
  end.

(** A match object: [start()], [end()] and [group(1)]. *)
Record match_obj := { m_start : nat; m_end : nat; m_group1 : option str }.

(** [pattern.match] at one position. *)
Definition match_here (r : regex) (s : str) : option (str * option str) :=
  m r s None (fun s' cap => Some (s', cap)).

(** [re.finditer(pattern, text)]: leftmost matches, left to right, not
    overlapping.  The search resumes where the previous match ended (one
    character further after an empty match). *)
Fixpoint finditer_from (fuel : nat) (r : regex) (s : str) (pos : nat) : list match_obj :=
  match fuel with
  | O => []
  | S fuel' =>
      match match_here r s with
      | Some (s', cap) =>
          let len := (length s - length s')%nat in
          {| m_start := pos; m_end := pos + len; m_group1 := cap |} ::
          match len, s with
          | O, [] => []
          | O, _ :: s1 => finditer_from fuel' r s1 (S pos)
          | _, _ => finditer_from fuel' r s' (pos + len)
          end
      | None =>
          match s with
          | [] => []
          | _ :: s1 => finditer_from fuel' r s1 (S pos)
          end
      end
  end.

Definition finditer (r : regex) (s : str) : list match_obj :=
  finditer_from (S (length s)) r s 0.

(** Building blocks of the extractor's patterns. *)
Definition digit : regex := Cls Text.is_digit.
(** [.] without [re.DOTALL]: anything but a newline. *)
Definition any : regex := Cls (fun c => negb (Text.code c =? 10)%nat).
(** [[_\-\s]*] *)
Definition is_sep (c : ascii) : bool :=
  (Text.code c =? 95)%nat || (Text.code c =? 45)%nat || Text.is_space c.
Definition seps : regex := Star (Cls is_sep).
(** The capturing group [\d+\.?\d*] that closes most patterns. *)
Definition number : regex :=
  Grp (Cat (Plus digit) (Cat (Opt (Chr "."%char)) (Star digit))).

Fixpoint alts (rs : list regex) : regex :=
  match rs with
  | [] => Cls (fun _ => false)
  | [r] => r
  | r :: rs' => Alt r (alts rs')
  end.

End Regex.

(* ================================================================== *)
(** * Shared Python idioms                                             *)
(* ================================================================== *)

(** Exceptions the modelled code raises, and results of fallible calls. *)
Inductive exn : Type :=
| ValueError (msg : str)
| TypeError
| Exception (msg : str).

Inductive result (A : Type) : Type :=
| Ok (a : A)
| Raise (e : exn).
Arguments Ok {A} a.
Arguments Raise {A} e.

(** Sequencing: an exception of the first call propagates.  With this
    instance [x ← r; k] is stdpp's notation for [mbind (λ x, k) r]. *)
#[global] Instance result_bind : MBind result := λ A B f r,
  match r with
  | Ok a => f a
  | Raise e => Raise e
  end.

(** [try: body / except Exception: handler] *)
Definition try_except {A : Type} (body : result A) (handler : exn → result A) : result A :=
  match body with
  | Ok a => Ok a
  | Raise e => handler e
  end.

(** [for x in xs: st = step st x], stopping at the first exception. *)
Fixpoint for_each {S A : Type} (step : S → A → result S) (xs : list A) (st : S) : result S :=
  match xs with
  | [] => Ok st
  | x :: xs' => st' ← step st x; for_each step xs' st'
  end.

(** [enumerate(xs, start)] *)
Fixpoint enumerate_from {A : Type} (start : nat) (xs : list A) : list (nat * A) :=
  match xs with
  | [] => []
  | x :: xs' => (start, x) :: enumerate_from (S start) xs'
  end.
Definition enumerate {A : Type} (xs : list A) : list (nat * A) := enumerate_from 0 xs.

(** A stable sort is determined by its comparison alone, so [list.sort] and
    [sorted] are modelled by stable insertion: [skip y x] tells that [y]
    stays in front of the element [x] being inserted, and an element is
    never moved in front of one it precedes in the input unless the keys
    say so strictly. *)
Fixpoint insert_by {A : Type} (skip : A → A → bool) (x : A) (l : list A) : list A :=
  match l with
  | [] => [x]
  | y :: l' => if skip y x then y :: insert_by skip x l' else x :: l
  end.
Definition sort_by {A : Type} (skip : A → A → bool) (l : list A) : list A :=
  foldr (insert_by skip) [] l.

(** [l.sort(key=key, reverse=True)] for a numeric key. *)
Definition Qltb (x y : Q) : bool := negb (Qle_bool y x).
Definition sort_desc {A : Type} (key : A → Q) (l : list A) : list A :=
  sort_by (fun y x => Qltb (key x) (key y)) l.

(** [l.sort(key=key)] for a string key. *)
Definition sort_asc {A : Type} (key : A → str) (l : list A) : list A :=
  sort_by (fun y x => Text.ltb (key y) (key x)) l.

(** The nearest integer, ties to the even one. *)
Definition round_half_even (x : Q) : Z :=
  let f := Qfloor x in
  match Qcompare (x - inject_Z f)%Q (1 # 2)%Q with
  | Lt => f
  | Gt => (f + 1)%Z
  | Eq => if Z.even f then f else (f + 1)%Z
  end.
(** [round(x, ndigits)] for a float of value [x]: the multiple of
    [10^-ndigits] nearest to the value of the float, ties to the even
    one. *)
Definition py_round (x : Q) (ndigits : nat) : Q :=
  (round_half_even (x * inject_Z (10 ^ Z.of_nat ndigits))%Q # Pos.of_nat (10 ^ ndigits))%Q.

(** ** Binary64 arithmetic

    A Python [float] is an IEEE 754 binary64 number: an integer multiple
    [m * 2^e] with [|m| <= 2^53] and [-1074 <= e].  The result of a
    division, product or sum is the exact result rounded to the nearest
    such number, ties to the even multiple.  [binary64 x] is that rounding
    of the rational [x]; it is the value of the float for [|x| < 2^1024],
    and the numbers of this program are at most 100. *)

(** [floor (log2 x)] for [0 < x]. *)
Definition floor_log2 (x : Q) : Z :=
  let k := (Z.log2 (Qnum x) - Z.log2 (Z.pos (Qden x)))%Z in
  if Qle_bool (2 ^ k) x then k else (k - 1)%Z.

(** The exponent of the last place: 53 significant bits, and no exponent
    below that of the subnormal numbers. *)
Definition exponent (x : Q) : Z := Z.max (floor_log2 (Qabs x) - 52) (-1074).

Definition binary64 (x : Q) : Q :=
  let e := exponent x in
  (inject_Z (round_half_even (x * 2 ^ (- e))) * 2 ^ e)%Q.

(** [a / b] for two lengths with [b > 0]. *)
Definition ratio (a b : nat) : Q := (Z.of_nat a # Pos.of_nat b)%Q.

(* ================================================================== *)
(** * [semantic_search.py]: the lexical index                          *)
(* ================================================================== *)

Module SemanticSearch.

(** The module-level [chunks]; [chunks = []] at import. *)
Definition index := list str.
Definition initial : index := [].

(** [set(re.findall(r'\b\w+\b', text.lower()))] *)
Definition word_set (text : str) : gset str :=
  list_to_set (Text.findall_words (Text.lower text)).

Definition build_index (text_chunks : list str) (chunks : index) : result unit * index :=
  match text_chunks with
  | [] => (Raise (ValueError (txt "No text chunks provided")), chunks)
  | _ => (Ok tt, text_chunks)
  end.

(** The body of the scoring loop of [search]: a chunk whose union with
    the query is empty is not appended. *)
Definition score_chunk (query_words : gset str) (ic : nat * str) : list (Q * nat * str) :=
  let '(i, chunk) := ic in
  let chunk_words := word_set chunk in
  let intersection := query_words ∩ chunk_words in
  let union := query_words ∪ chunk_words in
  if bool_decide (size union ≠ 0%nat)
  then [(ratio (size intersection) (size union), i, chunk)]
  else [].

Definition scored_chunks (chunks : index) (query_text : str) : list (Q * nat * str) :=
  let query_words := word_set query_text in
  let scored := concat (map (score_chunk query_words) (enumerate chunks)) in
  sort_desc (fun x => x.1.1) scored.

(** No operation of the [try] body raises on strings, so the
    [except Exception] re-raise of [search] is not reachable. *)
Definition search (chunks : index) (query_text : str) (top_k : nat) : result (list str) :=
  match chunks with
  | [] => Raise (ValueError (txt "Index not built yet. Please upload a document first."))
  | _ =>
      let results := map snd (take top_k (scored_chunks chunks query_text)) in
      Ok (match results with
          | [] => take top_k chunks
          | _ => results
          end)
  end.

Record scored := { sc_chunk : str; sc_similarity : Q; sc_index : nat }.

(** The similarity primitive of [get_similarity_scores]. *)
Definition jaccard (a b : gset str) : Q :=
  let intersection := a ∩ b in
  let union := a ∪ b in
  if bool_decide (size union ≠ 0%nat)
  then ratio (size intersection) (size union)
  else 0%Q.

Definition similarity (query_text chunk : str) : Q :=
  jaccard (word_set query_text) (word_set chunk).

Definition get_similarity_scores (chunks : index) (query_text : str) (top_k : nat)
  : list scored :=
  match chunks with
  | [] => []
  | _ =>
      let query_words := word_set query_text in
      let results :=
        map (fun ic : nat * str =>
               {| sc_chunk := ic.2;
                  sc_similarity := jaccard query_words (word_set ic.2);
                  sc_index := ic.1 |})
            (enumerate chunks) in
      take top_k (sort_desc sc_similarity results)
  end.

End SemanticSearch.

(* ================================================================== *)
(** * [mapping_engine.py]: requirement extraction and mapping          *)
(* ================================================================== *)

(** A JSON value found under a test-case key, as far as the code
    distinguishes them: a string, a list (its items as [str(v)] prints
    them), or anything else (what [str(value)] prints and whether the
    value is truthy). *)
Inductive pyval : Type :=
| PStr (s : str)
| PList (items : list str)
| POther (text : str) (truthy : bool).

(** A test-case dict; [None] is an absent key. *)
Record TestCase := {
  tc_id : option str;
  tc_title : option pyval;
  tc_description : option pyval;
  tc_steps : option pyval;
  tc_query : option pyval;
  tc_requirement_id : option str;
  tc_type : option str;
  tc_priority : option str;
  tc_status : option str
}.

(** An element of the uploaded test-case list. *)
Inductive entry : Type :=
| EDict (tc : TestCase)
| ENotDict.

(** A requirement dict as [extract_requirements] builds it. *)
Record Requirement := {
  r_id : str;
  r_type : str;
  r_content : str;
  r_chunk_index : nat;
  r_priority : str;
  r_category : str;
  r_validation_status : str
}.

(** [content[:n] + "..." if len(content) > n else content] *)
Definition excerpt (n : nat) (content : str) : str :=
  if (n <? length content)%nat then take n content ++ txt "..." else content.

Module MappingEngine.

Import Regex SemanticSearch.

(** [enhanced_patterns] of [extract_requirements], in dict order. *)
Definition functional_patterns : list regex :=
  [ Cat (alts [lit "FR"; lit "functional requirement"; lit "requirement"]) (Cat seps number);
    Cat (alts [lit "REQ"; lit "requirement"]) (Cat seps number);
    Cat (lit "the system shall") (Cat seps (Opt number));
    Cat (lit "the system must") (Cat seps (Opt number));
    Cat (lit "function") (Cat seps number) ].

Definition non_functional_patterns : list regex :=
  [ Cat (alts [lit "NFR"; Cat (lit "non") (Cat (Opt any) (lit "functional"))]) (Cat seps number);
    Cat (alts [lit "performance"; lit "security"; lit "usability"]) (Cat seps number);
    Cat (alts [lit "quality"; lit "reliability"]) (Cat seps number) ].

Definition user_story_patterns : list regex :=
  [ Cat (alts [lit "US"; lit "user story"]) (Cat seps number);
    Cat (lit "as a ") (Cat (Star any) (Cat (lit " I want ") (Cat (Star any) (lit " so that"))));
    Cat (lit "story") (Cat seps number) ].

Definition enhanced_patterns : list (str * list regex) :=
  [ (txt "functional", functional_patterns);
    (txt "non_functional", non_functional_patterns);
    (txt "user_story", user_story_patterns) ].

(** [_extract_requirement_content_enhanced]: the sentence loop. *)
Fixpoint find_sentence (sentences rest : list str) (i current_pos target_pos : nat)
  : option str :=
  match rest with
  | [] => None
  | sentence :: rest' =>
      let sentence_len := (length sentence + 1)%nat in
      if (current_pos <=? target_pos)%nat && (target_pos <=? current_pos + sentence_len)%nat
      then
        let before :=
          if (0 <? i)%nat then [Text.strip (nth (i - 1) sentences [])] else [] in
        let after :=
          if (i <? length sentences - 1)%nat
          then [Text.strip (nth (i + 1) sentences [])] else [] in
        Some (Text.join (txt ". ") (before ++ [Text.strip sentence] ++ after))
      else find_sentence sentences rest' (S i) (current_pos + sentence_len) target_pos
  end.

Definition _extract_requirement_content_enhanced (text : str) (start end_ : nat) : str :=
  let sentences := Text.split_punct text in
  match find_sentence sentences sentences 0 0 start with
  | Some context => context
  | None =>
      let context_start := (start - 150)%nat in
      let context_end := Nat.min (length text) (end_ + 150) in
      Text.slice context_start context_end text
  end.

(** [_split_into_sentences] *)
Definition _split_into_sentences (text : str) : list str :=
  map Text.strip
      (filter (fun s => Text.strip s ≠ []) (Text.split_punct text)).

(** [any(keyword in content_lower for keyword in keywords)] *)
Definition any_keyword (keywords : list string) (content_lower : str) : bool :=
  existsb (fun keyword => Text.contains (txt keyword) content_lower) keywords.

Definition _determine_priority (content : str) : str :=
  let content_lower := Text.lower content in
  if any_keyword ["critical"; "essential"; "must"; "required"; "mandatory"; "shall"]%string
                 content_lower then txt "high"
  else if any_keyword ["should"; "important"; "recommended"]%string content_lower
       then txt "medium"
  else if any_keyword ["may"; "could"; "optional"; "nice to have"]%string content_lower
       then txt "low"
  else txt "medium".

Definition categories : list (string * list string) :=
  [ ("authentication", ["login"; "password"; "authentication"; "credential"; "user access"]);
    ("validation", ["validate"; "validation"; "verify"; "check"; "ensure"]);
    ("interface", ["display"; "show"; "interface"; "ui"; "user interface"; "screen"]);
    ("data", ["data"; "database"; "store"; "save"; "retrieve"; "record"]);
    ("security", ["security"; "secure"; "permission"; "authorization"; "access control"]);
    ("performance", ["performance"; "speed"; "response time"; "load"; "scalability"]);
    ("integration", ["integration"; "api"; "external"; "third party"; "interface"])
  ]%string.

Definition _categorize_requirement (content : str) : str :=
  let content_lower := Text.lower content in
  match List.find (fun ck : string * list string => any_keyword ck.2 content_lower)
                  categories with
  | Some ck => txt ck.1
  | None => txt "general"
  end.

Section Extractor.

(** Python's built-in [hash] on strings: some function to integers,
    fixed for the run of the process. *)
Variable hash : str → Z.

(** [hash(content.strip()[:100]) if content.strip() else hash("")] *)
Definition content_hash (content : str) : Z :=
  match Text.strip content with
  | [] => hash []
  | stripped => hash (take 100 stripped)
  end.

(** The state of one extraction: the list being built for the current
    chunk and the [processed_content] set shared by the whole call. *)
Definition ext_state : Type := list Requirement * gset Z.

(** The body of [for match in matches]. *)
Definition on_match (chunk : str) (chunk_idx : nat) (req_type : str)
           (st : ext_state) (mt : match_obj) : ext_state :=
  let '(requirements, processed_content) := st in
  let req_id :=
    match m_group1 mt with
    | Some (c :: num) => Text.upper req_type ++ txt "_" ++ (c :: num)
    | _ => Text.upper req_type ++ txt "_" ++ Text.of_nat chunk_idx
           ++ txt "_" ++ Text.of_nat (length requirements)
    end in
  let content := _extract_requirement_content_enhanced chunk (m_start mt) (m_end mt) in
  let h := content_hash content in
  if bool_decide (h ∈ processed_content) then st
  else
    (requirements ++
       [{| r_id := req_id;
           r_type := req_type;
           r_content := Text.strip content;
           r_chunk_index := chunk_idx;
           r_priority := _determine_priority content;
           r_category := _categorize_requirement content;
           r_validation_status := txt "pending" |}],
     {[ h ]} ∪ processed_content).

Definition on_pattern (chunk : str) (chunk_idx : nat) (req_type : str)
           (st : ext_state) (pattern : regex) : ext_state :=
  fold_left (on_match chunk chunk_idx req_type) (finditer pattern chunk) st.

Definition on_type (chunk : str) (chunk_idx : nat)
           (st : ext_state) (tp : str * list regex) : ext_state :=
  fold_left (on_pattern chunk chunk_idx tp.1) tp.2 st.

(** The body of the generic loop [for i, sentence in enumerate(sentences)]. *)
Definition on_sentence (chunk_idx : nat) (st : ext_state) (ientry : nat * str) : ext_state :=
  let '(requirements, processed_content) := st in
  let '(i, sentence) := ientry in
  if (60 <? length (Text.strip sentence))%nat then
    let h := content_hash sentence in
    if bool_decide (h ∈ processed_content) then st
    else
      (requirements ++
         [{| r_id := txt "REQ_" ++ Text.of_nat chunk_idx ++ txt "_" ++ Text.of_nat i;
             r_type := txt "general";
             r_content := Text.strip sentence;
             r_chunk_index := chunk_idx;
             r_priority := txt "medium";
             r_category := txt "general";
             r_validation_status := txt "pending" |}],
       {[ h ]} ∪ processed_content)
  else st.

Definition _extract_requirements_from_chunk_enhanced
           (chunk : str) (chunk_idx : nat) (patterns : list (str * list regex))
           (processed_content : gset Z) : ext_state :=
  let st := fold_left (on_type chunk chunk_idx) patterns ([], processed_content) in
  match st.1 with
  | [] => fold_left (on_sentence chunk_idx) (enumerate (_split_into_sentences chunk)) st
  | _ => st
  end.

(** The body of [for chunk_idx, chunk in enumerate(text_chunks)]. *)
Definition on_chunk (st : ext_state) (ic : nat * str) : ext_state :=
  let '(requirements, processed_content) := st in
  let '(chunk_idx, chunk) := ic in
  if (length (Text.strip chunk) <? 50)%nat then st
  else
    let '(extracted_reqs, processed_content') :=
      _extract_requirements_from_chunk_enhanced chunk chunk_idx enhanced_patterns
                                                processed_content in
    (requirements ++ extracted_reqs, processed_content').

Definition extract_requirements (text_chunks : list str) : list Requirement :=
  let st := fold_left on_chunk (enumerate text_chunks) ([], ∅) in
  sort_asc r_id st.1.

End Extractor.

(** ** The mapper *)

(** An element of [mapped_requirements]. *)
Record Match := {
  requirement_id : str;
  similarity_score : Q;
  match_content : str
}.

Record MappingResult := {
  test_case_id : option str;
  test_case_title : option pyval;
  mapped_requirements : list Match;
  mapping_confidence : Q;
  mapping_method : str;
  mapping_date : str
}.

(** The default [threshold=0.3]. *)
Definition default_threshold : Q := (3 # 10)%Q.

(** The branches of the field loop of [_find_matching_requirements];
    [test_case.get(field, '')] turns an absent key into ['']. *)
Definition field_text (value : option pyval) : str :=
  match value with
  | None => []
  | Some (PStr s) => s
  | Some (PList items) => Text.join (txt " ") items
  | Some (POther text truthy) => if truthy then text else []
  end.

Definition composite_text (test_case : TestCase) : str :=
  Text.strip
    (Text.join (txt " ")
       (map field_text
            [tc_title test_case; tc_description test_case;
             tc_steps test_case; tc_query test_case])).

Definition make_match (req : Requirement) (similarity : Q) : Match :=
  {| requirement_id := r_id req;
     similarity_score := similarity;
     match_content := excerpt 200 (r_content req) |}.

(** The inner [for req in requirements: if ...: append; break]. *)
Definition first_related (chunk_content : str) (requirements : list Requirement)
  : option Requirement :=
  List.find (fun req => Text.contains (r_content req) chunk_content
                        || Text.contains chunk_content (r_content req))
            requirements.

(** The [try] body of [_find_matching_requirements]. *)
Definition retrieval_matching (chunks : index) (test_content : str)
           (requirements : list Requirement) (threshold : Q) : list Match :=
  let similarity_results :=
    get_similarity_scores chunks test_content (length requirements) in
  concat
    (map (fun sim_result =>
            if Qltb threshold (sc_similarity sim_result) then
              match first_related (sc_chunk sim_result) requirements with
              | Some req => [make_match req (sc_similarity sim_result)]
              | None => []
              end
            else [])
         similarity_results).

(** An item of the list handed to [" ".join] must be a string. *)
Definition join_item (value : option pyval) : result str :=
  match value with
  | None => Ok []
  | Some (PStr s) => Ok s
  | Some _ => Raise TypeError
  end.

(** [" ".join([test_case.get('title', ''), ..., test_case.get('query', '')]).lower()] *)
Definition joined_fields_lower (test_case : TestCase) : result str :=
  title ← join_item (tc_title test_case);
  description ← join_item (tc_description test_case);
  steps ← join_item (tc_steps test_case);
  query ← join_item (tc_query test_case);
  Ok (Text.lower (Text.join (txt " ") [title; description; steps; query])).

Definition _keyword_based_matching (test_case : TestCase)
           (requirements : list Requirement) (threshold : Q) : result (list Match) :=
  test_content ← joined_fields_lower test_case;
  let test_keywords : gset str := list_to_set (Text.findall_words test_content) in
  Ok (concat
        (map (fun req =>
                let req_keywords := word_set (r_content req) in
                let intersection := test_keywords ∩ req_keywords in
                let union := test_keywords ∪ req_keywords in
                if bool_decide (size union ≠ 0%nat) then
                  let similarity := ratio (size intersection) (size union) in
                  if Qltb threshold similarity then [make_match req similarity] else []
                else [])
             requirements)).

(** [unique_matches]: a dict keyed by requirement id that keeps the
    position of the first insertion and the match of highest score. *)
Fixpoint upsert (mt : Match) (unique_matches : list (str * Match)) : list (str * Match) :=
  match unique_matches with
  | [] => [(requirement_id mt, mt)]
  | (req_id, old) :: rest =>
      if bool_decide (req_id = requirement_id mt) then
        if Qltb (similarity_score old) (similarity_score mt)
        then (req_id, mt) :: rest
        else unique_matches
      else (req_id, old) :: upsert mt rest
  end.

Definition top_matches (matched_requirements : list Match) : list Match :=
  let unique_matches := fold_left (fun u mt => upsert mt u) matched_requirements [] in
  let sorted_matches := sort_desc similarity_score (map snd unique_matches) in
  take 3 sorted_matches.

(** No operation of the [try] body raises on typed records, so its
    result is [Ok]; the handler is the keyword fallback. *)
Definition _find_matching_requirements (chunks : index) (test_case : TestCase)
           (requirements : list Requirement) (threshold : Q) : result (list Match) :=
  match requirements with
  | [] => Ok []
  | _ =>
      let test_content := composite_text test_case in
      match test_content with
      | [] => Ok []
      | _ =>
          matched_requirements ←
            try_except
              (Ok (retrieval_matching chunks test_content requirements threshold))
              (fun _ => _keyword_based_matching test_case requirements threshold);
          Ok (top_matches matched_requirements)
      end
  end.

(** [max(req['similarity_score'] for req in mapped_requirements)] *)
Definition max_score (first : Match) (rest : list Match) : Q :=
  fold_left (fun best mt => if Qltb best (similarity_score mt)
                            then similarity_score mt else best)
            rest (similarity_score first).

(** The scores are floats: the largest one has the value
    [binary64 (max_score first rest)]; [0.2] and [0.8] are the floats
    [binary64 (2 # 10)] and [binary64 (8 # 10)]; the sum and the product
    are rounded. *)
Definition _calculate_mapping_confidence (test_case : TestCase)
           (mapped_requirements : list Match) (all_requirements : list Requirement) : Q :=
  match mapped_requirements with
  | [] => 0%Q
  | first :: rest =>
      let max_similarity := binary64 (max_score first rest) in
      let boosted :=
        match tc_requirement_id test_case with
        | Some (c :: explicit) =>
            if existsb (fun req => bool_decide (requirement_id req = c :: explicit))
                       mapped_requirements
            then (let sum := binary64 (max_similarity + binary64 (2 # 10)) in
                  if Qltb sum 1 then sum else 1)%Q
            else max_similarity
        | _ => max_similarity
        end in
      let reduced :=
        if (2 <? length mapped_requirements)%nat
        then binary64 (boosted * binary64 (8 # 10))%Q else boosted in
      py_round reduced 3
  end.

(** [valid_test_cases = [tc for tc in test_cases if isinstance(tc, dict)]] *)
Definition valid_test_cases (test_cases : list entry) : list TestCase :=
  concat (map (fun e => match e with EDict tc => [tc] | ENotDict => [] end) test_cases).

Section Mapper.

(** [datetime.now().isoformat()] at the [n]-th test case. *)
Variable now : nat → str.

Definition map_one (chunks : index) (requirements : list Requirement)
           (results : list MappingResult) (itc : nat * TestCase)
  : result (list MappingResult) :=
  let '(n, test_case) := itc in
  mapped ← _find_matching_requirements chunks test_case requirements default_threshold;
  Ok (results ++
        [{| test_case_id := tc_id test_case;
            test_case_title := tc_title test_case;
            mapped_requirements := mapped;
            mapping_confidence :=
              _calculate_mapping_confidence test_case mapped requirements;
            mapping_method := txt "semantic_similarity";
            mapping_date := now n |}]).

Definition map_test_cases_to_requirements (chunks : index)
           (test_cases : list entry) (requirements : list Requirement)
  : result (list MappingResult) :=
  for_each (map_one chunks requirements) (enumerate (valid_test_cases test_cases)) [].

End Mapper.

End MappingEngine.

(* ================================================================== *)
(** * [traceability_matrix.py]                                         *)
(* ================================================================== *)

Module TraceabilityMatrix.

Import MappingEngine.

Record ReqEntry := {
  e_id : str;
  e_type : str;
  e_priority : str;
  e_category : str;
  e_content : str;
  covered : bool;
  test_case_count : nat
}.

Record TcEntry := {
  t_id : str;
  t_title : pyval;
  t_type : str;
  t_priority : str;
  t_status : str;
  requirement_mappings : list str
}.

Record Metadata := {
  generation_date : str;
  total_requirements : nat;
  total_test_cases : nat
}.

Record Matrix := {
  requirements : list ReqEntry;
  test_cases : list TcEntry;
  mappings : gmap str (list (option str));
  metadata : Metadata
}.

Definition req_entry (req : Requirement) : ReqEntry :=
  {| e_id := r_id req;
     e_type := r_type req;
     e_priority := r_priority req;
     e_category := r_category req;
     e_content := excerpt 200 (r_content req);
     covered := false;
     test_case_count := 0 |}.

Definition _find_mapped_requirements (test_case : TestCase)
           (requirements : list Requirement) : result (list str) :=
  let mapped_reqs :=
    match tc_requirement_id test_case with
    | Some (c :: explicit_req) => [c :: explicit_req]
    | _ => []
    end in
  test_content ← joined_fields_lower test_case;
  Ok (fold_left
        (fun mapped_reqs req =>
           let req_keywords : gset str :=
             list_to_set (Text.split_ws (Text.lower (r_content req))) in
           let test_keywords : gset str := list_to_set (Text.split_ws test_content) in
           let overlap := req_keywords ∩ test_keywords in
           if (3 <=? size overlap)%nat then
             if bool_decide (r_id req ∈ mapped_reqs) then mapped_reqs
             else mapped_reqs ++ [r_id req]
           else mapped_reqs)
        requirements mapped_reqs).

(** [for req in matrix['requirements']: if req['id'] == req_id: ...; break] *)
Fixpoint mark_covered (req_id : str) (entries : list ReqEntry) : list ReqEntry :=
  match entries with
  | [] => []
  | req :: rest =>
      if bool_decide (e_id req = req_id) then
        {| e_id := e_id req; e_type := e_type req; e_priority := e_priority req;
           e_category := e_category req; e_content := e_content req;
           covered := true;
           test_case_count := test_case_count req + 1 |} :: rest
      else req :: mark_covered req_id rest
  end.

(** The part of the matrix the test-case loop updates. *)
Definition matrix_state : Type :=
  list ReqEntry * list TcEntry * gmap str (list (option str)).

(** The body of [for req_id in mapped_req_ids]. *)
Definition on_mapped_id (test_case : TestCase) (st : matrix_state) (req_id : str)
  : matrix_state :=
  let '(reqs, tcs, maps) := st in
  let maps' := <[req_id := default [] (maps !! req_id) ++ [tc_id test_case]]> maps in
  (mark_covered req_id reqs, tcs, maps').

(** The body of [for tc in test_cases]. *)
Definition on_test_case (srs : list Requirement) (st : matrix_state) (tc : TestCase)
  : result matrix_state :=
  mapped_req_ids ← _find_mapped_requirements tc srs;
  let tc_entry :=
    {| t_id := default (txt "Unknown") (tc_id tc);
       t_title := default (PStr (txt "Untitled")) (tc_title tc);
       t_type := default (txt "Functional") (tc_type tc);
       t_priority := default (txt "Medium") (tc_priority tc);
       t_status := default (txt "Generated") (tc_status tc);
       requirement_mappings := mapped_req_ids |} in
  let '(reqs, tcs, maps) := fold_left (on_mapped_id tc) mapped_req_ids st in
  Ok (reqs, tcs ++ [tc_entry], maps).

Section Generate.

(** [datetime.now().isoformat()] *)
Variable now : str.

(** The method also stores the matrix in [self.matrix_data]; none of
    the methods modelled here reads that attribute. *)
Definition generate_matrix (srs : list Requirement) (tcs : list TestCase)
  : result Matrix :=
  st ← for_each (on_test_case srs) tcs (map req_entry srs, [], ∅);
  Ok {| requirements := st.1.1;
        test_cases := st.1.2;
        mappings := st.2;
        metadata := {| generation_date := now;
                       total_requirements := length srs;
                       total_test_cases := length tcs |} |}.

End Generate.

Record Overall := {
  o_total_requirements : nat;
  o_covered_requirements : nat;
  o_uncovered_requirements : nat;
  coverage_percentage : Q
}.

Record Breakdown := { b_total : nat; b_covered : nat; b_percentage : Q }.

Record Stats := {
  overall_coverage : Overall;
  coverage_by_type : gmap str Breakdown;
  coverage_by_priority : gmap str Breakdown;
  test_case_distribution : gmap str nat;
  uncovered_requirements : list (str * str)
}.

(** [round((covered / total * 100) if total > 0 else 0, 2)]: the quotient
    of the two integers is a float, and so is its product with 100. *)
Definition percentage (covered_n total_n : nat) : Q :=
  py_round (if (0 <? total_n)%nat
            then binary64 (binary64 (ratio covered_n total_n) * 100)%Q else 0%Q) 2.

(** The counting loops over [coverage_by_type] and [coverage_by_priority]. *)
Definition count_by (key : ReqEntry → str) (entries : list ReqEntry)
  : gmap str (nat * nat) :=
  fold_left
    (fun acc req =>
       let '(total_n, covered_n) := default (0, 0)%nat (acc !! key req) in
       <[key req := ((total_n + 1)%nat,
                     if covered req then (covered_n + 1)%nat else covered_n)]> acc)
    entries ∅.

Definition breakdown (data : nat * nat) : Breakdown :=
  {| b_total := data.1; b_covered := data.2; b_percentage := percentage data.2 data.1 |}.

(** [None] stands for a falsy argument and for the empty dict returned
    for it; a matrix built by [generate_matrix] has four keys and is
    never falsy. *)
Definition calculate_coverage_stats (matrix_data : option Matrix) : option Stats :=
  match matrix_data with
  | None => None
  | Some matrix =>
      let reqs := requirements matrix in
      let total_reqs := length reqs in
      let covered_reqs := length (filter (fun req => covered req = true) reqs) in
      let uncovered_reqs := (total_reqs - covered_reqs)%nat in
      Some
        {| overall_coverage :=
             {| o_total_requirements := total_reqs;
                o_covered_requirements := covered_reqs;
                o_uncovered_requirements := uncovered_reqs;
                coverage_percentage := percentage covered_reqs total_reqs |};
           coverage_by_type := breakdown <$> count_by e_type reqs;
           coverage_by_priority := breakdown <$> count_by e_priority reqs;
           test_case_distribution :=
             fold_left (fun acc tc => <[t_type tc := (default 0 (acc !! t_type tc) + 1)%nat]> acc)
                       (test_cases matrix) ∅;
           uncovered_requirements :=
             take 10
               (map (fun req => (e_id req, take 100 (e_content req) ++ txt "..."))
                    (filter (fun req => covered req = false) reqs)) |}
  end.

End TraceabilityMatrix.

(* ================================================================== *)
(** * [semantic_search.py]: the compatibility embedding                *)
(* ================================================================== *)

Module Embedding.

(** [hash(' '.join(words)) % 1000]; Python's [%] takes the sign of the
    divisor, as [Z.modulo] does. *)
Definition embed_text (hash : str → Z) (text : str) : Z :=
  let words := Text.findall_words (Text.lower text) in
  (hash (Text.join (txt " ") words) mod 1000)%Z.

End Embedding.

(* ================================================================== *)
(** * [mapping_engine.py]: the coverage report                         *)
(* ================================================================== *)

Module CoverageReport.

Import MappingEngine.

Record CategoryCoverage := { cat_total : nat; cat_covered : nat; cat_percentage : Q }.

Record Report := {
  rep_total_requirements : nat;
  rep_covered_requirements : nat;
  rep_uncovered_requirements : nat;
  rep_coverage_percentage : Q;
  rep_uncovered_list : list (str * str);
  rep_coverage_by_category : gmap str CategoryCoverage;
  rep_report_date : str
}.

(** The set [covered_requirements]: every requirement id that occurs in a
    mapping result. *)
Definition covered_ids (mapping_results : list MappingResult) : gset str :=
  list_to_set
    (concat (map (fun mapping => map requirement_id (mapped_requirements mapping))
                 mapping_results)).

(** [round((covered / total * 100) if total > 0 else 0, 2)] *)
Definition report_percentage (covered_n total_n : nat) : Q :=
  py_round (if (0 <? total_n)%nat
            then binary64 (binary64 (ratio covered_n total_n) * 100)%Q else 0%Q) 2.

(** The loop that fills [coverage_by_category]. *)
Definition count_categories (covered_requirements : gset str) (requirements : list Requirement)
  : gmap str (nat * nat) :=
  fold_left
    (fun acc req =>
       let '(total_n, covered_n) := default (0, 0)%nat (acc !! r_category req) in
       <[r_category req :=
           ((total_n + 1)%nat,
            if bool_decide (r_id req ∈ covered_requirements)
            then (covered_n + 1)%nat else covered_n)]> acc)
    requirements ∅.

(** The parameter [test_cases] of the method is not read. *)
Definition generate_coverage_report (now : str) (requirements : list Requirement)
           (mapping_results : list MappingResult) : Report :=
  let covered_requirements := covered_ids mapping_results in
  let total_requirements := length requirements in
  let covered_count := size covered_requirements in
  let uncovered_requirements :=
    filter (fun req => r_id req ∉ covered_requirements) requirements in
  {| rep_total_requirements := total_requirements;
     rep_covered_requirements := covered_count;
     rep_uncovered_requirements := length uncovered_requirements;
     rep_coverage_percentage := report_percentage covered_count total_requirements;
     rep_uncovered_list :=
       map (fun req => (r_id req, take 100 (r_content req) ++ txt "..."))
           (take 10 uncovered_requirements);
     rep_coverage_by_category :=
       (fun data : nat * nat =>
          {| cat_total := data.1; cat_covered := data.2;
             cat_percentage := report_percentage data.2 data.1 |})
         <$> count_categories covered_requirements requirements;
     rep_report_date := now |}.

End CoverageReport.

(* ================================================================== *)
(** * [preprocessing.py]: cleaning and chunking                        *)
(* ================================================================== *)

Module Preprocessing.

(** [re.sub(r"\s+", " ", text)]: every maximal run of whitespace becomes
    one space. *)
Fixpoint collapse_ws_aux (in_ws : bool) (s : str) : str :=
  match s with
  | [] => []
  | c :: s' =>
      if Text.is_space c then
        if in_ws then collapse_ws_aux true s' else " "%char :: collapse_ws_aux true s'
      else c :: collapse_ws_aux false s'
  end.
Definition collapse_ws (s : str) : str := collapse_ws_aux false s.

(** The characters outside the class [[^\w\s\.\,\;\:\!\?\-\(\)]]. *)
Definition is_kept (c : ascii) : bool :=
  Text.is_word c || Text.is_space c
  || existsb (fun p => bool_decide (c = p)) (txt ".,;:!?-()").

Definition clean_text (text : str) : str :=
  let text := collapse_ws text in
  let text := map (fun c => if is_kept c then c else " "%char) text in
  Text.strip text.

(** [text.split('\n\n')] *)
Definition is_newline (c : ascii) : bool := (Text.code c =? 10)%nat.
Fixpoint split_paragraphs_aux (cur : str) (s : str) : list str :=
  match s with
  | [] => [rev cur]
  | c :: s' =>
      match s' with
      | d :: s'' =>
          if is_newline c && is_newline d
          then rev cur :: split_paragraphs_aux [] s''
          else split_paragraphs_aux (c :: cur) s'
      | [] => [rev (c :: cur)]
      end
  end.
Definition split_paragraphs (s : str) : list str := split_paragraphs_aux [] s.

(** [[words[i:i+n] for i in range(0, len(words), n)]] for [n > 0]. *)
Fixpoint groups_of (fuel n : nat) (words : list str) : list (list str) :=
  match fuel with
  | O => []
  | S fuel' =>
      match words with
      | [] => []
      | _ => take n words :: groups_of fuel' n (drop n words)
      end
  end.

(** The body of [for sentence in sentences]; the state is the list of
    chunks and [current_chunk].  [range] refuses a step of 0. *)
Definition add_sentence (chunk_size : nat) (st : list str * str) (sentence : str)
  : result (list str * str) :=
  let '(chunks, current_chunk) := st in
  let sentence := Text.strip sentence in
  match sentence with
  | [] => Ok st
  | _ =>
      if (chunk_size <? length (current_chunk ++ sentence))%nat then
        match current_chunk with
        | _ :: _ => Ok (chunks ++ [Text.strip current_chunk], sentence)
        | [] =>
            let words := Text.split_ws sentence in
            let step := (chunk_size / 10)%nat in
            if (step =? 0)%nat
            then Raise (ValueError (txt "range() arg 3 must not be zero"))
            else Ok (chunks ++ map (Text.join (txt " ")) (groups_of (length words) step words),
                     current_chunk)
        end
      else
        Ok (chunks,
            match current_chunk with
            | [] => sentence
            | _ => current_chunk ++ txt " " ++ sentence
            end)
  end.

(** The body of [for paragraph in paragraphs]. *)
Definition add_paragraph (chunk_size : nat) (chunks : list str) (paragraph : str)
  : result (list str) :=
  let paragraph := Text.strip paragraph in
  if (length paragraph <? 30)%nat then Ok chunks
  else if (length paragraph <=? chunk_size)%nat then Ok (chunks ++ [paragraph])
  else
    st ← for_each (add_sentence chunk_size) (Text.split_punct paragraph) (chunks, []);
    Ok (match st.2 with
        | [] => st.1
        | current_chunk => st.1 ++ [Text.strip current_chunk]
        end).

Definition split_into_chunks (text : str) (chunk_size : nat) : result (list str) :=
  let text := Text.strip (collapse_ws text) in
  let paragraphs := split_paragraphs text in
  chunks ← for_each (add_paragraph chunk_size) paragraphs [];
  Ok (filter (fun chunk => (20 < length (Text.strip chunk))%nat) chunks).

End Preprocessing.

(* ================================================================== *)
(** * [validation_engine.py]: the requirement-mapping rule             *)
(* ================================================================== *)

Module ValidationEngine.

Record RuleResult := { passed : bool; errors : list str; warnings : list str }.

(** [_check_requirement_mapping] *)
Definition _check_requirement_mapping (test_case : TestCase)
           (requirements : list Requirement) : RuleResult :=
  match tc_requirement_id test_case with
  | Some (c :: req_id') =>
      let req_id := c :: req_id' in
      let not_found :=
        match requirements with
        | [] => false
        | _ =>
            let req_ids :=
              map r_id (filter (fun req => r_id req ≠ []) requirements) in
            bool_decide (req_id ∉ req_ids)
        end in
      if not_found then
        {| passed := false;
           warnings := [txt "Requirement ID " ++ req_id ++ txt " not found in SRS document"];
           errors := [] |}
      else {| passed := true; errors := []; warnings := [] |}
  | _ =>
      {| passed := false;
         warnings := [txt "Test case should be mapped to a requirement"];
         errors := [] |}
  end.

End ValidationEngine.

(* ================================================================== *)
(** * [app.py]: the upload pipeline and the explicit requirement id    *)
(* ================================================================== *)

Module App.

Import Regex.

(** A literal character of a pattern compiled with [re.IGNORECASE], an
    optional [[_-]] and [\d+]. *)
Definition opt_sep : regex :=
  Opt (Cls (fun c => (Text.code c =? 95)%nat || (Text.code c =? 45)%nat)).
Definition digits : regex := Plus digit.

(** [patterns] of [_extract_requirement_id]. *)
Definition id_patterns : list regex :=
  [ Cat (lit "REQ") (Cat opt_sep digits);
    Cat (lit "R") digits;
    Cat (lit "FR") (Cat opt_sep digits);
    Cat (lit "NFR") (Cat opt_sep digits) ].

(** [re.search(pattern, chunk)] followed by [match.group()]: the text of
    the leftmost match. *)
Definition search_group (pattern : regex) (chunk : str) : option str :=
  match finditer pattern chunk with
  | mt :: _ => Some (Text.slice (m_start mt) (m_end mt) chunk)
  | [] => None
  end.

(** The first pattern of the list that matches decides. *)
Fixpoint first_group (patterns : list regex) (chunk : str) : option str :=
  match patterns with
  | [] => None
  | pattern :: rest =>
      match search_group pattern chunk with
      | Some text => Some text
      | None => first_group rest chunk
      end
  end.

Definition _extract_requirement_id (chunk : str) : option str :=
  first_group id_patterns chunk.

(** The globals the upload writes. *)
Record State := {
  document_chunks : list str;
  srs_requirements : list Requirement;
  search_index : SemanticSearch.index
}.

(** The [try] body of [upload] after the text has been read from the
    file: an exception leaves the globals as they are; the index is built
    only if there are chunks. *)
Definition process_document (hash : str → Z) (raw_text : str) (st : State) : State :=
  let clean := Preprocessing.clean_text raw_text in
  match Preprocessing.split_into_chunks clean 300 with
  | Raise _ => st
  | Ok chunks =>
      {| document_chunks := chunks;
         srs_requirements := MappingEngine.extract_requirements hash chunks;
         search_index :=
           match chunks with
           | [] => search_index st
           | _ => (SemanticSearch.build_index chunks (search_index st)).2
           end |}
  end.

End App.

Import SemanticSearch MappingEngine TraceabilityMatrix.

(* ================================================================== *)
(** * Concrete data used by the examples                               *)
(* ================================================================== *)

(** An instance of [hash] without collisions: the string read as a
    numeral in base 256 under a leading 1. *)
Fixpoint injective_hash (s : str) : Z :=
  match s with
  | [] => 1
  | c :: s' => Z.of_nat (Text.code c) + 256 * injective_hash s'
  end%Z.

(** Scenario A of the specification. *)
Definition login_chunk : str :=
  txt "The system shall allow user login with valid credentials.".
Definition password_chunk : str :=
  txt "The system shall validate password length of at least 8 characters.".
Definition scenario_chunks : list str := [login_chunk; password_chunk].
Definition scenario_requirements : list Requirement :=
  extract_requirements injective_hash scenario_chunks.

Definition blank_test_case : TestCase :=
  {| tc_id := None; tc_title := None; tc_description := None; tc_steps := None;
     tc_query := None; tc_requirement_id := None; tc_type := None;
     tc_priority := None; tc_status := None |}.

(** A test case as the query endpoint builds it for the login chunk, had
    that chunk carried the marker "FR-1": strings throughout, and the
    marker as explicit requirement id. *)
Definition login_test_case : TestCase :=
  {| tc_id := Some (txt "TC_1");
     tc_title := Some (PStr (txt "The system shall allow user login"));
     tc_description := Some (PStr (txt "valid credentials"));
     tc_steps := Some (PStr (txt "login"));
     tc_query := Some (PStr (txt "login"));
     tc_requirement_id := Some (txt "FR-1");
     tc_type := Some (txt "Functional");
     tc_priority := Some (txt "Medium");
     tc_status := Some (txt "Generated") |}.

Definition clock0 : str := txt "2024-01-01T00:00:00".
Definition clock (n : nat) : str := clock0.

(** The chunk of Scenario A with its final period, and without: a chunk of
    one sentence that contains a pattern marker. *)
Definition login_page_chunk : str :=
  txt "The system shall allow user login with valid credentials entered on the login page.".
Definition login_page_sentence : str :=
  txt "The system shall allow user login with valid credentials entered on the login page".

(** The requirement "FR-1", referred to by two chunks. *)
Definition fr1_chunks : list str :=
  [ txt "FR-1 The system shall allow user login with valid credentials.";
    txt "FR-1 The system shall lock the account after three failed attempts." ].

(** The two requirements extracted from them; both get the id
    [FUNCTIONAL_1]. *)
Definition fr1_requirements : list Requirement :=
  extract_requirements injective_hash fr1_chunks.

(** An index whose first chunk is a separator line without any token, and
    a query without any token. *)
Definition separator_chunk : str := txt "----------------------------------------".
Definition separator_index : index := [separator_chunk; login_chunk].
Definition tokenless_query : str := txt "???".

(** What the mapper returns for the login test case. *)
Definition login_mapping : MappingResult :=
  {| test_case_id := Some (txt "TC_1");
     test_case_title := Some (PStr (txt "The system shall allow user login"));
     mapped_requirements :=
       [{| requirement_id := txt "FUNCTIONAL_0_0";
           similarity_score := (8 # 9)%Q;
           match_content := login_chunk |}];
     mapping_confidence := (889 # 1000)%Q;
     mapping_method := txt "semantic_similarity";
     mapping_date := clock 0 |}.

(** The requirement entries of the matrix for the login test case. *)
Definition login_matrix_requirements : list ReqEntry :=
  [ {| e_id := txt "FUNCTIONAL_0_0"; e_type := txt "functional"; e_priority := txt "high";
       e_category := txt "authentication"; e_content := login_chunk;
       covered := true; test_case_count := 1 |};
    {| e_id := txt "FUNCTIONAL_1_0"; e_type := txt "functional"; e_priority := txt "high";
       e_category := txt "authentication"; e_content := password_chunk;
       covered := true; test_case_count := 1 |} ].

Definition summary (r : Requirement) : str * str * str := (r_id r, r_type r, r_content r).

(* ================================================================== *)
(** * Notions used in the statements                                   *)
(* ================================================================== *)

(** ** Scores *)

Definition in_unit (q : Q) : Prop := (0 <= q)%Q ∧ (q <= 1)%Q.
Definition score_in_unit (mt : Match) : Prop := in_unit (similarity_score mt).

(** The largest score of a list, 0 for the empty list. *)
Definition largest_score (ms : list Match) : Q :=
  foldr (λ mt acc, Qmax (similarity_score mt) acc) 0%Q ms.

(** Modelled on the specification's wording (section 4.3, step 6), in
    exact arithmetic: start at the largest surviving similarity (0 if
    none), add 0.2 capped at 1 if the explicit requirement id is among the
    surviving ids, multiply by 0.8 if more than two candidates survive.
    This is the number that is then rounded to three decimals. *)
Definition spec_confidence (explicit : option str) (survivors : list Match) : Q :=
  let start := largest_score survivors in
  let linked :=
    match explicit with
    | Some id => bool_decide (id ∈ map requirement_id survivors)
    | None => false
    end in
  let boosted := if linked then Qmin 1 (start + (2 # 10))%Q else start in
  if bool_decide (2 < length survivors)%nat then (boosted * (8 # 10))%Q else boosted.

(** [confidence] is [exact] rounded to three decimals, by float
    arithmetic: a number of three decimals at most half a thousandth away
    from [exact], up to the rounding errors of the float operations
    (less than [10^-15]), which decide the last digit when [exact] lies
    halfway or within that distance of it. *)
Definition rounded_to_3_decimals (exact confidence : Q) : Prop :=
  (∃ k : Z, confidence == inject_Z k / 1000)%Q
  ∧ (Qabs (confidence - exact) <= (1 # 2000) + (1 # 1000000000000000))%Q.

(** What the specification says of a confidence computed for the explicit
    requirement id [explicit] and the surviving matches [survivors].  An
    empty id counts as absent. *)
Definition confidence_as_specified (explicit : option str) (survivors : list Match)
           (confidence : Q) : Prop :=
  in_unit confidence
  ∧ (survivors = [] → (confidence == 0)%Q)
  ∧ (explicit ≠ Some [] →
     rounded_to_3_decimals (spec_confidence explicit survivors) confidence).

(** What the specification says of the mapping result [r] for the test
    case [tc]: the matches are those found for [tc], at most three, and
    the confidence is the one computed from them. *)
Definition mapping_as_specified (chunks : SemanticSearch.index) (reqs : list Requirement)
           (tc : TestCase) (r : MappingResult) : Prop :=
  _find_matching_requirements chunks tc reqs default_threshold = Ok (mapped_requirements r)
  ∧ (length (mapped_requirements r) ≤ 3)%nat
  ∧ Forall score_in_unit (mapped_requirements r)
  ∧ mapping_confidence r
    = _calculate_mapping_confidence tc (mapped_requirements r) reqs
  ∧ confidence_as_specified (tc_requirement_id tc) (mapped_requirements r)
                            (mapping_confidence r).

(** [percentage] is [exact] rounded to two decimals, by float arithmetic:
    a number of two decimals at most half a hundredth away from [exact],
    up to the rounding errors of the division and of the product (less
    than [10^-13]). *)
Definition rounded_to_2_decimals (exact percentage : Q) : Prop :=
  (∃ k : Z, percentage == inject_Z k / 100)%Q
  ∧ (Qabs (percentage - exact) <= (1 # 200) + (1 # 10000000000000))%Q.

(** Matches and a test case for the examples of rounding. *)
Definition scored_match (id : string) (score : Q) : Match :=
  {| requirement_id := txt id; similarity_score := score; match_content := [] |}.


(** ** Ranking *)

(** [a] is ranked before [b]: a larger key, or the same key and an earlier
    place in the input. *)
Definition ranked_before {A : Type} (key : A → Q) (earlier : A → A → Prop) (a b : A) : Prop :=
  (key b < key a)%Q ∨ ((key a == key b)%Q ∧ earlier a b).

(** The query and the chunk have a token between them: the guard
    [if union:] of the scoring loop. *)
Definition scorable (query chunk : str) : Prop :=
  size (word_set query ∪ word_set chunk) ≠ 0%nat.

(** The chunks the scoring loop of [search] keeps, in index order, with
    their similarity. *)
Definition candidates (chunks : index) (query : str) : list (Q * nat * str) :=
  map (λ ic : nat * str, (similarity query ic.2, ic.1, ic.2))
      (filter (λ ic : nat * str, scorable query ic.2) (enumerate chunks)).

(** Ranking of scored chunks: larger similarity first, equal similarity in
    index order. *)
Definition ranks_before (a b : Q * nat * str) : Prop :=
  ranked_before (λ x : Q * nat * str, x.1.1) (λ a b, (a.1.2 < b.1.2)%nat) a b.

(** ** The traceability matrix *)

(** What the matrix records about one requirement entry. *)
Definition entry_counted (maps : gmap str (list (option str))) (e : ReqEntry) : Prop :=
  test_case_count e = length (default [] (maps !! e_id e))
  ∧ (covered e = true ↔ is_Some (maps !! e_id e)).

(** [mappings[req_id].append(tc)] *)
Definition add_mapping (req_id : str) (tc : option str) (maps : gmap str (list (option str)))
  : gmap str (list (option str)) :=
  <[req_id := default [] (maps !! req_id) ++ [tc]]> maps.

(** The facts about a state of the test-case loop, relative to the
    requirement list [srs] and the test cases [seen] whose ids may have
    been recorded. *)
Record matrix_ok (srs : list Requirement) (seen : list TestCase) (st : matrix_state) : Prop := {
  ok_ids : map e_id st.1.1 = map r_id srs;
  ok_keys : ∀ id, is_Some (st.2 !! id) →
                  id ∈ map r_id srs ∨ ∃ tc, tc ∈ seen ∧ tc_requirement_id tc = Some id;
  ok_nonempty : ∀ id l, st.2 !! id = Some l → l ≠ [];
  ok_mapped : Forall (λ e, covered e = true → is_Some (st.2 !! e_id e)) st.1.1;
  ok_counted : NoDup (map r_id srs) → Forall (entry_counted st.2) st.1.1
}.

(** ** What a pattern can capture *)

Definition all_ascii : list ascii := map ascii_of_nat (seq 0 256).

(** Every character [r] can consume satisfies [P]. *)
Fixpoint only (P : ascii → bool) (r : Regex.regex) : bool :=
  match r with
  | Regex.Chr c =>
      forallb (λ x, implb (bool_decide (Text.lower_char x = Text.lower_char c)) (P x)) all_ascii
  | Regex.Cls p => forallb (λ x, implb (p x) (P x)) all_ascii
  | Regex.Cat r1 r2 | Regex.Alt r1 r2 => only P r1 && only P r2
  | Regex.Star r1 | Regex.Opt r1 | Regex.Grp r1 => only P r1
  end.

(** Every group of [r] captures characters satisfying [P] only. *)
Fixpoint captures_only (P : ascii → bool) (r : Regex.regex) : bool :=
  match r with
  | Regex.Chr _ | Regex.Cls _ => true
  | Regex.Cat r1 r2 | Regex.Alt r1 r2 => captures_only P r1 && captures_only P r2
  | Regex.Star r1 | Regex.Opt r1 => captures_only P r1
  | Regex.Grp r1 => only P r1
  end.

Definition capture_in (P : ascii → bool) (cap : option str) : Prop :=
  match cap with
  | Some w => Forall (λ c, P c = true) w
  | None => True
  end.

(** What a successful match of a piece of pattern tells: the rest of the
    pattern succeeded on a suffix, the consumed prefix being in [P]. *)
Definition consumes_in {R : Type} (P : ascii → bool)
           (body : str → option str → (str → option str → option R) → option R) : Prop :=
  ∀ s cap k res, body s cap k = Some res →
    ∃ w s' cap', s = w ++ s' ∧ Forall (λ c, P c = true) w ∧ k s' cap' = Some res.

(** ... and the capture handed on is in [P] if it was before. *)
Definition captures_in {R : Type} (P : ascii → bool)
           (body : str → option str → (str → option str → option R) → option R) : Prop :=
  ∀ s cap k res, capture_in P cap → body s cap k = Some res →
    ∃ s' cap', capture_in P cap' ∧ k s' cap' = Some res.

(** ** The shapes of requirement ids *)

(** A character of a captured number. *)
Definition digit_or_dot (c : ascii) : bool := Text.is_digit c || (Text.code c =? 46)%nat.

Fixpoint strip_prefix (p s : str) : option str :=
  match p, s with
  | [], _ => Some s
  | a :: p', b :: s' => if bool_decide (a = b) then strip_prefix p' s' else None
  | _ :: _, [] => None
  end.

(** The prefixes [TYPE_] of the ids built for pattern matches. *)
Definition numbered_prefixes : list str :=
  map (λ tp : str * list Regex.regex, Text.upper tp.1 ++ txt "_") enhanced_patterns.

(** An id of the form [TYPE_<number>]. *)
Definition is_numbered_id (id : str) : bool :=
  existsb (λ p, match strip_prefix p id with
                | Some (c :: w) => forallb digit_or_dot (c :: w)
                | _ => false
                end)
          numbered_prefixes.

(** An id of the form [<prefix><i>_<n>]. *)
Definition keyed_id (prefix : str) (i n : nat) : str :=
  prefix ++ Text.of_nat i ++ txt "_" ++ Text.of_nat n.

Definition key_prefixes : list str := numbered_prefixes ++ [txt "REQ_"].

(** Not of the form [TYPE_<number>]. *)
Definition unnumbered (id : str) : Prop := is_numbered_id id = false.

(** An id a chunk can give: a numbered one, or one keyed by the chunk
    index and a counter below [bound]. *)
Definition id_from (idx bound : nat) (id : str) : Prop :=
  is_numbered_id id = true
  ∨ ∃ p n, p ∈ key_prefixes ∧ (n < bound)%nat ∧ id = keyed_id p idx n.

(** The requirements of one chunk. *)
Definition ids_ok (idx bound : nat) (reqs : list Requirement) : Prop :=
  Forall (λ r, id_from idx bound (r_id r)) reqs
  ∧ NoDup (filter unnumbered (map r_id reqs)).

(** The requirements of the chunks before [bound]. *)
Definition all_ids_ok (bound : nat) (reqs : list Requirement) : Prop :=
  Forall (λ r, ∃ idx b, (idx < bound)%nat ∧ id_from idx b (r_id r)) reqs
  ∧ NoDup (filter unnumbered (map r_id reqs)).

(** ** Dedup keys *)

(** The string whose hash is the dedup key of a content. *)
Definition fingerprint (content : str) : str :=
  match Text.strip content with
  | [] => []
  | stripped => take 100 stripped
  end.

(** A string that does not start with a space. *)
Definition starts_solid (s : str) : Prop :=
  match s with
  | [] => True
  | c :: _ => Text.is_space c = false
  end.

(** Two runs of the extractor under the hashes [h1] and [h2] hold the same
    requirements and have seen the same fingerprints. *)
Definition same_run (h1 h2 : str → Z) (st1 st2 : ext_state) : Prop :=
  st1.1 = st2.1
  ∧ ∃ seen : gset str, st1.2 = set_map h1 seen ∧ st2.2 = set_map h2 seen.

(** The dedup key of a stored requirement. *)
Definition key_of (hash : str → Z) (r : Requirement) : Z := content_hash hash (r_content r).

(** The requirements emitted so far, [before] the current chunk and in its
    list, have pairwise distinct keys, all in the set. *)
Definition keys_ok (hash : str → Z) (before : list Requirement) (st : ext_state) : Prop :=
  Forall (λ r, key_of hash r ∈ st.2) (before ++ st.1)
  ∧ NoDup (map (key_of hash) (before ++ st.1)).

(* ================================================================== *)
(** * Notions used in the further properties                         *)
(* ================================================================== *)

(** ** The records of the extractor *)

(** [a <= b] for the string order of [list.sort]. *)
Definition id_le (a b : str) : Prop := Text.ltb b a = false.

Definition requirement_types : list str :=
  map fst enhanced_patterns ++ [txt "general"].
Definition priority_names : list str := [txt "high"; txt "medium"; txt "low"].
Definition category_names : list str :=
  map (λ ck : string * list string, txt ck.1) categories ++ [txt "general"].

(** What every requirement record of an extraction over [text_chunks]
    satisfies. *)
Record well_formed (text_chunks : list str) (r : Requirement) : Prop := {
  wf_status : r_validation_status r = txt "pending";
  wf_type : r_type r ∈ requirement_types;
  wf_priority : r_priority r ∈ priority_names;
  wf_category : r_category r ∈ category_names;
  wf_content : Text.strip (r_content r) = r_content r;
  wf_chunk : ∃ chunk, text_chunks !! r_chunk_index r = Some chunk
                      ∧ (50 ≤ length (Text.strip chunk))%nat;
  wf_general : r_type r = txt "general" →
               r_priority r = txt "medium" ∧ r_category r = txt "general"
               ∧ (60 < length (r_content r))%nat
}.

(** The same, for the records of the chunk [chunk] at index [idx]. *)
Definition well_formed_at (idx : nat) (r : Requirement) : Prop :=
  r_validation_status r = txt "pending"
  ∧ r_type r ∈ requirement_types
  ∧ r_priority r ∈ priority_names
  ∧ r_category r ∈ category_names
  ∧ Text.strip (r_content r) = r_content r
  ∧ r_chunk_index r = idx
  ∧ (r_type r = txt "general" →
     r_priority r = txt "medium" ∧ r_category r = txt "general"
     ∧ (60 < length (r_content r))%nat).

(** ** Ranking of similarity records *)

(** Larger similarity first, equal similarity in index order. *)
Definition scores_before (a b : scored) : Prop :=
  ranked_before sc_similarity (λ a b, (sc_index a < sc_index b)%nat) a b.

(** The record of [get_similarity_scores] for the chunk at an index. *)
Definition score_record (query : str) (ic : nat * str) : scored :=
  {| sc_chunk := ic.2; sc_similarity := similarity query ic.2; sc_index := ic.1 |}.

(** Text of the characters the model covers: codes below 128. *)
Definition ascii_text (s : str) : Prop := Forall (λ c, (Text.code c < 128)%nat) s.

(** A hash for the examples: the length of the string, negated. *)
Definition negated_length (s : str) : Z := (- Z.of_nat (length s))%Z.

(** ** Matches of the mapper *)

(** A match of the primary path for the test content [text]: built from
    the first requirement related to a chunk whose similarity to [text]
    exceeds the threshold. *)
Definition match_from (chunks : index) (text : str) (requirements : list Requirement)
           (threshold : Q) (mt : Match) : Prop :=
  ∃ req chunk,
    req ∈ requirements ∧ chunk ∈ chunks
    ∧ first_related chunk requirements = Some req
    ∧ (threshold < similarity text chunk)%Q
    ∧ mt = make_match req (similarity text chunk).

(** The result record of the mapper for the [n]-th record entry. *)
Definition result_for (now : nat → str) (chunks : index) (requirements : list Requirement)
           (itc : nat * TestCase) (r : MappingResult) : Prop :=
  ∃ ms, _find_matching_requirements chunks itc.2 requirements default_threshold = Ok ms
        ∧ r = {| test_case_id := tc_id itc.2;
                 test_case_title := tc_title itc.2;
                 mapped_requirements := ms;
                 mapping_confidence := _calculate_mapping_confidence itc.2 ms requirements;
                 mapping_method := txt "semantic_similarity";
                 mapping_date := now itc.1 |}.

(** A value that [" ".join] accepts: an absent key (the default [''])
    or a string. *)
Definition is_text (value : option pyval) : bool :=
  match value with
  | None | Some (PStr _) => true
  | Some _ => false
  end.

(** The four text fields of a test case are strings. *)
Definition text_fields (tc : TestCase) : bool :=
  is_text (tc_title tc) && is_text (tc_description tc)
  && is_text (tc_steps tc) && is_text (tc_query tc).

(** ** The two views of the matrix *)

(** The requirement ids [_find_mapped_requirements] collects for a test
    case. *)
Definition mapped_ids (srs : list Requirement) (tc : TestCase) : list str :=
  match _find_mapped_requirements tc srs with
  | Ok ids => ids
  | Raise _ => []
  end.

(** The entry of [matrix['test_cases']] for a test case. *)
Definition expected_entry (srs : list Requirement) (tc : TestCase) : TcEntry :=
  {| t_id := default (txt "Unknown") (tc_id tc);
     t_title := default (PStr (txt "Untitled")) (tc_title tc);
     t_type := default (txt "Functional") (tc_type tc);
     t_priority := default (txt "Medium") (tc_priority tc);
     t_status := default (txt "Generated") (tc_status tc);
     requirement_mappings := mapped_ids srs tc |}.

(** A test case as the upload endpoint may store it: the steps are a JSON
    list. *)
Definition listed_steps_test_case : TestCase :=
  {| tc_id := Some (txt "TC_2");
     tc_title := Some (PStr (txt "Login with valid credentials"));
     tc_description := None;
     tc_steps := Some (PList [txt "open the login page"; txt "enter valid credentials"]);
     tc_query := None;
     tc_requirement_id := None;
     tc_type := None; tc_priority := None; tc_status := None |}.

(** ** Counting by key *)

(** The number of elements with key [k], and the number of those that are
    covered. *)
Definition tally {A : Type} (key : A → str) (cov : A → bool) (k : str) (l : list A)
  : nat * nat :=
  (length (filter (λ x, key x = k) l),
   length (filter (λ x, key x = k ∧ cov x = true) l)).

(** The step of the counting loops of [calculate_coverage_stats] and
    [generate_coverage_report]. *)
Definition tally_step {A : Type} (key : A → str) (cov : A → bool)
           (acc : gmap str (nat * nat)) (x : A) : gmap str (nat * nat) :=
  let '(total_n, covered_n) := default (0, 0)%nat (acc !! key x) in
  <[key x := ((total_n + 1)%nat, if cov x then (covered_n + 1)%nat else covered_n)]> acc.

(** A table of breakdowns holds, for every key that occurs, the counts for
    that key and the percentage computed from them, and nothing else. *)
Definition breakdown_table (key : ReqEntry → str) (entries : list ReqEntry)
           (table : gmap str Breakdown) : Prop :=
  ∀ k, table !! k
       = if decide (k ∈ map key entries)
         then Some (breakdown (tally key covered k entries))
         else None.

(** The entries of [uncovered_requirements] and [uncovered_list]. *)
Definition uncovered_entry (id content : str) : str * str :=
  (id, take 100 content ++ txt "...").

(** The row of [coverage_by_category] for the counts [data]. *)
Definition category_row (data : nat * nat) : CoverageReport.CategoryCoverage :=
  {| CoverageReport.cat_total := data.1;
     CoverageReport.cat_covered := data.2;
     CoverageReport.cat_percentage := CoverageReport.report_percentage data.2 data.1 |}.

(** ** Chunks *)

(** A string without white space at either end: [s.strip() == s]. *)
Definition trimmed (s : str) : Prop := starts_solid s ∧ starts_solid (rev s).

(** Not one of the characters [.], [!] and [?]. *)
Definition no_sentence_end (s : str) : Prop :=
  Forall (λ c, Text.is_sentence_end c = false) s.

(** The text [split_into_chunks] works on. *)
Definition normalized (text : str) : str := Text.strip (Preprocessing.collapse_ws text).

(** The characters [clean_text] lets through. *)
Definition clean_char (c : ascii) : bool :=
  Text.is_word c || bool_decide (c = " "%char)
  || existsb (λ p, bool_decide (c = p)) (txt ".,;:!?-()").

(** A text of 40 characters without sentence punctuation. *)
Definition unpunctuated_text : str := txt "alpha beta gamma delta epsilon zeta eta-".

(** The exception of [range(0, n, 0)]. *)
Definition zero_step : exn := ValueError (txt "range() arg 3 must not be zero").

(** A chunk cut from a long paragraph. *)
Definition good_chunk (c : str) : Prop := trimmed c ∧ no_sentence_end c.

(** ** Requirement markers *)

(** [_] or [-]. *)
Definition is_sep_char (c : ascii) : bool :=
  (Text.code c =? 95)%nat || (Text.code c =? 45)%nat.

(** A non-empty run of digits. *)
Definition is_digits (number : str) : Prop :=
  number ≠ [] ∧ Forall (λ c, Text.is_digit c = true) number.

(** The texts [_extract_requirement_id] can return: [REQ], an optional
    separator and digits; [R] and digits; or [FR], a separator and digits;
    the letters in either case. *)
Definition marker_shape (id : str) : Prop :=
  ∃ letters sep number,
    id = letters ++ sep ++ number
    ∧ is_digits number
    ∧ ((Text.lower letters = txt "req"
        ∧ (sep = [] ∨ ∃ x, sep = [x] ∧ is_sep_char x = true))
       ∨ (Text.lower letters = txt "r" ∧ sep = [])
       ∨ (Text.lower letters = txt "fr" ∧ ∃ x, sep = [x] ∧ is_sep_char x = true)).

(** How the text of a marker opens. *)
Definition opens_like_marker (id : str) : bool :=
  match id with
  | a :: b :: _ =>
      (bool_decide (Text.lower_char a = "r"%char)
       && (bool_decide (Text.lower_char b = "e"%char) || Text.is_digit b))
      || (bool_decide (Text.lower_char a = "f"%char)
          && bool_decide (Text.lower_char b = "r"%char))
  | _ => false
  end.

(** How the id of an extracted requirement opens: with one of the type
    prefixes, or it is an id of the generic fallback. *)
Definition requirement_id_shape (id : str) : Prop :=
  (∃ p rest, p ∈ numbered_prefixes ∧ id = p ++ rest)
  ∨ (∃ i n, id = keyed_id (txt "REQ_") i n).

(** The four patterns of [_extract_requirement_id], in the order of the
    list. *)
Definition req_pattern : Regex.regex :=
  Regex.Cat (Regex.lit "REQ") (Regex.Cat App.opt_sep App.digits).
Definition r_pattern : Regex.regex := Regex.Cat (Regex.lit "R") App.digits.
Definition fr_pattern : Regex.regex :=
  Regex.Cat (Regex.lit "FR") (Regex.Cat App.opt_sep App.digits).
Definition nfr_pattern : Regex.regex :=
  Regex.Cat (Regex.lit "NFR") (Regex.Cat App.opt_sep App.digits).

(** The three patterns that can decide. *)
Definition deciding_patterns : list Regex.regex := [req_pattern; r_pattern; fr_pattern].

(** A continuation that accepts whatever is left. *)
Definition accepts_all {R : Type} (k : str → option str → option R) : Prop :=
  ∀ s cap, is_Some (k s cap).

(** The test case without its explicit requirement id. *)
Definition unlinked (tc : TestCase) : TestCase :=
  {| tc_id := tc_id tc; tc_title := tc_title tc; tc_description := tc_description tc;
     tc_steps := tc_steps tc; tc_query := tc_query tc; tc_requirement_id := None;
     tc_type := tc_type tc; tc_priority := tc_priority tc; tc_status := tc_status tc |}.

(** An instance of the test cases the query endpoint generates from a
    retrieved chunk: its [requirement_id] is what [_extract_requirement_id]
    finds in the chunk; the id and the steps are example values. *)
Definition generated_test_case (query chunk : str) : TestCase :=
  {| tc_id := Some (txt "TC_1");
     tc_title := Some (PStr (txt "Test Case for: " ++ take 50 query ++ txt "..."));
     tc_description := Some (PStr (txt "Generated test case based on query: " ++ query));
     tc_steps := Some (PStr (txt "1. Execute test scenario"));
     tc_query := Some (PStr query);
     tc_requirement_id := App._extract_requirement_id chunk;
     tc_type := Some (txt "Functional");
     tc_priority := Some (txt "Medium");
     tc_status := Some (txt "Generated") |}.

(** A chunk that carries the marker of its requirement. *)
Definition fr1_chunk : str :=
  txt "FR-1 The system shall allow user login with valid credentials.".

(** The state of the application before the first upload. *)
Definition initial_state : App.State :=
  {| App.document_chunks := []; App.srs_requirements := []; App.search_index := initial |}.

(** A document of more than 300 characters. *)
Definition long_document : str :=
  txt "FR-1 The system shall allow user login with valid credentials. FR-2 The system shall lock the account after three failed attempts. NFR-1 The system must respond within two seconds under normal load. The administrator may export the audit log as a file. As a user I want to reset my password so that I can regain access to my account.".

#[local] Set Warnings "-clear-no-such-hyp".

(* ================================================================== *)
(** * Properties of the lexical index                                  *)
(* ================================================================== *)

Section Jaccard.

Implicit Types a b : gset str.

Lemma jaccard_comm a b : jaccard a b = jaccard b a.
Proof.
  unfold jaccard.
  assert (a ∩ b = b ∩ a) as -> by set_solver.
  assert (a ∪ b = b ∪ a) as -> by set_solver.
  done.
Qed.

Lemma jaccard_self a : a ≠ ∅ → (jaccard a a == 1)%Q.
Proof.
  intros Ha. unfold jaccard.
  assert (a ∩ a = a) as -> by set_solver.
  assert (a ∪ a = a) as -> by set_solver.
  assert (size a ≠ 0%nat) as Hs.
  { rewrite size_non_empty_iff. by intros ?%leibniz_equiv. }
  rewrite bool_decide_eq_true_2 by done.
  unfold ratio, Qeq. simpl. lia.
Qed.

Lemma jaccard_empty : jaccard ∅ ∅ = 0%Q.
Proof. reflexivity. Qed.

Lemma ratio_range (n d : nat) : (n ≤ d)%nat → (0 <= ratio n d)%Q ∧ (ratio n d <= 1)%Q.
Proof.
  intros Hnd. unfold ratio, Qle. simpl. split; [lia|].
  destruct d as [|d]; [assert (n = 0%nat) as -> by lia; simpl; lia|].
  lia.
Qed.

Lemma jaccard_range a b : (0 <= jaccard a b)%Q ∧ (jaccard a b <= 1)%Q.
Proof.
  unfold jaccard. case_bool_decide.
  - apply ratio_range, subseteq_size. set_solver.
  - split; [apply Qle_refl | discriminate].
Qed.

End Jaccard.

(** C8. The Jaccard primitive is 1 on equal non-empty token sets and is
    symmetric, on token sets and on the texts they are taken from. *)
Theorem C8_jaccard_reflexive_symmetric :
  (∀ a : gset str, a ≠ ∅ → (jaccard a a == 1)%Q)
  ∧ (∀ a b : gset str, jaccard a b = jaccard b a)
  ∧ (∀ text : str, word_set text ≠ ∅ → (similarity text text == 1)%Q)
  ∧ (∀ query chunk : str, similarity query chunk = similarity chunk query).
Proof.
  split; [exact jaccard_self|].
  split; [exact jaccard_comm|].
  split; [intros text; apply jaccard_self|].
  intros query chunk. apply jaccard_comm.
Qed.

Lemma C8_witness :
  word_set (txt "User login") ≠ ∅
  ∧ (jaccard (word_set (txt "User login")) (word_set (txt "User login")) == 1)%Q.
Proof.
  assert (word_set (txt "User login") ≠ ∅) as Hne.
  { intros Heq. apply (f_equal size) in Heq. vm_compute in Heq. discriminate Heq. }
  split; [exact Hne|].
  exact (proj1 C8_jaccard_reflexive_symmetric _ Hne).
Defined.

(** C7. Building from an empty sequence raises [ValueError] with a message
    and leaves the index as it was; searching an index that holds no
    chunks (never built, or only failed builds) raises [ValueError] with a
    message; the scoring function returns the empty list there. *)
Theorem C7_index_error_contract :
  (∀ chunks : index,
     build_index [] chunks = (Raise (ValueError (txt "No text chunks provided")), chunks))
  ∧ (∀ (query : str) (k : nat),
       search initial query k
       = Raise (ValueError (txt "Index not built yet. Please upload a document first.")))
  ∧ (∀ (query : str) (k : nat),
       search (build_index [] initial).2 query k
       = Raise (ValueError (txt "Index not built yet. Please upload a document first.")))
  ∧ (∀ (query : str) (k : nat), get_similarity_scores [] query k = []).
Proof. repeat split. Qed.

(** A successful build replaces the index, and searching it succeeds. *)
Lemma build_index_ok (text_chunks : list str) (chunks : index) :
  text_chunks ≠ [] → build_index text_chunks chunks = (Ok tt, text_chunks).
Proof. by destruct text_chunks. Qed.

Lemma search_ok (chunks : index) (query : str) (k : nat) :
  chunks ≠ [] → ∃ results, search chunks query k = Ok results.
Proof. destruct chunks; [done|]. intros _. eexists. reflexivity. Qed.

(* ================================================================== *)
(** * Properties of the mapper                                         *)
(* ================================================================== *)

Section ForEach.

Context {S A : Type}.
Implicit Types (step : S → A → result S) (xs : list A) (st : S).

(** An invariant kept by every successful step holds at the end. *)
Lemma for_each_invariant (P : S → Prop) step xs st st' :
  (∀ s x s', x ∈ xs → P s → step s x = Ok s' → P s') →
  P st → for_each step xs st = Ok st' → P st'.
Proof.
  revert st. induction xs as [|x xs IH]; intros st Hstep HP Hrun; simpl in Hrun.
  - by simplify_eq.
  - destruct (step st x) as [s1|e] eqn:Hx; simpl in Hrun; [|done].
    apply (IH s1); [|by eapply Hstep; [left| |]|done].
    intros s y s' Hy. apply Hstep. by right.
Qed.

(** Steps that never raise make the loop total. *)
Lemma for_each_total step xs st :
  (∀ s x, x ∈ xs → ∃ s', step s x = Ok s') → ∃ st', for_each step xs st = Ok st'.
Proof.
  revert st. induction xs as [|x xs IH]; intros st Hstep; simpl.
  - by eexists.
  - destruct (Hstep st x) as [s1 ->]; [by left|]. simpl.
    apply IH. intros s y Hy. apply Hstep. by right.
Qed.

End ForEach.

Lemma enumerate_from_length {A} (xs : list A) n : length (enumerate_from n xs) = length xs.
Proof. revert n. induction xs; intros; simpl; auto. Qed.

Lemma enumerate_from_lookup {A} (xs : list A) n i x :
  (i, x) ∈ enumerate_from n xs → (n ≤ i)%nat ∧ xs !! (i - n)%nat = Some x.
Proof.
  revert n. induction xs as [|y xs IH]; intros n Hin; simpl in Hin.
  - by apply elem_of_nil in Hin.
  - apply elem_of_cons in Hin as [Heq|Hin].
    + inversion Heq; subst. split; [lia|]. by rewrite Nat.sub_diag.
    + apply IH in Hin as [Hle Hl]. split; [lia|].
      replace (i - n)%nat with (S (i - S n)) by lia. done.
Qed.

Section MapperBasics.

Variable now : nat → str.

(** The primary path cannot raise, so the mapper is total on typed
    records. *)
Lemma find_matching_total chunks tc reqs threshold :
  ∃ ms, _find_matching_requirements chunks tc reqs threshold = Ok ms.
Proof.
  unfold _find_matching_requirements.
  destruct reqs; [by eexists|].
  destruct (composite_text tc); [by eexists|].
  by eexists.
Qed.

Lemma map_one_total chunks reqs results itc :
  ∃ results', map_one now chunks reqs results itc = Ok results'.
Proof.
  destruct itc as [n tc]. unfold map_one.
  destruct (find_matching_total chunks tc reqs default_threshold) as [ms ->].
  by eexists.
Qed.

Lemma map_total chunks tcs reqs :
  ∃ results, map_test_cases_to_requirements now chunks tcs reqs = Ok results.
Proof. apply for_each_total. intros. apply map_one_total. Qed.

(** Every result added by [map_one] is the result for the test case at
    hand. *)
Lemma map_one_inv chunks reqs results itc results' :
  map_one now chunks reqs results itc = Ok results' →
  ∃ ms, _find_matching_requirements chunks itc.2 reqs default_threshold = Ok ms
        ∧ results' = results ++
            [{| test_case_id := tc_id itc.2;
                test_case_title := tc_title itc.2;
                mapped_requirements := ms;
                mapping_confidence := _calculate_mapping_confidence itc.2 ms reqs;
                mapping_method := txt "semantic_similarity";
                mapping_date := now itc.1 |}].
Proof.
  destruct itc as [n tc]. unfold map_one. simpl.
  destruct (_find_matching_requirements chunks tc reqs default_threshold) as [ms|e];
    simpl; [|done].
  intros [= <-]. by exists ms.
Qed.

(** What holds of every mapping the mapper can produce for a test case of
    the list holds of every element of its result. *)
Lemma map_results_forall (P : MappingResult → Prop) chunks tcs reqs results :
  (∀ n tc ms, tc ∈ valid_test_cases tcs →
      _find_matching_requirements chunks tc reqs default_threshold = Ok ms →
      P {| test_case_id := tc_id tc;
           test_case_title := tc_title tc;
           mapped_requirements := ms;
           mapping_confidence := _calculate_mapping_confidence tc ms reqs;
           mapping_method := txt "semantic_similarity";
           mapping_date := now n |}) →
  map_test_cases_to_requirements now chunks tcs reqs = Ok results →
  Forall P results.
Proof.
  intros HP Hrun. unfold map_test_cases_to_requirements in Hrun.
  eapply (for_each_invariant (Forall P)); [|constructor|exact Hrun].
  intros acc [n tc] acc' Hin Hacc Hstep.
  apply map_one_inv in Hstep as (ms & Hms & ->). simpl in *.
  apply Forall_app. split; [done|]. constructor; [|constructor].
  apply HP; [|done].
  apply enumerate_from_lookup in Hin as [_ Hl].
  by eapply list_elem_of_lookup_2.
Qed.

(** One result per well-formed entry. *)
Lemma map_results_length chunks tcs reqs results :
  map_test_cases_to_requirements now chunks tcs reqs = Ok results →
  length results = length (valid_test_cases tcs).
Proof.
  unfold map_test_cases_to_requirements, enumerate.
  generalize (valid_test_cases tcs) as l. intros l.
  assert (∀ n acc res, for_each (map_one now chunks reqs) (enumerate_from n l) acc = Ok res →
            length res = (length acc + length l)%nat) as H.
  { induction l as [|tc l IH]; intros n acc res Hrun.
    - simpl in Hrun. simplify_eq. simpl. lia.
    - cbn [enumerate_from for_each] in Hrun.
      destruct (map_one now chunks reqs acc (n, tc)) as [acc'|] eqn:Hone; [|done].
      cbn [mbind result_bind] in Hrun.
      apply map_one_inv in Hone as (ms & _ & ->).
      apply IH in Hrun. rewrite Hrun, length_app. simpl. lia. }
  intros Hrun. by apply H in Hrun.
Qed.

End MapperBasics.

(** C1 (as amended). Every mapping result carries the one constant method
    tag ['semantic_similarity'], whichever path produced its matches. *)
Theorem C1_method_is_constant (now : nat → str) (chunks : index) (tcs : list entry)
        (reqs : list Requirement) (results : list MappingResult) (r : MappingResult) :
  map_test_cases_to_requirements now chunks tcs reqs = Ok results →
  r ∈ results →
  mapping_method r = txt "semantic_similarity".
Proof.
  intros Hrun Hr.
  eapply (map_results_forall now (λ r, mapping_method r = txt "semantic_similarity")) in Hrun.
  - rewrite Forall_forall in Hrun. by apply Hrun.
  - done.
Qed.

Lemma login_mapping_run :
  map_test_cases_to_requirements clock scenario_chunks [EDict login_test_case]
                                 scenario_requirements
  = Ok [login_mapping].
Proof. vm_compute. reflexivity. Qed.

Lemma C1_witness : mapping_method login_mapping = txt "semantic_similarity".
Proof.
  apply (C1_method_is_constant clock scenario_chunks [EDict login_test_case]
                                scenario_requirements [login_mapping]).
  - exact login_mapping_run.
  - apply list_elem_of_here.
Defined.

(** C1 (as stated) fails: the result the primary path produces for the
    login test case is tagged neither ['retrieval'] nor
    ['keyword_fallback']. *)
Lemma C1_counterexample :
  ∃ r, map_test_cases_to_requirements clock scenario_chunks [EDict login_test_case]
                                      scenario_requirements = Ok [r]
       ∧ mapped_requirements r ≠ []
       ∧ mapping_method r ≠ txt "retrieval"
       ∧ mapping_method r ≠ txt "keyword_fallback".
Proof.
  exists login_mapping. split; [exact login_mapping_run|].
  repeat split; discriminate.
Qed.

(** C10. With an index that holds no chunks the mapper returns, for every
    test case and every requirement list, no match and confidence 0: the
    scoring function returns the empty list, nothing is raised, and the
    keyword comparison, which would have found the login requirement, is
    not consulted. *)
Theorem C10_empty_index_maps_nothing :
  (∀ (tc : TestCase) (reqs : list Requirement),
     _find_matching_requirements [] tc reqs default_threshold = Ok []
     ∧ _calculate_mapping_confidence tc [] reqs = 0%Q)
  ∧ (∀ (now : nat → str) (tcs : list entry) (reqs : list Requirement),
       ∃ results,
         map_test_cases_to_requirements now [] tcs reqs = Ok results
         ∧ length results = length (valid_test_cases tcs)
         ∧ Forall (λ r, mapped_requirements r = [] ∧ mapping_confidence r = 0%Q) results)
  ∧ (∃ m, _keyword_based_matching login_test_case scenario_requirements default_threshold
          = Ok [m]
          ∧ composite_text login_test_case ≠ []).
Proof.
  assert (∀ tc reqs, _find_matching_requirements [] tc reqs default_threshold = Ok []) as Hfind.
  { intros tc reqs. unfold _find_matching_requirements.
    destruct reqs; [done|]. destruct (composite_text tc); done. }
  split; [|split].
  - intros tc reqs. split; [apply Hfind | reflexivity].
  - intros now tcs reqs.
    destruct (map_total now [] tcs reqs) as [results Hrun].
    exists results. split; [done|]. split; [by eapply map_results_length|].
    eapply map_results_forall; [|exact Hrun].
    intros n tc ms _ Hms. rewrite Hfind in Hms. inversion Hms; subst. done.
  - eexists. split; [vm_compute; reflexivity | vm_compute; discriminate].
Qed.

(* ================================================================== *)
(** * Rounding                                                         *)
(* ================================================================== *)

Section Rounding.

Open Scope Q_scope.

(** The rounded value is one of the two integers around the argument. *)
Lemma round_half_even_cases (y : Q) :
  (round_half_even y = Qfloor y ∧ y - inject_Z (Qfloor y) <= 1 # 2)
  ∨ (round_half_even y = (Qfloor y + 1)%Z ∧ 1 # 2 <= y - inject_Z (Qfloor y)).
Proof.
  unfold round_half_even.
  destruct (Qcompare (y - inject_Z (Qfloor y)) (1 # 2)) eqn:Hc.
  - apply Qeq_alt in Hc.
    destruct (Z.even (Qfloor y)); [left | right]; (split; [done|]); lra.
  - apply Qlt_alt in Hc. left. split; [done|]. lra.
  - apply Qgt_alt in Hc. right. split; [done|]. lra.
Qed.

(** Rounding stays between integer bounds of the argument. *)
Lemma round_half_even_between (a b : Z) (y : Q) :
  inject_Z a <= y → y <= inject_Z b → (a ≤ round_half_even y ≤ b)%Z.
Proof.
  intros Ha Hb.
  assert (a ≤ Qfloor y)%Z as Hfa.
  { rewrite <- (Qfloor_Z a). by apply Qfloor_resp_le. }
  assert (Qfloor y ≤ b)%Z as Hfb.
  { rewrite <- (Qfloor_Z b). by apply Qfloor_resp_le. }
  destruct (round_half_even_cases y) as [[-> _]|[-> Hhalf]]; [lia|].
  split; [lia|].
  destruct (Z.eq_dec (Qfloor y) b) as [Heq|]; [|lia].
  exfalso. rewrite Heq in Hhalf. lra.
Qed.

(** Rounding moves the argument by at most one half. *)
Lemma round_half_even_near (y : Q) : Qabs (inject_Z (round_half_even y) - y) <= 1 # 2.
Proof.
  pose proof (Qfloor_le y) as Hlo. pose proof (Qlt_floor y) as Hhi.
  apply Qabs_Qle_condition.
  destruct (round_half_even_cases y) as [[-> Hhalf]|[-> Hhalf]].
  - lra.
  - rewrite inject_Z_plus in *. change (inject_Z 1) with 1 in *. lra.
Qed.

Lemma pow10_pos (n : nat) : (0 < 10 ^ Z.of_nat n)%Z.
Proof. apply Z.pow_pos_nonneg; lia. Qed.

Lemma pow10_denominator (n : nat) : Z.pos (Pos.of_nat (10 ^ n)) = (10 ^ Z.of_nat n)%Z.
Proof.
  assert (10 ^ n ≠ 0)%nat as Hne by (apply Nat.pow_nonzero; lia).
  change 10%Z with (Z.of_nat 10). rewrite <- Nat2Z.inj_pow.
  destruct (10 ^ n)%nat as [|k]; [done|].
  rewrite <- Pos.of_nat_succ. lia.
Qed.

(** [py_round x n] is a multiple of [10^-n]. *)
Lemma py_round_decimal (x : Q) (n : nat) :
  ∃ k : Z, py_round x n == inject_Z k / inject_Z (10 ^ Z.of_nat n).
Proof.
  exists (round_half_even (x * inject_Z (10 ^ Z.of_nat n))).
  unfold py_round. rewrite Qmake_Qdiv. by rewrite pow10_denominator.
Qed.

(** ... the nearest one. *)
Lemma py_round_near (x : Q) (n : nat) :
  Qabs (py_round x n - x) <= (1 # 2) / inject_Z (10 ^ Z.of_nat n).
Proof.
  pose proof (pow10_pos n) as Hpos.
  assert (0 < inject_Z (10 ^ Z.of_nat n)) as HposQ.
  { change 0 with (inject_Z 0). by rewrite <- Zlt_Qlt. }
  set (p := inject_Z (10 ^ Z.of_nat n)) in *.
  pose proof (round_half_even_near (x * p)) as Hnear.
  unfold py_round. rewrite Qmake_Qdiv, pow10_denominator. fold p.
  set (r := inject_Z (round_half_even (x * p))) in *.
  apply Qabs_Qle_condition in Hnear. apply Qabs_Qle_condition.
  assert (r / p - x == (r - x * p) / p) as -> by (field; lra).
  split.
  - apply Qle_shift_div_l; [done|].
    assert (- ((1 # 2) / p) * p == - (1 # 2)) as -> by (field; lra). lra.
  - apply Qle_shift_div_r; [done|].
    assert ((1 # 2) / p * p == 1 # 2) as -> by (field; lra). lra.
Qed.

(** Integer bounds of the argument bound the rounded value. *)
Lemma py_round_between (a b : Z) (x : Q) (n : nat) :
  inject_Z a <= x → x <= inject_Z b →
  inject_Z a <= py_round x n ∧ py_round x n <= inject_Z b.
Proof.
  intros Ha Hb.
  pose proof (pow10_pos n) as Hpos.
  assert (0 < inject_Z (10 ^ Z.of_nat n)) as HposQ.
  { change 0 with (inject_Z 0). by rewrite <- Zlt_Qlt. }
  destruct (round_half_even_between (a * 10 ^ Z.of_nat n) (b * 10 ^ Z.of_nat n)
              (x * inject_Z (10 ^ Z.of_nat n))) as [Hlo Hhi].
  { rewrite inject_Z_mult. apply Qmult_le_compat_r; [done | by apply Qlt_le_weak]. }
  { rewrite inject_Z_mult. apply Qmult_le_compat_r; [done | by apply Qlt_le_weak]. }
  unfold py_round, Qle. simpl. rewrite pow10_denominator. lia.
Qed.

Lemma py_round_zero (n : nat) : py_round 0 n == 0.
Proof.
  destruct (py_round_between 0 0 0 n) as [Hlo Hhi]; [apply Qle_refl..|].
  change (inject_Z 0) with 0 in *. lra.
Qed.

Lemma round_half_even_compat (x y : Q) : x == y → round_half_even x = round_half_even y.
Proof.
  intros Hxy. unfold round_half_even.
  rewrite (Qfloor_comp _ _ Hxy).
  assert (Qcompare (x - inject_Z (Qfloor y)) (1 # 2)
          = Qcompare (y - inject_Z (Qfloor y)) (1 # 2)) as ->; [|done].
  by rewrite Hxy.
Qed.

Lemma py_round_compat (x y : Q) (n : nat) : x == y → py_round x n = py_round y n.
Proof.
  intros Hxy. unfold py_round. f_equal. apply round_half_even_compat. by rewrite Hxy.
Qed.

End Rounding.

(* ================================================================== *)
(** * Binary64 rounding                                                *)
(* ================================================================== *)

Section Binary64.

Open Scope Q_scope.

Lemma pow2_pos (k : Z) : 0 < 2 ^ k.
Proof. by apply Qpower_0_lt. Qed.

Lemma pow2_plus (a b : Z) : 2 ^ (a + b) == 2 ^ a * 2 ^ b.
Proof. by apply Qpower_plus. Qed.

Lemma pow2_le (a b : Z) : (a ≤ b)%Z → 2 ^ a <= 2 ^ b.
Proof. intros H. by apply Qpower_le_compat_l. Qed.

Lemma pow2_lt_inv (a b : Z) : 2 ^ a < 2 ^ b → (a < b)%Z.
Proof. intros H. by apply (Qpower_lt_compat_l_inv 2). Qed.

Lemma pow2_inject (k : Z) : (0 ≤ k)%Z → inject_Z (2 ^ k) == 2 ^ k.
Proof. intros H. by rewrite Zpower_Qpower. Qed.

Lemma pow2_cancel (e : Z) : 2 ^ (- e) * 2 ^ e == 1.
Proof. rewrite <- pow2_plus. by replace (- e + e)%Z with 0%Z by lia. Qed.

(** [2^(floor_log2 x) <= x < 2^(floor_log2 x + 1)] *)
Lemma floor_log2_spec (x : Q) :
  0 < x → 2 ^ floor_log2 x <= x ∧ x < 2 ^ (floor_log2 x + 1).
Proof.
  intros Hpos. destruct x as [n d]. unfold floor_log2. cbn [Qnum Qden].
  assert (0 < n)%Z as Hn by (unfold Qlt in Hpos; simpl in Hpos; lia).
  destruct (Z.log2_spec n Hn) as [Hnlo Hnhi].
  destruct (Z.log2_spec (Z.pos d) (Pos2Z.is_pos d)) as [Hdlo Hdhi].
  pose proof (Z.log2_nonneg n) as Hln. pose proof (Z.log2_nonneg (Z.pos d)) as Hld.
  set (ln := Z.log2 n) in *. set (ld := Z.log2 (Z.pos d)) in *.
  assert (0 < inject_Z (Z.pos d)) as HdQ by (by rewrite <- (Zlt_Qlt 0)).
  assert (2 ^ ln <= inject_Z n) as HnloQ.
  { rewrite <- pow2_inject by done. by rewrite <- Zle_Qle. }
  assert (inject_Z n < 2 ^ (ln + 1)) as HnhiQ.
  { rewrite <- pow2_inject by lia. rewrite <- Zlt_Qlt. by rewrite <- Z.add_1_r in Hnhi. }
  assert (2 ^ ld <= inject_Z (Z.pos d)) as HdloQ.
  { rewrite <- pow2_inject by done. by rewrite <- Zle_Qle. }
  assert (inject_Z (Z.pos d) < 2 ^ (ld + 1)) as HdhiQ.
  { rewrite <- pow2_inject by lia. rewrite <- Zlt_Qlt. by rewrite <- Z.add_1_r in Hdhi. }
  assert (inject_Z n == (n # d) * inject_Z (Z.pos d)) as Hq.
  { rewrite Qmake_Qdiv. field. lra. }
  assert (∀ k, n # d < 2 ^ k ↔ inject_Z n < 2 ^ k * inject_Z (Z.pos d)) as Hlt.
  { intros k. rewrite Hq. symmetry. by apply Qmult_lt_r. }
  assert (∀ k, 2 ^ k <= n # d ↔ 2 ^ k * inject_Z (Z.pos d) <= inject_Z n) as Hle.
  { intros k. rewrite Hq. symmetry. by apply Qmult_le_r. }
  destruct (Qle_bool (2 ^ (ln - ld)) (n # d)) eqn:Hc.
  - apply Qle_bool_iff in Hc. split; [exact Hc|].
    apply Hlt. replace (ln - ld + 1)%Z with ((ln + 1) + - ld)%Z by lia.
    rewrite pow2_plus. pose proof (pow2_cancel ld) as Hcancel.
    pose proof (pow2_pos (- ld)) as Hp1. pose proof (pow2_pos (ln + 1)) as Hp2.
    eapply Qlt_le_trans; [exact HnhiQ|].
    rewrite <- Qmult_assoc.
    rewrite <- (Qmult_1_r (2 ^ (ln + 1))) at 1.
    apply Qmult_le_l; [done|]. rewrite <- Hcancel.
    apply Qmult_le_l; done.
  - assert (n # d < 2 ^ (ln - ld)) as Hc'.
    { apply Qnot_le_lt. intros H. apply Qle_bool_iff in H. congruence. }
    split; [|by replace (ln - ld - 1 + 1)%Z with (ln - ld)%Z by lia].
    apply Hle. replace (ln - ld - 1)%Z with (ln + - (ld + 1))%Z by lia.
    rewrite pow2_plus. pose proof (pow2_cancel (ld + 1)) as Hcancel.
    pose proof (pow2_pos (- (ld + 1))) as Hp1. pose proof (pow2_pos ln) as Hp2.
    eapply Qle_trans; [|exact HnloQ].
    rewrite <- Qmult_assoc.
    rewrite <- (Qmult_1_r (2 ^ ln)) at 2.
    apply Qmult_le_l; [done|]. rewrite <- Hcancel.
    apply Qmult_le_l; [done|]. by apply Qlt_le_weak.
Qed.

Lemma floor_log2_unique (x : Q) (k : Z) :
  2 ^ k <= x → x < 2 ^ (k + 1) → floor_log2 x = k.
Proof.
  intros Hlo Hhi.
  assert (0 < x) as Hpos by (eapply Qlt_le_trans; [apply (pow2_pos k) | done]).
  destruct (floor_log2_spec x Hpos) as [Hlo' Hhi'].
  assert (k < floor_log2 x + 1)%Z
    by (apply pow2_lt_inv; eapply Qle_lt_trans; [exact Hlo | exact Hhi']).
  assert (floor_log2 x < k + 1)%Z
    by (apply pow2_lt_inv; eapply Qle_lt_trans; [exact Hlo' | exact Hhi]).
  lia.
Qed.

Lemma floor_log2_compat (x y : Q) : 0 < x → x == y → floor_log2 x = floor_log2 y.
Proof.
  intros Hpos Hxy. destruct (floor_log2_spec x Hpos) as [Hlo Hhi].
  symmetry. apply floor_log2_unique; by rewrite <- Hxy.
Qed.

Lemma floor_log2_mono (x y : Q) : 0 < x → x <= y → (floor_log2 x ≤ floor_log2 y)%Z.
Proof.
  intros Hpos Hxy.
  destruct (floor_log2_spec x Hpos) as [Hlo _].
  destruct (floor_log2_spec y) as [_ Hhi]; [lra|].
  assert (floor_log2 x < floor_log2 y + 1)%Z; [|lia].
  apply pow2_lt_inv. lra.
Qed.

Lemma floor_log2_below (x : Q) (k : Z) : 0 < x → x < 2 ^ k → (floor_log2 x < k)%Z.
Proof.
  intros Hpos Hk. destruct (floor_log2_spec x Hpos) as [Hlo _].
  apply pow2_lt_inv. lra.
Qed.

(** Rounding to the nearest integer is monotone. *)
Lemma round_half_even_mono (a b : Q) : a <= b → (round_half_even a ≤ round_half_even b)%Z.
Proof.
  intros Hab. pose proof (Qfloor_resp_le _ _ Hab) as Hf.
  destruct (Z.eq_dec (Qfloor a) (Qfloor b)) as [Heq|Hne].
  - unfold round_half_even. rewrite <- Heq.
    destruct (Qcompare_spec (a - inject_Z (Qfloor a)) (1 # 2)) as [Ha|Ha|Ha];
      destruct (Qcompare_spec (b - inject_Z (Qfloor a)) (1 # 2)) as [Hb|Hb|Hb];
      try (exfalso; lra); destruct (Z.even (Qfloor a)); lia.
  - destruct (round_half_even_cases a) as [[-> _]|[-> _]];
      destruct (round_half_even_cases b) as [[-> _]|[-> _]]; lia.
Qed.

Lemma round_half_even_Z (z : Z) : round_half_even (inject_Z z) = z.
Proof.
  pose proof (round_half_even_between z z (inject_Z z) (Qle_refl _) (Qle_refl _)). lia.
Qed.

Lemma exponent_compat (x y : Q) : ¬ x == 0 → x == y → exponent x = exponent y.
Proof.
  intros Hne Hxy. unfold exponent. f_equal. f_equal.
  apply floor_log2_compat; [|by rewrite Hxy].
  destruct (Qlt_le_dec 0 (Qabs x)) as [|Hle]; [done|].
  exfalso. apply Hne. apply Qabs_Qle_condition in Hle. lra.
Qed.

Lemma binary64_zero (x : Q) : x == 0 → binary64 x == 0.
Proof.
  intros Hx. unfold binary64.
  rewrite (round_half_even_compat _ (inject_Z 0)).
  - rewrite round_half_even_Z. ring.
  - transitivity (0 * 2 ^ (- exponent x)); [|ring].
    apply Qmult_comp; [exact Hx | reflexivity].
Qed.

Lemma binary64_compat (x y : Q) : x == y → binary64 x == binary64 y.
Proof.
  intros Hxy. destruct (Qeq_dec x 0) as [Hz|Hnz].
  - rewrite (binary64_zero x Hz).
    assert (y == 0) as Hz' by (by transitivity x).
    by rewrite (binary64_zero y Hz').
  - unfold binary64. rewrite <- (exponent_compat x y Hnz Hxy).
    rewrite (round_half_even_compat (x * _) (y * 2 ^ (- exponent x))); [reflexivity|].
    apply Qmult_comp; [exact Hxy | reflexivity].
Qed.

Lemma binary64_nonneg (x : Q) : 0 <= x → 0 <= binary64 x.
Proof.
  intros Hx. unfold binary64.
  apply Qmult_le_0_compat; [|apply Qlt_le_weak, pow2_pos].
  rewrite <- (Zle_Qle 0). rewrite <- (round_half_even_Z 0).
  apply round_half_even_mono. change (inject_Z 0) with 0.
  apply Qmult_le_0_compat; [done | apply Qlt_le_weak, pow2_pos].
Qed.

Lemma exponent_nonneg_arg (x : Q) : 0 <= x → exponent x = Z.max (floor_log2 x - 52) (-1074).
Proof.
  intros Hx. unfold exponent.
  destruct (Qeq_dec x 0) as [Hz|Hnz].
  - destruct x as [n d]. unfold Qeq in Hz. simpl in Hz.
    assert (n = 0%Z) as -> by lia. reflexivity.
  - f_equal. f_equal. apply floor_log2_compat.
    + rewrite Qabs_pos by done. lra.
    + by apply Qabs_pos.
Qed.

(** The scaled argument lies below [2^53], and from [2^52] on for a
    normal number. *)
Lemma scaled_below (x : Q) :
  0 < x → x * 2 ^ (- exponent x) < 2 ^ 53.
Proof.
  intros Hpos. rewrite exponent_nonneg_arg by lra.
  destruct (floor_log2_spec x Hpos) as [_ Hhi].
  set (e := Z.max _ _).
  assert (floor_log2 x + 1 ≤ e + 53)%Z as Hle by lia.
  pose proof (pow2_le _ _ Hle) as Hp. rewrite (pow2_plus e 53) in Hp.
  pose proof (pow2_pos (- e)) as Hinv. pose proof (pow2_cancel e) as Hcancel.
  apply (Qmult_lt_r _ _ (2 ^ e)); [apply pow2_pos|].
  rewrite <- Qmult_assoc, Hcancel, Qmult_1_r.
  rewrite (Qmult_comm (2 ^ 53)). lra.
Qed.

Lemma scaled_above (x : Q) :
  0 < x → (-1074 < exponent x)%Z → 2 ^ 52 <= x * 2 ^ (- exponent x).
Proof.
  intros Hpos. rewrite exponent_nonneg_arg by lra. intros Hnormal.
  destruct (floor_log2_spec x Hpos) as [Hlo _].
  set (e := Z.max _ _) in *.
  assert (floor_log2 x = e + 52)%Z as Heq by lia.
  rewrite Heq, pow2_plus in Hlo.
  pose proof (pow2_pos (- e)) as Hinv. pose proof (pow2_cancel e) as Hcancel.
  apply (Qmult_le_r _ _ (2 ^ e)); [apply pow2_pos|].
  rewrite <- Qmult_assoc, Hcancel, Qmult_1_r.
  rewrite (Qmult_comm (2 ^ 52)). lra.
Qed.

(** Rounding to binary64 is monotone. *)
Lemma binary64_mono (x y : Q) : 0 <= x → x <= y → binary64 x <= binary64 y.
Proof.
  intros Hx Hxy.
  destruct (Qeq_dec x 0) as [Hz|Hnz].
  { rewrite (binary64_zero x Hz). apply binary64_nonneg. lra. }
  assert (0 < x) as Hpos by lra. assert (0 < y) as Hposy by lra.
  assert (exponent x ≤ exponent y)%Z as Hexp.
  { rewrite !exponent_nonneg_arg by lra.
    pose proof (floor_log2_mono x y Hpos Hxy). lia. }
  destruct (Z.eq_dec (exponent x) (exponent y)) as [Heq|Hne].
  - unfold binary64. rewrite <- Heq.
    apply Qmult_le_compat_r; [|apply Qlt_le_weak, pow2_pos].
    rewrite <- Zle_Qle. apply round_half_even_mono.
    apply Qmult_le_compat_r; [done | apply Qlt_le_weak, pow2_pos].
  - assert (exponent x + 1 ≤ exponent y)%Z as Hstep by lia.
    apply (Qle_trans _ (2 ^ 53 * 2 ^ exponent x)).
    + unfold binary64.
      apply Qmult_le_compat_r; [|apply Qlt_le_weak, pow2_pos].
      rewrite <- (pow2_inject 53) by lia. rewrite <- Zle_Qle.
      apply round_half_even_between with (a := 0%Z).
      * change (inject_Z 0) with 0.
        apply Qmult_le_0_compat; [done | apply Qlt_le_weak, pow2_pos].
      * rewrite pow2_inject by lia. apply Qlt_le_weak. by apply scaled_below.
    + apply (Qle_trans _ (2 ^ 52 * 2 ^ exponent y)).
      * rewrite <- !pow2_plus. apply pow2_le. lia.
      * unfold binary64.
        apply Qmult_le_compat_r; [|apply Qlt_le_weak, pow2_pos].
        rewrite <- (pow2_inject 52) by lia. rewrite <- Zle_Qle.
        rewrite <- (round_half_even_Z (2 ^ 52)).
        apply round_half_even_mono. rewrite pow2_inject by lia.
        apply scaled_above; [done|].
        pose proof (exponent_nonneg_arg x Hx). lia.
Qed.

(** Rounding moves a number by at most half a unit of its last place. *)
Lemma binary64_error (x : Q) : Qabs (binary64 x - x) <= 2 ^ exponent x * (1 # 2).
Proof.
  unfold binary64. set (e := exponent x).
  pose proof (round_half_even_near (x * 2 ^ (- e))) as Hnear.
  pose proof (pow2_pos e) as Hpos. pose proof (pow2_cancel e) as Hcancel.
  set (r := inject_Z (round_half_even (x * 2 ^ (- e)))) in *.
  assert (r * 2 ^ e - x == (r - x * 2 ^ (- e)) * 2 ^ e) as ->.
  { rewrite <- (Qmult_1_r x) at 1. rewrite <- Hcancel. ring. }
  rewrite Qabs_Qmult, (Qabs_pos (2 ^ e)) by lra.
  rewrite Qmult_comm. apply Qmult_le_l; done.
Qed.

(** The error for a number below [2^k]. *)
Lemma binary64_near (x : Q) (k : Z) :
  0 <= x → x < 2 ^ k → (-1021 ≤ k)%Z → Qabs (binary64 x - x) <= 2 ^ (k - 54).
Proof.
  intros Hx Hk Hmin.
  destruct (Qeq_dec x 0) as [Hz|Hnz].
  { rewrite (binary64_zero x Hz), Hz.
    change (Qabs (0 - 0)) with 0. apply Qlt_le_weak, pow2_pos. }
  eapply Qle_trans; [apply binary64_error|].
  rewrite exponent_nonneg_arg by done.
  assert (floor_log2 x < k)%Z by (apply floor_log2_below; lra).
  change (1 # 2) with (2 ^ (-1)). rewrite <- pow2_plus. apply pow2_le. lia.
Qed.

Lemma binary64_one : binary64 1 == 1.
Proof. vm_compute. reflexivity. Qed.

Lemma binary64_hundred : binary64 100 == 100.
Proof. vm_compute. reflexivity. Qed.

(** A float computed from a number of [[0,1]] lies in [[0,1]]. *)
Lemma binary64_unit (x : Q) : 0 <= x → x <= 1 → 0 <= binary64 x ∧ binary64 x <= 1.
Proof.
  intros Hlo Hhi. split; [by apply binary64_nonneg|].
  rewrite <- binary64_one. by apply binary64_mono.
Qed.

End Binary64.

Section FloatErrors.

Open Scope Q_scope.

(** Half a unit in the last place of a float below 2, and below 128. *)
Lemma binary64_near_2 (x : Q) :
  0 <= x → x < 2 → Qabs (binary64 x - x) <= 1 # 9007199254740992.
Proof.
  intros Hlo Hhi.
  assert (2 ^ (1 - 54) == 1 # 9007199254740992) as <- by reflexivity.
  apply binary64_near; [done | exact Hhi | lia].
Qed.

Lemma binary64_near_128 (x : Q) :
  0 <= x → x < 128 → Qabs (binary64 x - x) <= 1 # 140737488355328.
Proof.
  intros Hlo Hhi.
  assert (2 ^ (7 - 54) == 1 # 140737488355328) as <- by reflexivity.
  apply binary64_near; [done | exact Hhi | lia].
Qed.

(** The floats [0.2] and [0.8]. *)
Lemma float_0_2 : binary64 (2 # 10) == 3602879701896397 # 18014398509481984.
Proof. vm_compute. reflexivity. Qed.

Lemma float_0_8 : binary64 (8 # 10) == 3602879701896397 # 4503599627370496.
Proof. vm_compute. reflexivity. Qed.

(** [max_similarity + 0.2] for a float [f] of [[0,1]] near [x]. *)
Lemma float_sum_near (f x δ : Q) :
  0 <= f → f <= 1 → Qabs (f - x) <= δ →
  0 <= binary64 (f + binary64 (2 # 10))
  ∧ Qabs (binary64 (f + binary64 (2 # 10)) - (x + (2 # 10)))
    <= δ + (2 # 9007199254740992).
Proof.
  intros Hlo Hhi Hfx. pose proof float_0_2 as Hc.
  assert (0 <= f + binary64 (2 # 10) ∧ f + binary64 (2 # 10) < 2) as [Hslo Hshi].
  { rewrite Hc. split; lra. }
  pose proof (binary64_nonneg _ Hslo) as Hnonneg.
  pose proof (binary64_near_2 _ Hslo Hshi) as Hnear.
  split; [exact Hnonneg|].
  set (sum := binary64 (f + binary64 (2 # 10))) in *. clearbody sum.
  rewrite Hc in Hnear.
  apply Qabs_Qle_condition in Hnear, Hfx. apply Qabs_Qle_condition. lra.
Qed.

(** [max_similarity * 0.8] for a float [b] of [[0,1]] near [x]. *)
Lemma float_product_near (b x δ : Q) :
  0 <= b → b <= 1 → 0 <= x → x <= 1 → Qabs (b - x) <= δ →
  0 <= binary64 (b * binary64 (8 # 10))
  ∧ binary64 (b * binary64 (8 # 10)) <= 1
  ∧ Qabs (binary64 (b * binary64 (8 # 10)) - x * (8 # 10))
    <= δ + (2 # 9007199254740992).
Proof.
  intros Hlo Hhi Hxlo Hxhi Hbx. pose proof float_0_8 as Hc.
  assert (0 <= b * binary64 (8 # 10) ∧ b * binary64 (8 # 10) <= 1) as [Hplo Hphi].
  { rewrite Hc. split; lra. }
  pose proof (binary64_unit _ Hplo Hphi) as [Hrlo Hrhi].
  pose proof (binary64_near_2 _ Hplo) as Hnear.
  split; [exact Hrlo|]. split; [exact Hrhi|].
  set (r := binary64 (b * binary64 (8 # 10))) in *. clearbody r.
  rewrite Hc in Hnear.
  assert (Qabs (b - x) <= δ) as Hbx' by exact Hbx.
  apply Qabs_Qle_condition in Hbx.
  assert (b * (3602879701896397 # 4503599627370496) < 2) as Hlt by lra.
  apply Hnear in Hlt. apply Qabs_Qle_condition in Hlt.
  apply Qabs_Qle_condition. lra.
Qed.

(** Rounding to three decimals adds half a thousandth to the distance. *)
Lemma py_round_3_near (x exact δ : Q) :
  Qabs (x - exact) <= δ → Qabs (py_round x 3 - exact) <= (1 # 2000) + δ.
Proof.
  intros Hx. pose proof (py_round_near x 3) as Hr.
  assert ((1 # 2) / inject_Z (10 ^ Z.of_nat 3) == 1 # 2000) as Heq by reflexivity.
  rewrite Heq in Hr.
  apply Qabs_Qle_condition in Hx, Hr. apply Qabs_Qle_condition. lra.
Qed.

Lemma py_round_2_near (x exact δ : Q) :
  Qabs (x - exact) <= δ → Qabs (py_round x 2 - exact) <= (1 # 200) + δ.
Proof.
  intros Hx. pose proof (py_round_near x 2) as Hr.
  assert ((1 # 2) / inject_Z (10 ^ Z.of_nat 2) == 1 # 200) as Heq by reflexivity.
  rewrite Heq in Hr.
  apply Qabs_Qle_condition in Hx, Hr. apply Qabs_Qle_condition. lra.
Qed.

End FloatErrors.

(* ================================================================== *)
(** * Stable sorting                                                   *)
(* ================================================================== *)

Section Sorting.

Context {A : Type}.
Implicit Types (skip : A → A → bool) (l : list A).

Lemma insert_by_perm skip x l : insert_by skip x l ≡ₚ x :: l.
Proof.
  induction l as [|y l IH]; simpl; [done|].
  destruct (skip y x); [|done].
  rewrite IH. apply Permutation_swap.
Qed.

Lemma sort_by_perm skip l : sort_by skip l ≡ₚ l.
Proof.
  induction l as [|x l IH]; simpl; [done|].
  rewrite insert_by_perm. by constructor.
Qed.

Lemma sort_by_length skip l : length (sort_by skip l) = length l.
Proof. apply Permutation_length, sort_by_perm. Qed.

Lemma sort_by_Forall (P : A → Prop) skip l : Forall P l → Forall P (sort_by skip l).
Proof. intros H. by rewrite sort_by_perm. Qed.

Lemma sort_by_elem_of skip x l : x ∈ sort_by skip l ↔ x ∈ l.
Proof. by rewrite sort_by_perm. Qed.

Section Descending.

Variable key : A → Q.
(** The order of the input. *)
Variable earlier : A → A → Prop.

Lemma Qltb_lt (x y : Q) : Qltb x y = true ↔ (x < y)%Q.
Proof.
  unfold Qltb. rewrite negb_true_iff. split.
  - intros H. apply Qnot_le_lt. intros Hle. apply Qle_bool_iff in Hle. congruence.
  - intros H. destruct (Qle_bool y x) eqn:Hb; [|done].
    apply Qle_bool_iff in Hb. lra.
Qed.

Lemma Qltb_ge (x y : Q) : Qltb x y = false ↔ (y <= x)%Q.
Proof.
  unfold Qltb. rewrite negb_false_iff. apply Qle_bool_iff.
Qed.

Lemma insert_desc_sorted x l :
  StronglySorted (ranked_before key earlier) l →
  Forall (earlier x) l →
  StronglySorted (ranked_before key earlier) (insert_by (λ y x, Qltb (key x) (key y)) x l).
Proof.
  induction l as [|y l IH]; intros Hsorted Hearlier; simpl.
  - repeat constructor.
  - apply StronglySorted_inv in Hsorted as [Hl Hy].
    apply Forall_cons in Hearlier as [Hxy Hxl].
    destruct (Qltb (key x) (key y)) eqn:Hcmp.
    + apply Qltb_lt in Hcmp. constructor; [by apply IH|].
      rewrite insert_by_perm. constructor; [by left | done].
    + apply Qltb_ge in Hcmp. constructor; [by constructor|].
      assert ((ranked_before key earlier) x y) as Hrxy.
      { destruct (Qlt_le_dec (key y) (key x)); [by left | right].
        split; [lra | done]. }
      constructor; [done|].
      rewrite Forall_forall in Hy, Hxl |- *. intros z Hz.
      specialize (Hy z Hz). specialize (Hxl z Hz).
      destruct (Qlt_le_dec (key z) (key x)); [by left | right].
      split; [|done]. destruct Hy as [?|[? _]]; lra.
Qed.

(** Sorting a list whose order is [earlier] ranks it by key, ties by
    place in the input: the sort is stable. *)
Lemma sort_desc_sorted l :
  StronglySorted earlier l → StronglySorted (ranked_before key earlier) (sort_desc key l).
Proof.
  induction l as [|x l IH]; intros Hl; simpl; [constructor|].
  apply StronglySorted_inv in Hl as [Hl Hx].
  apply insert_desc_sorted; [by apply IH|].
  unfold sort_desc in *. by rewrite sort_by_perm.
Qed.

(** A list already in non-increasing key order is left as it is. *)
Lemma sort_desc_id l :
  StronglySorted (λ a b, key b <= key a)%Q l → sort_desc key l = l.
Proof.
  induction l as [|x l IH]; intros Hl; [done|].
  apply StronglySorted_inv in Hl as [Hl Hx].
  unfold sort_desc in *. simpl. rewrite IH by done.
  destruct l as [|y l]; [done|]. simpl.
  apply Forall_cons in Hx as [Hxy _].
  apply Qltb_ge in Hxy. by rewrite Hxy.
Qed.

End Descending.

End Sorting.

(* ================================================================== *)
(** * Confidence and match bounds                                      *)
(* ================================================================== *)

Section Confidence.

Open Scope Q_scope.

Lemma get_similarity_scores_in_unit chunks query k :
  Forall (λ s, in_unit (sc_similarity s)) (get_similarity_scores chunks query k).
Proof.
  unfold get_similarity_scores. destruct chunks as [|c chunks]; [constructor|].
  apply Forall_take, sort_by_Forall, Forall_map, Forall_forall.
  intros [i ch] _. simpl. apply jaccard_range.
Qed.

Lemma retrieval_matching_in_unit chunks text reqs threshold :
  Forall score_in_unit (retrieval_matching chunks text reqs threshold).
Proof.
  unfold retrieval_matching. apply Forall_concat, Forall_map.
  eapply Forall_impl; [apply get_similarity_scores_in_unit|].
  intros s Hs. simpl. destruct (Qltb threshold (sc_similarity s)); [|constructor].
  destruct (first_related (sc_chunk s) reqs); [|constructor].
  apply Forall_cons. split; [exact Hs | constructor].
Qed.

Lemma keyword_based_matching_in_unit tc reqs threshold ms :
  _keyword_based_matching tc reqs threshold = Ok ms → Forall score_in_unit ms.
Proof.
  unfold _keyword_based_matching.
  destruct (joined_fields_lower tc) as [text|]; simpl; [|done].
  intros [= <-]. apply Forall_concat, Forall_map, Forall_forall.
  intros req _. simpl. case_bool_decide; [|constructor].
  destruct (Qltb _ _); [|constructor].
  apply Forall_cons. split; [|constructor].
  apply ratio_range, subseteq_size. set_solver.
Qed.

Lemma upsert_Forall (P : Match → Prop) mt unique :
  P mt → Forall (λ kv, P kv.2) unique → Forall (λ kv, P kv.2) (upsert mt unique).
Proof.
  intros Hmt. induction unique as [|[k old] unique IH]; intros Hall; simpl.
  - by repeat constructor.
  - apply Forall_cons in Hall as [Hold Hrest].
    case_bool_decide.
    + destruct (Qltb _ _); by constructor.
    + constructor; [done | by apply IH].
Qed.

Lemma top_matches_Forall (P : Match → Prop) ms : Forall P ms → Forall P (top_matches ms).
Proof.
  intros Hms. unfold top_matches.
  apply Forall_take, sort_by_Forall, Forall_map.
  assert (∀ acc, Forall (λ kv : str * Match, P kv.2) acc →
            Forall (λ kv : str * Match, P kv.2) (fold_left (λ u mt, upsert mt u) ms acc)) as H.
  { induction Hms as [|mt ms Hmt Hms IH]; intros acc Hacc; simpl; [done|].
    apply IH. by apply upsert_Forall. }
  apply H. constructor.
Qed.

Lemma top_matches_length ms : (length (top_matches ms) ≤ 3)%nat.
Proof. unfold top_matches. rewrite length_take. lia. Qed.

Lemma find_matching_in_unit chunks tc reqs threshold ms :
  _find_matching_requirements chunks tc reqs threshold = Ok ms →
  (length ms ≤ 3)%nat ∧ Forall score_in_unit ms.
Proof.
  unfold _find_matching_requirements.
  destruct reqs as [|r reqs]; [intros [= <-]; simpl; split; [lia|constructor]|].
  destruct (composite_text tc) as [|c text]; [intros [= <-]; simpl; split; [lia|constructor]|].
  simpl. intros [= <-]. split; [apply top_matches_length|].
  apply top_matches_Forall, retrieval_matching_in_unit.
Qed.

Lemma largest_score_nonneg ms : 0 <= largest_score ms.
Proof.
  induction ms as [|mt ms IH]; simpl; [apply Qle_refl|].
  eapply Qle_trans; [exact IH | apply Q.le_max_r].
Qed.

Lemma largest_score_in_unit ms : Forall score_in_unit ms → in_unit (largest_score ms).
Proof.
  intros Hms. split; [apply largest_score_nonneg|].
  induction Hms as [|mt ms [_ Hmt] _ IH]; simpl; [discriminate|].
  by apply Q.max_lub.
Qed.

(** The running maximum of the code is the largest score. *)
Lemma max_score_largest first rest :
  Forall score_in_unit (first :: rest) →
  max_score first rest == largest_score (first :: rest).
Proof.
  intros Hall. apply Forall_cons in Hall as [[Hfirst _] Hrest].
  unfold max_score. simpl.
  generalize dependent (similarity_score first). clear first.
  induction Hrest as [|mt rest [Hmt _] _ IH]; intros start Hstart; simpl.
  - symmetry. by apply Q.max_l.
  - destruct (Qltb start (similarity_score mt)) eqn:Hc.
    + apply Qltb_lt in Hc. rewrite IH by done.
      rewrite (Q.max_r start)
        by (eapply Qle_trans; [apply Qlt_le_weak, Hc | apply Q.le_max_l]).
      done.
    + apply Qltb_ge in Hc. rewrite IH by done.
      rewrite Q.max_assoc. by rewrite (Q.max_l start (similarity_score mt)).
Qed.

End Confidence.

Section ConfidenceFormula.

Open Scope Q_scope.

Lemma existsb_requirement_id (id : str) (ms : list Match) :
  existsb (λ req, bool_decide (requirement_id req = id)) ms
  = bool_decide (id ∈ map requirement_id ms).
Proof.
  induction ms as [|mt ms IH]; [reflexivity|].
  cbn [existsb map]. rewrite IH.
  destruct (decide (requirement_id mt = id)) as [Heq|Hne].
  - rewrite (bool_decide_eq_true_2 _ Heq). cbn [orb]. symmetry.
    apply bool_decide_eq_true. rewrite Heq. by left.
  - rewrite (bool_decide_eq_false_2 _ Hne). cbn [orb].
    apply bool_decide_ext. rewrite elem_of_cons. naive_solver.
Qed.

(** The float of the largest score, the boosted and the reduced value stay
    in [[0,1]], each within a few rounding errors of the exact value of
    the specification's formula. *)
Lemma confidence_steps tc first rest reqs :
  Forall score_in_unit (first :: rest) →
  tc_requirement_id tc ≠ Some [] →
  ∃ reduced,
    _calculate_mapping_confidence tc (first :: rest) reqs = py_round reduced 3
    ∧ 0 <= reduced ∧ reduced <= 1
    ∧ Qabs (reduced - spec_confidence (tc_requirement_id tc) (first :: rest))
      <= 5 # 9007199254740992.
Proof.
  intros Hms Hwf. unfold _calculate_mapping_confidence, spec_confidence. cbv zeta.
  pose proof (max_score_largest first rest Hms) as Hmax.
  pose proof (largest_score_in_unit _ Hms) as [Hlo Hhi].
  set (lg := largest_score (first :: rest)) in *.
  assert (0 <= max_score first rest ∧ max_score first rest <= 1) as [Hmlo Hmhi]
    by (rewrite Hmax; done).
  pose proof (binary64_unit _ Hmlo Hmhi) as [Hflo Hfhi].
  assert (Qabs (binary64 (max_score first rest) - lg) <= 1 # 9007199254740992) as Hferr.
  { rewrite <- Hmax. apply binary64_near_2; lra. }
  set (f := binary64 (max_score first rest)) in *. clearbody f.
  destruct (float_sum_near f lg _ Hflo Hfhi Hferr) as [Hslo Hserr].
  set (sum := binary64 (f + binary64 (2 # 10))) in *. clearbody sum.
  (* the boosted value and its exact counterpart *)
  assert (∀ linked : bool,
            let b := if linked then (if Qltb sum 1 then sum else 1) else f in
            let x := if linked then Qmin 1 (lg + (2 # 10)) else lg in
            0 <= b ∧ b <= 1 ∧ 0 <= x ∧ x <= 1
            ∧ Qabs (b - x) <= 3 # 9007199254740992) as Hboost.
  { intros [|]; cbv zeta.
    - destruct (Q.min_spec 1 (lg + (2 # 10))) as [[Hc Hmin]|[Hc Hmin]]; rewrite Hmin;
        apply Qabs_Qle_condition in Hserr;
        (destruct (Qltb sum 1) eqn:Hs; [apply Qltb_lt in Hs | apply Qltb_ge in Hs]);
        (split; [lra|]); (split; [lra|]); (split; [lra|]); (split; [lra|]);
        apply Qabs_Qle_condition; lra.
    - apply Qabs_Qle_condition in Hferr.
      split; [lra|]. split; [lra|]. split; [lra|]. split; [lra|].
      apply Qabs_Qle_condition; lra. }
  assert ((2 <? length (first :: rest))%nat = bool_decide (2 < length (first :: rest))%nat)
    as ->.
  { destruct (2 <? _)%nat eqn:Hlt; symmetry.
    - apply bool_decide_eq_true. by apply Nat.ltb_lt.
    - apply bool_decide_eq_false. by apply Nat.ltb_ge, Nat.le_ngt in Hlt. }
  assert (∀ (linked many : bool),
            let b := if linked then (if Qltb sum 1 then sum else 1) else f in
            let x := if linked then Qmin 1 (lg + (2 # 10)) else lg in
            let r := if many then binary64 (b * binary64 (8 # 10)) else b in
            let y := if many then x * (8 # 10) else x in
            0 <= r ∧ r <= 1 ∧ Qabs (r - y) <= 5 # 9007199254740992) as Hreduce.
  { intros linked many. destruct (Hboost linked) as (Hblo & Hbhi & Hxlo & Hxhi & Hbx).
    cbv zeta in *. destruct many.
    - destruct (float_product_near _ _ _ Hblo Hbhi Hxlo Hxhi Hbx) as (Hrlo & Hrhi & Hr).
      split; [done|]. split; [done|].
      eapply Qle_trans; [exact Hr|]. discriminate.
    - split; [done|]. split; [done|].
      eapply Qle_trans; [exact Hbx|]. discriminate. }
  destruct (tc_requirement_id tc) as [[|c e]|]; [done| |].
  - rewrite existsb_requirement_id.
    eexists. split; [reflexivity|].
    apply (Hreduce (bool_decide (c :: e ∈ map requirement_id (first :: rest)))
                   (bool_decide (2 < length (first :: rest))%nat)).
  - eexists. split; [reflexivity|].
    apply (Hreduce false (bool_decide (2 < length (first :: rest))%nat)).
Qed.

Lemma confidence_in_unit tc ms reqs :
  Forall score_in_unit ms → in_unit (_calculate_mapping_confidence tc ms reqs).
Proof.
  intros Hms.
  destruct ms as [|first rest]; [split; [apply Qle_refl | discriminate]|].
  set (tc' := {| tc_id := tc_id tc; tc_title := tc_title tc;
                 tc_description := tc_description tc; tc_steps := tc_steps tc;
                 tc_query := tc_query tc;
                 tc_requirement_id := match tc_requirement_id tc with
                                      | Some [] => None | other => other end;
                 tc_type := tc_type tc; tc_priority := tc_priority tc;
                 tc_status := tc_status tc |}).
  assert (_calculate_mapping_confidence tc (first :: rest) reqs
          = _calculate_mapping_confidence tc' (first :: rest) reqs) as ->.
  { unfold _calculate_mapping_confidence. simpl.
    by destruct (tc_requirement_id tc) as [[|c e]|]. }
  destruct (confidence_steps tc' first rest reqs Hms) as (reduced & -> & Hlo & Hhi & _).
  { simpl. by destruct (tc_requirement_id tc) as [[|c e]|]. }
  by apply (py_round_between 0 1).
Qed.

Lemma confidence_decimal tc ms reqs :
  ∃ k : Z, _calculate_mapping_confidence tc ms reqs == inject_Z k / 1000.
Proof.
  unfold _calculate_mapping_confidence.
  destruct ms as [|first rest]; [by exists 0%Z|].
  cbv zeta. apply (py_round_decimal _ 3).
Qed.

(** The confidence is the specification's number rounded to three
    decimals. *)
Lemma confidence_specified tc ms reqs :
  Forall score_in_unit ms →
  confidence_as_specified (tc_requirement_id tc) ms (_calculate_mapping_confidence tc ms reqs).
Proof.
  intros Hms. split; [by apply confidence_in_unit|]. split.
  { by intros ->. }
  intros Hwf. split; [apply confidence_decimal|].
  destruct ms as [|first rest].
  { unfold _calculate_mapping_confidence, spec_confidence, largest_score.
    cbn [foldr map length].
    rewrite (bool_decide_eq_false_2 (2 < 0)%nat) by lia.
    destruct (tc_requirement_id tc) as [id|];
      [rewrite bool_decide_eq_false_2 by (by intros ?%elem_of_nil)|]; discriminate. }
  destruct (confidence_steps tc first rest reqs Hms Hwf) as (reduced & -> & _ & _ & Hnear).
  eapply Qle_trans; [apply (py_round_3_near _ _ _ Hnear)|]. discriminate.
Qed.

End ConfidenceFormula.

Section MapperPairs.

Variable now : nat → str.

(** What holds of every mapping the mapper can produce for a test case
    holds of each result and the test case it was computed for. *)
Lemma map_results_pairwise (P : TestCase → MappingResult → Prop) chunks tcs reqs results :
  (∀ n tc ms,
      _find_matching_requirements chunks tc reqs default_threshold = Ok ms →
      P tc {| test_case_id := tc_id tc;
              test_case_title := tc_title tc;
              mapped_requirements := ms;
              mapping_confidence := _calculate_mapping_confidence tc ms reqs;
              mapping_method := txt "semantic_similarity";
              mapping_date := now n |}) →
  map_test_cases_to_requirements now chunks tcs reqs = Ok results →
  Forall2 P (valid_test_cases tcs) results.
Proof.
  intros HP. unfold map_test_cases_to_requirements, enumerate.
  generalize (valid_test_cases tcs) as valid. intros valid.
  assert (∀ n acc res,
            for_each (map_one now chunks reqs) (enumerate_from n valid) acc = Ok res →
            ∃ new, res = acc ++ new ∧ Forall2 P valid new) as Hgen.
  { induction valid as [|tc valid IH]; intros n acc res Hrun.
    - cbn [enumerate_from for_each] in Hrun. injection Hrun as <-.
      exists []. by rewrite app_nil_r.
    - cbn [enumerate_from for_each] in Hrun.
      destruct (map_one now chunks reqs acc (n, tc)) as [acc'|] eqn:Hone;
        simpl in Hrun; [|done].
      apply map_one_inv in Hone as (ms & Hms & ->).
      destruct (IH _ _ _ Hrun) as (new & -> & Hnew).
      eexists (_ :: new). rewrite <- app_assoc. split; [reflexivity|].
      constructor; [|done]. by apply HP. }
  intros Hrun. by destruct (Hgen _ _ _ Hrun) as (new & -> & Hnew).
Qed.

End MapperPairs.

(** C5. The mapper returns a result for every list of test cases, one
    per record in the order of the list.  The matches of a result are
    those found for its test case, at most three, with similarities in
    [0,1]; its confidence is the one computed from them, lies in [0,1], is
    0 without matches, and is the number of the specification rounded to
    three decimals: the largest surviving similarity, plus 0.2 capped at 1
    when the explicit requirement id is among the surviving ids, times 0.8
    when more than two candidates survive.  The rounding is that of the
    float arithmetic: a number of three decimals within half a thousandth
    and [10^-15] of the exact value. *)
Theorem C5_matches_and_confidence_bounded :
  (∀ (chunks : index) (tc : TestCase) (reqs : list Requirement),
     ∃ ms, _find_matching_requirements chunks tc reqs default_threshold = Ok ms
           ∧ (length ms ≤ 3)%nat
           ∧ Forall score_in_unit ms
           ∧ confidence_as_specified (tc_requirement_id tc) ms
                                     (_calculate_mapping_confidence tc ms reqs))
  ∧ (∀ (now : nat → str) (chunks : index) (tcs : list entry) (reqs : list Requirement),
       ∃ results, map_test_cases_to_requirements now chunks tcs reqs = Ok results
                  ∧ Forall2 (mapping_as_specified chunks reqs)
                            (valid_test_cases tcs) results).
Proof.
  split.
  - intros chunks tc reqs.
    destruct (find_matching_total chunks tc reqs default_threshold) as [ms Hms].
    exists ms. split; [done|].
    apply find_matching_in_unit in Hms as [Hlen Hunit].
    split; [done|]. split; [done|]. by apply confidence_specified.
  - intros now chunks tcs reqs.
    destruct (map_total now chunks tcs reqs) as [results Hrun].
    exists results. split; [done|].
    eapply map_results_pairwise; [|exact Hrun].
    intros n tc ms Hms. unfold mapping_as_specified. simpl.
    split; [done|].
    apply find_matching_in_unit in Hms as [Hlen Hunit].
    split; [done|]. split; [done|]. split; [done|]. by apply confidence_specified.
Qed.

Lemma C5_witness :
  tc_requirement_id login_test_case ≠ Some []
  ∧ ∃ ms, _find_matching_requirements scenario_chunks login_test_case
                                      scenario_requirements default_threshold = Ok ms
          ∧ rounded_to_3_decimals
              (spec_confidence (tc_requirement_id login_test_case) ms)
              (_calculate_mapping_confidence login_test_case ms scenario_requirements).
Proof.
  assert (tc_requirement_id login_test_case ≠ Some []) as Hwf by discriminate.
  split; [exact Hwf|].
  destruct (proj1 C5_matches_and_confidence_bounded scenario_chunks login_test_case
                  scenario_requirements) as (ms & Hms & _ & _ & _ & _ & Hspec).
  exists ms. split; [exact Hms | exact (Hspec Hwf)].
Defined.

(** Halfway cases follow the floats.  With the explicit id among the
    matches, [7/16 + 0.2] is the float below 0.6375, and the confidence is
    0.637; with three matches, [21/64 * 0.8] is the float above 0.2625,
    and the confidence is 0.263. *)
Lemma confidence_of_linked_match :
  (_calculate_mapping_confidence login_test_case [scored_match "FR-1" (7 # 16)] [] == 637 # 1000)%Q.
Proof. vm_compute. reflexivity. Qed.

Lemma confidence_of_three_matches :
  (_calculate_mapping_confidence login_test_case
     [scored_match "A" (21 # 64); scored_match "B" (1 # 4); scored_match "C" (1 # 8)] []
   == 263 # 1000)%Q.
Proof. vm_compute. reflexivity. Qed.

(* ================================================================== *)
(** * The traceability matrix                                          *)
(* ================================================================== *)

Section MatrixInvariants.

Implicit Types (maps : gmap str (list (option str))) (entries : list ReqEntry).

(** An invariant kept by every step of a [fold_left] holds at the end. *)
Lemma fold_left_invariant {S A : Type} (P : S → Prop) (f : S → A → S) (xs : list A) (st : S) :
  (∀ s x, x ∈ xs → P s → P (f s x)) → P st → P (fold_left f xs st).
Proof.
  revert st. induction xs as [|x xs IH]; intros st Hstep HP; simpl; [done|].
  apply IH.
  - intros s y Hy. apply Hstep. by right.
  - apply Hstep; [by left | done].
Qed.

(** The ids collected for a test case are its explicit id and ids of
    requirements. *)
Lemma find_mapped_requirements_ids tc srs ids :
  _find_mapped_requirements tc srs = Ok ids →
  ∀ id, id ∈ ids → tc_requirement_id tc = Some id ∨ id ∈ map r_id srs.
Proof.
  unfold _find_mapped_requirements.
  destruct (joined_fields_lower tc) as [text|]; simpl; [|done].
  intros [= <-].
  apply (fold_left_invariant
           (λ acc, ∀ id, id ∈ acc → tc_requirement_id tc = Some id ∨ id ∈ map r_id srs)).
  - intros acc req Hreq Hacc id. cbv beta zeta.
    match goal with |- context [if ?b then _ else acc] => destruct b end;
      [|by apply Hacc].
    case_bool_decide; [by apply Hacc|].
    rewrite elem_of_app, list_elem_of_singleton. intros [Hid | ->]; [by apply Hacc|].
    right. by apply list_elem_of_fmap_2.
  - intros id. destruct (tc_requirement_id tc) as [[|c e]|].
    + by intros ?%elem_of_nil.
    + rewrite list_elem_of_singleton. intros ->. by left.
    + by intros ?%elem_of_nil.
Qed.

Lemma mark_covered_ids req_id entries :
  map e_id (mark_covered req_id entries) = map e_id entries.
Proof.
  induction entries as [|e entries IH]; simpl; [done|].
  case_bool_decide; simpl; [done | by rewrite IH].
Qed.

Lemma mark_covered_counted req_id tc maps entries :
  NoDup (map e_id entries) →
  Forall (entry_counted maps) entries →
  Forall (entry_counted (add_mapping req_id tc maps)) (mark_covered req_id entries).
Proof.
  unfold add_mapping.
  induction entries as [|e entries IH]; intros Hnd Hall; simpl; [constructor|].
  apply NoDup_cons in Hnd as [Hfresh Hnd].
  apply Forall_cons in Hall as [[Hcount Hcov] Hall].
  case_bool_decide as Hid.
  - constructor.
    + split; simpl.
      * rewrite Hid, lookup_insert_eq. simpl. rewrite length_app, Hcount, Hid. simpl. lia.
      * rewrite Hid, lookup_insert_eq. split; [by eexists | done].
    + rewrite Forall_forall in Hall |- *. intros e' He'.
      assert (e_id e' ≠ req_id) as Hne.
      { intros Heq. apply Hfresh. rewrite Hid, <- Heq. by apply list_elem_of_fmap_2. }
      destruct (Hall e' He') as [Hc Hv].
      split; by rewrite lookup_insert_ne.
  - constructor; [|by apply IH].
    split; by rewrite lookup_insert_ne.
Qed.

(** Without distinct ids one direction remains: a covered entry has a
    mapping. *)
Lemma mark_covered_mapped req_id tc maps entries :
  Forall (λ e, covered e = true → is_Some (maps !! e_id e)) entries →
  Forall (λ e, covered e = true → is_Some (add_mapping req_id tc maps !! e_id e))
         (mark_covered req_id entries).
Proof.
  unfold add_mapping.
  assert (∀ e, (covered e = true → is_Some (maps !! e_id e)) →
               covered e = true →
               is_Some (<[req_id:=default [] (maps !! req_id) ++ [tc]]> maps !! e_id e)) as Hkeep.
  { intros e He Hc. destruct (decide (req_id = e_id e)) as [->|Hne].
    - rewrite lookup_insert_eq. by eexists.
    - rewrite lookup_insert_ne by done. by apply He. }
  induction entries as [|e entries IH]; intros Hall; simpl; [constructor|].
  apply Forall_cons in Hall as [He Hall].
  case_bool_decide as Hid.
  - constructor.
    + simpl. intros _. rewrite Hid, lookup_insert_eq. by eexists.
    + eapply Forall_impl; [exact Hall|]. intros e'. apply Hkeep.
  - constructor; [by apply Hkeep | by apply IH].
Qed.

Lemma matrix_ok_initial srs seen : matrix_ok srs seen (map req_entry srs, [], ∅).
Proof.
  split; simpl.
  - rewrite <- list_fmap_compose. done.
  - intros id [l Hl]. by rewrite lookup_empty in Hl.
  - intros id l Hl. by rewrite lookup_empty in Hl.
  - apply Forall_map, Forall_forall. intros req _. simpl. done.
  - intros _. apply Forall_map, Forall_forall. intros req _.
    split; simpl; rewrite lookup_empty; [done|].
    split; [done | by intros [? ?]].
Qed.

Lemma on_mapped_id_ok srs seen tc st req_id :
  tc ∈ seen →
  (tc_requirement_id tc = Some req_id ∨ req_id ∈ map r_id srs) →
  matrix_ok srs seen st → matrix_ok srs seen (on_mapped_id tc st req_id).
Proof.
  intros Hseen Hid [Hids Hkeys Hne Hmapped Hcounted].
  destruct st as [[reqs tcs] maps]. simpl in *.
  split; simpl.
  - by rewrite mark_covered_ids.
  - intros id. destruct (decide (req_id = id)) as [<-|Hneq].
    + intros _. destruct Hid as [Hid|Hid]; [right; by exists tc | by left].
    + rewrite lookup_insert_ne by done. apply Hkeys.
  - intros id l. destruct (decide (req_id = id)) as [<-|Hneq].
    + rewrite lookup_insert_eq. intros [= <-]. by destruct (default [] (maps !! req_id)).
    + rewrite lookup_insert_ne by done. apply Hne.
  - by apply (mark_covered_mapped req_id (tc_id tc)).
  - intros Hnd. apply (mark_covered_counted req_id (tc_id tc)); [by rewrite Hids | by apply Hcounted].
Qed.

Lemma on_test_case_ok srs seen tc st st' :
  tc ∈ seen →
  matrix_ok srs seen st → on_test_case srs st tc = Ok st' → matrix_ok srs seen st'.
Proof.
  intros Hseen Hok. unfold on_test_case.
  destruct (_find_mapped_requirements tc srs) as [ids|] eqn:Hids; simpl; [|done].
  pose proof (find_mapped_requirements_ids tc srs ids Hids) as Hfrom.
  assert (matrix_ok srs seen (fold_left (on_mapped_id tc) ids st)) as Hfold.
  { apply fold_left_invariant; [|done].
    intros s id Hid Hs. apply on_mapped_id_ok; [done | by apply Hfrom | done]. }
  destruct (fold_left (on_mapped_id tc) ids st) as [[reqs tcs] maps].
  intros [= <-]. destruct Hfold as [H1 H2 H3 H4 H5]. by split.
Qed.

Lemma generate_matrix_ok now srs tcs matrix :
  generate_matrix now srs tcs = Ok matrix →
  matrix_ok srs tcs (requirements matrix, test_cases matrix, mappings matrix).
Proof.
  unfold generate_matrix.
  destruct (for_each (on_test_case srs) tcs (map req_entry srs, [], ∅)) as [st|] eqn:Hrun;
    simpl; [|done].
  intros [= <-]. simpl.
  assert (matrix_ok srs tcs st) as Hok.
  { eapply (for_each_invariant (matrix_ok srs tcs)); [|apply matrix_ok_initial|exact Hrun].
    intros s tc s' Htc Hs Hstep. by eapply on_test_case_ok. }
  by destruct st as [[? ?] ?].
Qed.

End MatrixInvariants.

(* ================================================================== *)
(** * Coverage statistics                                              *)
(* ================================================================== *)

Section Coverage.

Open Scope Q_scope.

Lemma filter_covered_length (reqs : list ReqEntry) :
  (length (filter (λ req, covered req = true) reqs) ≤ length reqs)%nat.
Proof. apply length_filter. Qed.

Lemma percentage_zero_total (covered_n : nat) : percentage covered_n 0 == 0.
Proof. unfold percentage. simpl. apply py_round_zero. Qed.

(** The float [covered / total * 100] lies in [[0,100]], within the
    rounding errors of the division and of the product of the exact
    number. *)
Lemma float_percentage_range (n d : nat) :
  (n ≤ d)%nat →
  0 <= binary64 (binary64 (ratio n d) * 100)
  ∧ binary64 (binary64 (ratio n d) * 100) <= 100
  ∧ Qabs (binary64 (binary64 (ratio n d) * 100) - ratio n d * 100)
    <= 1 # 10000000000000.
Proof.
  intros Hle. destruct (ratio_range n d Hle) as [Hlo Hhi].
  destruct (binary64_unit _ Hlo Hhi) as [Hflo Hfhi].
  assert (Qabs (binary64 (ratio n d) - ratio n d) <= 1 # 9007199254740992) as Hferr
    by (apply binary64_near_2; lra).
  set (f := binary64 (ratio n d)) in *. clearbody f.
  assert (0 <= f * 100) as Hplo by lra.
  assert (f * 100 <= 100) as Hphi by lra.
  pose proof (binary64_nonneg _ Hplo) as Hrlo.
  pose proof (binary64_mono _ _ Hplo Hphi) as Hrhi. rewrite binary64_hundred in Hrhi.
  assert (Qabs (binary64 (f * 100) - f * 100) <= 1 # 140737488355328) as Hperr
    by (apply binary64_near_128; lra).
  set (p := binary64 (f * 100)) in *. clearbody p.
  split; [done|]. split; [done|].
  apply Qabs_Qle_condition in Hferr, Hperr. apply Qabs_Qle_condition. lra.
Qed.

Lemma percentage_range (covered_n total_n : nat) :
  (covered_n ≤ total_n)%nat →
  0 <= percentage covered_n total_n ∧ percentage covered_n total_n <= 100.
Proof.
  intros Hle. unfold percentage.
  destruct (float_percentage_range _ _ Hle) as (Hlo & Hhi & _).
  apply (py_round_between 0 100).
  - change (inject_Z 0) with 0. destruct (0 <? total_n)%nat; [done | apply Qle_refl].
  - change (inject_Z 100) with 100. destruct (0 <? total_n)%nat; [done | discriminate].
Qed.

Lemma ratio_quotient (n d : nat) :
  (0 < d)%nat → ratio n d == inject_Z (Z.of_nat n) / inject_Z (Z.of_nat d).
Proof.
  intros Hpos. unfold ratio. rewrite Qmake_Qdiv.
  assert (Z.pos (Pos.of_nat d) = Z.of_nat d) as ->; [|reflexivity].
  destruct d; [lia|]. rewrite <- Pos.of_nat_succ. lia.
Qed.

(** For a positive total the percentage is [round] of the float
    [covered / total * 100], a number of two decimals, and it is
    [covered / total * 100] rounded to two decimals. *)
Lemma percentage_rounds (covered_n total_n : nat) :
  (0 < total_n)%nat → (covered_n ≤ total_n)%nat →
  percentage covered_n total_n
    = py_round (binary64 (binary64 (inject_Z (Z.of_nat covered_n)
                                    / inject_Z (Z.of_nat total_n)) * 100)) 2
  ∧ rounded_to_2_decimals
      (inject_Z (Z.of_nat covered_n) / inject_Z (Z.of_nat total_n) * 100)
      (percentage covered_n total_n).
Proof.
  intros Hpos Hle. unfold percentage.
  assert ((0 <? total_n)%nat = true) as -> by (by apply Nat.ltb_lt).
  pose proof (ratio_quotient covered_n total_n Hpos) as Hq.
  split; [|split].
  - apply py_round_compat, binary64_compat.
    apply Qmult_comp; [by apply binary64_compat | reflexivity].
  - apply (py_round_decimal _ 2).
  - destruct (float_percentage_range _ _ Hle) as (_ & _ & Hnear).
    apply py_round_2_near. rewrite <- Hq. exact Hnear.
Qed.

(** A halfway case follows the floats: 23 of 160 is 14.375 per cent, the
    float [23 / 160 * 100] lies below it, and the percentage is 14.37. *)
Lemma percentage_of_23_in_160 : percentage 23 160 == 1437 # 100.
Proof. vm_compute. reflexivity. Qed.

End Coverage.

(** C4. The statistics call returns a result for every matrix; its overall
    percentage lies between 0 and 100 and is [covered / total * 100]
    rounded to two decimals: [round] of the float that the division and
    the product give, a number of two decimals within half a hundredth and
    [10^-13] of the exact quotient.  For a matrix without requirements it
    is 0 and the list of uncovered requirements is empty, which is the
    case of a matrix generated from an empty requirement list. *)
Theorem C4_coverage_percentage :
  (∀ matrix : Matrix,
     ∃ stats, calculate_coverage_stats (Some matrix) = Some stats
       ∧ let total := length (requirements matrix) in
         let covered_n := length (filter (λ req, covered req = true) (requirements matrix)) in
         o_total_requirements (overall_coverage stats) = total
         ∧ o_covered_requirements (overall_coverage stats) = covered_n
         ∧ (0 <= coverage_percentage (overall_coverage stats))%Q
         ∧ (coverage_percentage (overall_coverage stats) <= 100)%Q
         ∧ (total = 0%nat →
            (coverage_percentage (overall_coverage stats) == 0)%Q
            ∧ uncovered_requirements stats = [])
         ∧ ((0 < total)%nat →
            coverage_percentage (overall_coverage stats)
              = py_round (binary64 (binary64 (inject_Z (Z.of_nat covered_n)
                                              / inject_Z (Z.of_nat total)) * 100))%Q 2
            ∧ rounded_to_2_decimals
                (inject_Z (Z.of_nat covered_n) / inject_Z (Z.of_nat total) * 100)%Q
                (coverage_percentage (overall_coverage stats))))
  ∧ (∀ (now : str) (tcs : list TestCase) (matrix : Matrix),
       generate_matrix now [] tcs = Ok matrix →
       ∃ stats, calculate_coverage_stats (Some matrix) = Some stats
                ∧ (coverage_percentage (overall_coverage stats) == 0)%Q
                ∧ uncovered_requirements stats = []).
Proof.
  assert (∀ matrix stats, calculate_coverage_stats (Some matrix) = Some stats →
            requirements matrix = [] →
            (coverage_percentage (overall_coverage stats) == 0)%Q
            ∧ uncovered_requirements stats = []) as Hempty.
  { intros matrix stats [= <-] Hreqs. simpl. rewrite Hreqs. simpl.
    split; [apply percentage_zero_total | done]. }
  split.
  - intros matrix. eexists. split; [reflexivity|]. cbn zeta.
    split; [reflexivity|]. split; [reflexivity|].
    pose proof (filter_covered_length (requirements matrix)) as Hle.
    destruct (percentage_range _ _ Hle) as [Hlo Hhi].
    split; [exact Hlo|]. split; [exact Hhi|]. split.
    + intros Htotal. apply (Hempty matrix); [reflexivity|].
      by apply nil_length_inv.
    + intros Hpos. by apply percentage_rounds.
  - intros now tcs matrix Hgen. eexists. split; [reflexivity|].
    apply (Hempty matrix); [reflexivity|].
    apply generate_matrix_ok in Hgen as [Hids _ _ _ _]. simpl in Hids.
    by apply fmap_nil_inv in Hids.
Qed.

(** C3 (as amended). In a generated matrix every key of [mappings] is the
    id of an input requirement or the explicit requirement id of one of the
    test cases; every recorded list is non-empty; a covered entry always
    has a mapping; and when the requirement ids are pairwise distinct an
    entry is covered exactly when [mappings] holds a non-empty list for its
    id, whose length is the entry's test-case count. *)
Theorem C3_matrix_mappings (now : str) (srs : list Requirement) (tcs : list TestCase)
        (matrix : Matrix) :
  generate_matrix now srs tcs = Ok matrix →
  map e_id (requirements matrix) = map r_id srs
  ∧ (∀ id, id ∈ dom (mappings matrix) →
           id ∈ map r_id srs ∨ ∃ tc, tc ∈ tcs ∧ tc_requirement_id tc = Some id)
  ∧ (∀ id l, mappings matrix !! id = Some l → l ≠ [])
  ∧ (∀ e, e ∈ requirements matrix → covered e = true →
          ∃ l, mappings matrix !! e_id e = Some l ∧ l ≠ [])
  ∧ (NoDup (map r_id srs) →
     ∀ e, e ∈ requirements matrix →
          (covered e = true ↔ ∃ l, mappings matrix !! e_id e = Some l ∧ l ≠ [])
          ∧ test_case_count e = length (default [] (mappings matrix !! e_id e))).
Proof.
  intros Hgen. apply generate_matrix_ok in Hgen as [Hids Hkeys Hne Hmapped Hcounted].
  simpl in *.
  split; [done|]. split; [|split; [done|split]].
  - intros id Hid. apply Hkeys. by apply elem_of_dom.
  - intros e He Hcov. rewrite Forall_forall in Hmapped.
    destruct (Hmapped e He Hcov) as [l Hl]. exists l. split; [done | by eapply Hne].
  - intros Hnd e He. specialize (Hcounted Hnd). rewrite Forall_forall in Hcounted.
    destruct (Hcounted e He) as [Hcount Hcov]. split; [|done].
    rewrite Hcov. split.
    + intros [l Hl]. exists l. split; [done | by eapply Hne].
    + intros (l & Hl & _). by exists l.
Qed.

Lemma login_matrix_run :
  (matrix ← generate_matrix clock0 scenario_requirements [login_test_case];
   Ok (requirements matrix, map_to_list (mappings matrix)))
  = Ok (login_matrix_requirements,
        [ (txt "FR-1", [Some (txt "TC_1")]);
          (txt "FUNCTIONAL_1_0", [Some (txt "TC_1")]);
          (txt "FUNCTIONAL_0_0", [Some (txt "TC_1")]) ]).
Proof. vm_compute. reflexivity. Qed.

Lemma login_matrix_generated :
  ∃ matrix, generate_matrix clock0 scenario_requirements [login_test_case] = Ok matrix
            ∧ requirements matrix = login_matrix_requirements
            ∧ mappings matrix !! txt "FR-1" = Some [Some (txt "TC_1")].
Proof.
  pose proof login_matrix_run as Hrun.
  destruct (generate_matrix clock0 scenario_requirements [login_test_case]) as [matrix|];
    [|discriminate Hrun].
  exists matrix. split; [reflexivity|].
  cbn [mbind result_bind] in Hrun. injection Hrun as Hreqs Hmaps.
  split; [exact Hreqs|].
  apply elem_of_map_to_list. rewrite Hmaps. apply list_elem_of_here.
Qed.

Lemma C3_witness :
  ∃ matrix, generate_matrix clock0 scenario_requirements [login_test_case] = Ok matrix
            ∧ map e_id (requirements matrix) = map r_id scenario_requirements.
Proof.
  destruct login_matrix_generated as (matrix & Hgen & _).
  exists matrix. split; [exact Hgen|].
  exact (proj1 (C3_matrix_mappings clock0 scenario_requirements [login_test_case] matrix Hgen)).
Defined.

Lemma fr1_matrix_run :
  (matrix ← generate_matrix clock0 fr1_requirements [login_test_case];
   Ok (map (λ e, (e_id e, covered e)) (requirements matrix), map_to_list (mappings matrix)))
  = Ok ([ (txt "FUNCTIONAL_1", true); (txt "FUNCTIONAL_1", false) ],
        [ (txt "FUNCTIONAL_1", [Some (txt "TC_1")]);
          (txt "FR-1", [Some (txt "TC_1")]) ]).
Proof. vm_compute. reflexivity. Qed.

(** C3 (as stated) fails, in both parts.  The explicit id "FR-1" of the
    login test case becomes a key of [mappings] although no requirement
    has that id.  And for the two requirements that share the id
    [FUNCTIONAL_1] only the first entry is marked: the second stays
    uncovered although [mappings] holds a test case for its id. *)
Lemma C3_counterexample :
  (∃ matrix, generate_matrix clock0 scenario_requirements [login_test_case] = Ok matrix
             ∧ txt "FR-1" ∈ dom (mappings matrix)
             ∧ txt "FR-1" ∉ map r_id scenario_requirements)
  ∧ (∃ matrix e, generate_matrix clock0 fr1_requirements [login_test_case] = Ok matrix
                 ∧ e ∈ requirements matrix
                 ∧ covered e = false
                 ∧ mappings matrix !! e_id e = Some [Some (txt "TC_1")]).
Proof.
  split.
  - destruct login_matrix_generated as (matrix & Hgen & _ & Hkey).
    exists matrix. split; [exact Hgen|]. split.
    + apply elem_of_dom. by eexists.
    + assert (map r_id scenario_requirements = [txt "FUNCTIONAL_0_0"; txt "FUNCTIONAL_1_0"])
        as -> by (vm_compute; reflexivity).
      intros H. repeat (apply elem_of_cons in H as [H|H]; [discriminate H|]).
      by apply elem_of_nil in H.
  - pose proof fr1_matrix_run as Hrun.
    destruct (generate_matrix clock0 fr1_requirements [login_test_case]) as [matrix|];
      [|discriminate Hrun].
    cbn [mbind result_bind] in Hrun. injection Hrun as Hreqs Hmaps.
    destruct (requirements matrix) as [|e1 [|e2 [|e3 rest]]] eqn:Hentries;
      try discriminate Hreqs.
    injection Hreqs as _ _ Hid Hcov.
    exists matrix, e2. split; [reflexivity|]. rewrite Hentries.
    split; [apply list_elem_of_further, list_elem_of_here|]. split; [exact Hcov|].
    apply elem_of_map_to_list. rewrite Hmaps, Hid. apply list_elem_of_here.
Qed.

(* ================================================================== *)
(** * Ranking of search results                                        *)
(* ================================================================== *)

Section Ranking.

Lemma enumerate_from_sorted {A} (xs : list A) n :
  StronglySorted (λ a b : nat * A, (a.1 < b.1)%nat) (enumerate_from n xs)
  ∧ Forall (λ a : nat * A, (n ≤ a.1)%nat) (enumerate_from n xs).
Proof.
  revert n. induction xs as [|x xs IH]; intros n; simpl; [by split; constructor|].
  destruct (IH (S n)) as [Hs Hf]. split.
  - constructor; [done|]. eapply Forall_impl; [exact Hf|]. simpl. lia.
  - constructor; [simpl; lia|]. eapply Forall_impl; [exact Hf|]. simpl. lia.
Qed.

Lemma StronglySorted_filter {A} (R : A → A → Prop) (P : A → Prop)
      `{∀ x, Decision (P x)} (l : list A) :
  StronglySorted R l → StronglySorted R (filter P l).
Proof.
  induction 1 as [|x l Hl IH Hx]; [constructor|].
  rewrite filter_cons. destruct (decide (P x)); [|done].
  constructor; [done|].
  rewrite Forall_forall in Hx |- *. intros y Hy.
  apply list_elem_of_filter in Hy as [_ Hy]. by apply Hx.
Qed.

Lemma fmap_snd_enumerate_from {A} (xs : list A) n : map snd (enumerate_from n xs) = xs.
Proof. revert n. induction xs as [|x xs IH]; intros n; simpl; [done | by rewrite IH]. Qed.

(** The loop of [search] builds the candidates. *)
Lemma score_chunks_candidates chunks query :
  concat (map (score_chunk (word_set query)) (enumerate chunks)) = candidates chunks query.
Proof.
  unfold candidates, enumerate.
  assert (∀ n, concat (map (score_chunk (word_set query)) (enumerate_from n chunks))
               = map (λ ic : nat * str, (similarity query ic.2, ic.1, ic.2))
                     (filter (λ ic : nat * str, scorable query ic.2)
                             (enumerate_from n chunks))) as H; [|apply H].
  induction chunks as [|c chunks IH]; intros n; simpl; [done|].
  rewrite filter_cons, IH. simpl.
  destruct (decide (scorable query c)) as [Hs|Hs]; unfold scorable in Hs.
  - rewrite (bool_decide_eq_true_2 _ Hs). simpl.
    unfold similarity, jaccard. by rewrite (bool_decide_eq_true_2 _ Hs).
  - by rewrite (bool_decide_eq_false_2 _ Hs).
Qed.

Lemma candidates_sorted chunks query :
  StronglySorted (λ a b : Q * nat * str, (a.1.2 < b.1.2)%nat) (candidates chunks query).
Proof.
  unfold candidates.
  apply (StronglySorted_fmap _ (λ a b : nat * str, (a.1 < b.1)%nat)).
  - intros a b Hab. done.
  - apply StronglySorted_filter. apply enumerate_from_sorted.
Qed.

Lemma candidates_sound chunks query :
  Forall (λ x : Q * nat * str,
            chunks !! x.1.2 = Some x.2 ∧ x.1.1 = similarity query x.2 ∧ scorable query x.2)
         (candidates chunks query).
Proof.
  unfold candidates. apply Forall_map, Forall_forall.
  intros [i c] Hic. apply list_elem_of_filter in Hic as [Hs Hic]. simpl in *.
  apply enumerate_from_lookup in Hic as [_ Hl]. rewrite Nat.sub_0_r in Hl. done.
Qed.

Lemma candidates_chunks chunks query :
  map snd (candidates chunks query) = filter (scorable query) chunks.
Proof.
  unfold candidates, enumerate.
  assert (∀ n, map snd (map (λ ic : nat * str, (similarity query ic.2, ic.1, ic.2))
                            (filter (λ ic : nat * str, scorable query ic.2)
                                    (enumerate_from n chunks)))
               = filter (scorable query) chunks) as H; [|apply H].
  induction chunks as [|c chunks IH]; intros n; simpl; [done|].
  rewrite filter_cons. simpl.
  destruct (decide (scorable query c)) as [Hs|Hs]; simpl; rewrite IH.
  - by rewrite (filter_cons_True (scorable query)).
  - by rewrite (filter_cons_False (scorable query)).
Qed.

Lemma scored_chunks_perm chunks query :
  scored_chunks chunks query ≡ₚ candidates chunks query.
Proof.
  unfold scored_chunks. rewrite score_chunks_candidates.
  apply sort_by_perm.
Qed.

Lemma scored_chunks_sorted chunks query :
  StronglySorted ranks_before (scored_chunks chunks query).
Proof.
  unfold scored_chunks. rewrite score_chunks_candidates.
  apply sort_desc_sorted, candidates_sorted.
Qed.

(** Nothing is reordered when no chunk shares a token with the query. *)
Lemma scored_chunks_all_zero chunks query :
  (∀ c, c ∈ chunks → (similarity query c == 0)%Q) →
  scored_chunks chunks query = candidates chunks query.
Proof.
  intros Hzero. unfold scored_chunks. rewrite score_chunks_candidates.
  apply sort_desc_id.
  assert (Forall (λ x : Q * nat * str, (x.1.1 == 0)%Q) (candidates chunks query)) as Hall.
  { eapply Forall_impl; [apply candidates_sound|].
    intros [[s i] c] (Hl & -> & _). simpl in *. apply Hzero. by eapply list_elem_of_lookup_2. }
  induction Hall as [|x l Hx Hall IH]; [constructor|].
  constructor; [done|].
  eapply Forall_impl; [exact Hall|]. intros y Hy. simpl in *. rewrite Hx, Hy. apply Qle_refl.
Qed.

Lemma StronglySorted_take {A} (R : A → A → Prop) (l : list A) k :
  StronglySorted R l → StronglySorted R (take k l).
Proof.
  revert k. induction l as [|x l IH]; intros [|k] Hl; simpl; try constructor.
  - apply IH. by apply StronglySorted_inv in Hl as [? _].
  - apply StronglySorted_inv in Hl as [_ Hx]. by apply Forall_take.
Qed.

End Ranking.

(** C6 (as amended). On a built index [search] returns at most [k] chunk
    texts.  They are the first [k] of the scored chunks, and the scored
    chunks are the chunks that have a token between them and the query,
    each once, ranked by non-increasing similarity with ties in index
    order.  Only when that selection is empty are the first [k] chunks
    returned.  When every chunk has similarity 0 the result is therefore
    the first [k] chunks that have a token between them and the query, in
    original order; it is the first [k] chunks if every chunk has one. *)
Theorem C6_search_ranking (chunks : index) (query : str) (k : nat) :
  chunks ≠ [] →
  ∃ results,
    search chunks query k = Ok results
    ∧ (length results ≤ k)%nat
    ∧ scored_chunks chunks query ≡ₚ candidates chunks query
    ∧ StronglySorted ranks_before (take k (scored_chunks chunks query))
    ∧ Forall (λ x : Q * nat * str,
                chunks !! x.1.2 = Some x.2 ∧ x.1.1 = similarity query x.2)
             (take k (scored_chunks chunks query))
    ∧ (take k (scored_chunks chunks query) ≠ [] →
       results = map snd (take k (scored_chunks chunks query)))
    ∧ (take k (scored_chunks chunks query) = [] → results = take k chunks)
    ∧ ((∀ c, c ∈ chunks → (similarity query c == 0)%Q) →
       (take k (filter (scorable query) chunks) ≠ [] →
        results = take k (filter (scorable query) chunks))
       ∧ (take k (filter (scorable query) chunks) = [] → results = take k chunks)
       ∧ (Forall (scorable query) chunks → results = take k chunks)).
Proof.
  intros Hne.
  set (picked := map snd (take k (scored_chunks chunks query))).
  assert (search chunks query k
          = Ok (match picked with [] => take k chunks | _ => picked end)) as Hsearch.
  { destruct chunks; [done | reflexivity]. }
  assert (take k (scored_chunks chunks query) ≠ [] →
          match picked with [] => take k chunks | _ => picked end = picked) as Hsome.
  { intros Hp. destruct picked eqn:Hpicked; [|done].
    by apply fmap_nil_inv in Hpicked. }
  assert (take k (scored_chunks chunks query) = [] →
          match picked with [] => take k chunks | _ => picked end = take k chunks) as Hnone.
  { intros Hp. unfold picked. by rewrite Hp. }
  eexists. split; [exact Hsearch|].
  split; [|split; [apply scored_chunks_perm|split; [|split; [|split; [done|split; [done|]]]]]].
  - destruct picked as [|r rs] eqn:Hr.
    + rewrite length_take. lia.
    + rewrite <- Hr. unfold picked. rewrite length_map, length_take. lia.
  - apply StronglySorted_take, scored_chunks_sorted.
  - apply Forall_take. rewrite scored_chunks_perm.
    eapply Forall_impl; [apply candidates_sound|]. intros x (? & ? & _). done.
  - intros Hzero.
    assert (picked = take k (filter (scorable query) chunks)) as Hpicked.
    { unfold picked. rewrite (scored_chunks_all_zero _ _ Hzero).
      by rewrite fmap_take, candidates_chunks. }
    assert (take k (filter (scorable query) chunks) ≠ [] →
            match picked with [] => take k chunks | _ => picked end
            = take k (filter (scorable query) chunks)) as Hfirst.
    { rewrite <- Hpicked. intros Hp. by destruct picked. }
    assert (take k (filter (scorable query) chunks) = [] →
            match picked with [] => take k chunks | _ => picked end = take k chunks) as Hfall.
    { rewrite <- Hpicked. by intros ->. }
    split; [done|]. split; [done|].
    intros Hall.
    assert (filter (scorable query) chunks = chunks) as Hfilter.
    { clear -Hall. induction Hall as [|c l Hc Hall IH]; [done|].
      rewrite (filter_cons_True (scorable query)) by done. f_equal. exact IH. }
    rewrite Hfilter in Hfirst, Hfall.
    destruct (take k chunks) as [|c cs] eqn:Htake; [by apply Hfall | by apply Hfirst].
Qed.

Lemma C6_witness :
  separator_index ≠ []
  ∧ ∃ results, search separator_index (txt "login") 1 = Ok results ∧ (length results ≤ 1)%nat.
Proof.
  assert (separator_index ≠ []) as Hne by discriminate.
  split; [exact Hne|].
  destruct (C6_search_ranking separator_index (txt "login") 1 Hne) as (results & Hs & Hlen & _).
  exists results. split; [exact Hs | exact Hlen].
Defined.

(** C6 (as stated) fails: for a query without tokens every chunk of this
    index has similarity 0, yet the result for [k = 1] is not the first
    chunk (the separator line, which has no token either) but the
    second. *)
Lemma C6_counterexample :
  (∀ c, c ∈ separator_index → (similarity tokenless_query c == 0)%Q)
  ∧ search separator_index tokenless_query 1 = Ok [login_chunk]
  ∧ take 1 separator_index = [separator_chunk].
Proof.
  split; [|split; vm_compute; reflexivity].
  intros c Hc. unfold separator_index in Hc.
  apply elem_of_cons in Hc as [->|Hc]; [vm_compute; reflexivity|].
  apply list_elem_of_singleton in Hc as ->. vm_compute. reflexivity.
Qed.

(* ================================================================== *)
(** * What a pattern can capture                                       *)
(* ================================================================== *)

Section Captures.

Import Regex.

Lemma all_ascii_complete (x : ascii) : x ∈ all_ascii.
Proof.
  unfold all_ascii. rewrite <- (ascii_nat_embedding x).
  apply list_elem_of_fmap_2, elem_of_seq.
  pose proof (nat_ascii_bounded x). lia.
Qed.

Lemma forallb_all_ascii (f : ascii → bool) (x : ascii) :
  forallb f all_ascii = true → f x = true.
Proof.
  intros H. rewrite forallb_forall in H. apply H.
  apply list_elem_of_In, all_ascii_complete.
Qed.

Variable P : ascii → bool.
Context {R : Type}.

Implicit Types (s : str) (cap : option str) (k : str → option str → option R) (res : R).

Lemma star_loop_consumes body :
  consumes_in P body → ∀ k fuel, consumes_in P (λ s cap k', star_loop body k' fuel s cap).
Proof.
  intros Hbody k fuel. clear k.
  induction fuel as [|fuel IH]; intros s cap k res Hrun; simpl in Hrun.
  - exists [], s, cap. by repeat split.
  - destruct (body s cap _) as [res0|] eqn:Hb.
    + injection Hrun as ->.
      apply Hbody in Hb as (w1 & s1 & cap1 & -> & Hw1 & Hk).
      destruct (_ <? _)%nat; [|done].
      apply IH in Hk as (w2 & s2 & cap2 & -> & Hw2 & Hk).
      exists (w1 ++ w2), s2, cap2. rewrite <- app_assoc.
      split; [done|]. split; [by apply Forall_app | done].
    + exists [], s, cap. by repeat split.
Qed.

Lemma m_consumes r : only P r = true → consumes_in P (λ s cap k, m r s cap k).
Proof.
  induction r as [c|p|r1 IH1 r2 IH2|r1 IH1 r2 IH2|r1 IH1|r1 IH1|r1 IH1];
    intros Honly s cap k res Hrun; cbn [only] in Honly; cbn [m] in Hrun.
  - destruct s as [|x s']; [done|]. case_bool_decide as Hx; [|done].
    exists [x], s', cap. split; [done|]. split; [|done].
    constructor; [|constructor].
    apply (forallb_all_ascii _ x) in Honly. cbv beta in Honly.
    by rewrite (bool_decide_eq_true_2 _ Hx) in Honly.
  - destruct s as [|x s']; [done|]. destruct (p x) eqn:Hx; [|done].
    exists [x], s', cap. split; [done|]. split; [|done].
    constructor; [|constructor].
    apply (forallb_all_ascii _ x) in Honly. cbv beta in Honly. by rewrite Hx in Honly.
  - apply andb_prop in Honly as [H1 H2].
    apply (IH1 H1) in Hrun as (w1 & s1 & cap1 & -> & Hw1 & Hrun).
    apply (IH2 H2) in Hrun as (w2 & s2 & cap2 & -> & Hw2 & Hrun).
    exists (w1 ++ w2), s2, cap2. rewrite <- app_assoc.
    split; [done|]. split; [by apply Forall_app | done].
  - apply andb_prop in Honly as [H1 H2].
    destruct (m r1 s cap k) as [res0|] eqn:Hm1.
    + injection Hrun as ->. by apply (IH1 H1) in Hm1.
    + by apply (IH2 H2) in Hrun.
  - by apply (star_loop_consumes _ (IH1 Honly) k) in Hrun.
  - destruct (m r1 s cap k) as [res0|] eqn:Hm1.
    + injection Hrun as ->. by apply (IH1 Honly) in Hm1.
    + exists [], s, cap. by repeat split.
  - apply (IH1 Honly) in Hrun as (w & s' & cap' & -> & Hw & Hrun).
    eexists w, s', _. split; [done|]. split; [done|]. exact Hrun.
Qed.

Lemma star_loop_captures body :
  captures_in P body → ∀ fuel, captures_in P (λ s cap k', star_loop body k' fuel s cap).
Proof.
  intros Hbody fuel.
  induction fuel as [|fuel IH]; intros s cap k res Hcap Hrun; simpl in Hrun.
  - by exists s, cap.
  - destruct (body s cap _) as [res0|] eqn:Hb.
    + injection Hrun as ->.
      apply Hbody in Hb as (s1 & cap1 & Hcap1 & Hk); [|done].
      destruct (_ <? _)%nat; [|done].
      by apply IH in Hk.
    + by exists s, cap.
Qed.

Lemma m_captures r : captures_only P r = true → captures_in P (λ s cap k, m r s cap k).
Proof.
  induction r as [c|p|r1 IH1 r2 IH2|r1 IH1 r2 IH2|r1 IH1|r1 IH1|r1 IH1];
    intros Hok s cap k res Hcap Hrun; cbn [captures_only] in Hok; cbn [m] in Hrun.
  - destruct s as [|x s']; [done|]. case_bool_decide; [|done]. by exists s', cap.
  - destruct s as [|x s']; [done|]. destruct (p x); [|done]. by exists s', cap.
  - apply andb_prop in Hok as [H1 H2].
    apply (IH1 H1) in Hrun as (s1 & cap1 & Hcap1 & Hrun); [|done].
    by apply (IH2 H2) in Hrun.
  - apply andb_prop in Hok as [H1 H2].
    destruct (m r1 s cap k) as [res0|] eqn:Hm1.
    + injection Hrun as ->. by apply (IH1 H1) in Hm1.
    + by apply (IH2 H2) in Hrun.
  - by apply (star_loop_captures _ (IH1 Hok)) in Hrun.
  - destruct (m r1 s cap k) as [res0|] eqn:Hm1.
    + injection Hrun as ->. by apply (IH1 Hok) in Hm1.
    + by exists s, cap.
  - apply (m_consumes r1 Hok) in Hrun as (w & s' & cap' & -> & Hw & Hrun).
    rewrite length_app, Nat.add_sub, take_app_length in Hrun.
    exists s', (Some w). done.
Qed.

End Captures.

Section FinditerCaptures.

Import Regex.
Variable P : ascii → bool.

Lemma match_here_captures r s s' cap :
  captures_only P r = true → match_here r s = Some (s', cap) → capture_in P cap.
Proof.
  intros Hok Hm. unfold match_here in Hm.
  apply (m_captures P r Hok) in Hm as (s1 & cap1 & Hcap1 & Heq); [|done].
  by simplify_eq.
Qed.

Lemma finditer_captures r s :
  captures_only P r = true →
  Forall (λ mt, capture_in P (m_group1 mt)) (finditer r s).
Proof.
  intros Hok. unfold finditer. generalize (S (length s)) as fuel. generalize 0%nat as pos.
  intros pos fuel. revert s pos.
  induction fuel as [|fuel IH]; intros s pos; simpl; [constructor|].
  destruct (match_here r s) as [[s' cap]|] eqn:Hm.
  - constructor; [simpl; by eapply match_here_captures|].
    destruct (length s - length s')%nat; [destruct s|]; try constructor; apply IH.
  - destruct s; [constructor | apply IH].
Qed.

End FinditerCaptures.

(* ================================================================== *)
(** * The shapes of requirement ids                                    *)
(* ================================================================== *)

Section IdShapes.

Lemma strip_prefix_app (p w : str) : strip_prefix p (p ++ w) = Some w.
Proof.
  induction p as [|a p IH]; simpl; [by destruct w|].
  by rewrite bool_decide_eq_true_2.
Qed.

Lemma numbered_id_shape (tp : str * list Regex.regex) (c : ascii) (w : str) :
  tp ∈ enhanced_patterns →
  Forall (λ c, digit_or_dot c = true) (c :: w) →
  is_numbered_id (Text.upper tp.1 ++ txt "_" ++ c :: w) = true.
Proof.
  intros Htp Hw. unfold is_numbered_id. apply existsb_exists.
  exists (Text.upper tp.1 ++ txt "_"). split.
  - apply list_elem_of_In. unfold numbered_prefixes.
    by apply (list_elem_of_fmap_2 (λ tp : str * list Regex.regex, Text.upper tp.1 ++ txt "_")).
  - rewrite (app_assoc (Text.upper tp.1)), strip_prefix_app.
    apply forallb_forall. intros x Hx. rewrite Forall_forall in Hw.
    by apply Hw, list_elem_of_In.
Qed.

Lemma of_uint_digits (d : Decimal.uint) :
  Forall (λ c, Text.is_digit c = true) (list_ascii_of_string (NilEmpty.string_of_uint d)).
Proof. induction d; simpl; constructor; done. Qed.

Lemma of_nat_digits (n : nat) : Forall (λ c, Text.is_digit c = true) (Text.of_nat n).
Proof. apply of_uint_digits. Qed.

Lemma of_nat_inj (n n' : nat) : Text.of_nat n = Text.of_nat n' → n = n'.
Proof.
  unfold Text.of_nat. intros H.
  apply (f_equal string_of_list_ascii) in H.
  rewrite !string_of_list_ascii_of_string in H.
  apply (f_equal NilEmpty.uint_of_string) in H. rewrite !NilEmpty.usu in H.
  injection H as H. apply (f_equal Nat.of_uint) in H.
  by rewrite !DecimalNat.Unsigned.of_to in H.
Qed.

(** Two digit strings followed by an underscore: the first underscore
    tells where the digits end. *)
Lemma digits_underscore_split (d1 d2 r1 r2 : str) :
  Forall (λ c, Text.is_digit c = true) d1 →
  Forall (λ c, Text.is_digit c = true) d2 →
  d1 ++ txt "_" ++ r1 = d2 ++ txt "_" ++ r2 → d1 = d2 ∧ r1 = r2.
Proof.
  intros H1. revert d2. induction H1 as [|c d1 Hc H1 IH]; intros d2 H2 Heq.
  - destruct H2 as [|c' d2 Hc' H2]; simpl in *.
    + by simplify_eq.
    + injection Heq as <- _. done.
  - destruct H2 as [|c' d2 Hc' H2]; simpl in *.
    + injection Heq as -> _. done.
    + injection Heq as -> Heq. apply IH in Heq as [-> ->]; done.
Qed.

Lemma key_prefix_unique (p p' x y : str) :
  p ∈ key_prefixes → p' ∈ key_prefixes → p ++ x = p' ++ y → x = y.
Proof.
  intros Hp Hp' Heq.
  destruct (decide (p = p')) as [->|Hne]; [by apply app_inv_head in Heq|].
  exfalso.
  assert (key_prefixes
          = [txt "FUNCTIONAL_"; txt "NON_FUNCTIONAL_"; txt "USER_STORY_"; txt "REQ_"]) as Hk
      by (vm_compute; reflexivity).
  rewrite Hk in Hp, Hp'.
  repeat (apply elem_of_cons in Hp as [->|Hp]);
    try (by apply elem_of_nil in Hp);
    repeat (apply elem_of_cons in Hp' as [->|Hp']);
    try (by apply elem_of_nil in Hp');
    first [by apply Hne | cbn in Heq; discriminate Heq].
Qed.

Lemma keyed_id_inj (p p' : str) (i i' n n' : nat) :
  p ∈ key_prefixes → p' ∈ key_prefixes →
  keyed_id p i n = keyed_id p' i' n' → i = i' ∧ n = n'.
Proof.
  intros Hp Hp' Heq. unfold keyed_id in Heq.
  apply (key_prefix_unique p p') in Heq; [|done..].
  apply digits_underscore_split in Heq as [Hi Hn]; [|apply of_nat_digits..].
  split; by apply of_nat_inj.
Qed.

Lemma patterns_capture_numbers :
  Forall (λ tp : str * list Regex.regex,
            Forall (λ r, captures_only digit_or_dot r = true) tp.2)
         enhanced_patterns.
Proof. repeat constructor. Qed.

End IdShapes.

(* ================================================================== *)
(** * Uniqueness of the ids that are not taken from the text           *)
(* ================================================================== *)

Section IdUniqueness.

Lemma id_from_mono idx b b' id : (b ≤ b')%nat → id_from idx b id → id_from idx b' id.
Proof.
  intros Hb [Hn|(p & n & Hp & Hlt & ->)]; [by left | right].
  exists p, n. split; [done|]. split; [lia | done].
Qed.

Lemma ids_ok_mono idx b b' reqs : (b ≤ b')%nat → ids_ok idx b reqs → ids_ok idx b' reqs.
Proof.
  intros Hb [Hall Hnd]. split; [|done].
  eapply Forall_impl; [exact Hall|]. intros r. by apply id_from_mono.
Qed.

Lemma ids_ok_nil idx b : ids_ok idx b [].
Proof. split; [constructor | simpl; constructor]. Qed.

Lemma ids_ok_snoc_numbered idx b reqs r :
  ids_ok idx b reqs → is_numbered_id (r_id r) = true → ids_ok idx b (reqs ++ [r]).
Proof.
  intros [Hall Hnd] Hr. split.
  - apply Forall_app. split; [done|]. constructor; [by left | constructor].
  - rewrite fmap_app, filter_app. simpl.
    rewrite (filter_cons_False unnumbered) by (unfold unnumbered; congruence).
    by rewrite filter_nil, app_nil_r.
Qed.

Lemma ids_ok_snoc_keyed idx b reqs r p n :
  ids_ok idx b reqs → p ∈ key_prefixes → (b ≤ n)%nat → r_id r = keyed_id p idx n →
  ids_ok idx (S n) (reqs ++ [r]).
Proof.
  intros [Hall Hnd] Hp Hbn Hr. split.
  - apply Forall_app. split.
    + eapply Forall_impl; [exact Hall|]. intros r'. apply id_from_mono. lia.
    + constructor; [|constructor]. right. exists p, n. split; [done|]. split; [lia | done].
  - rewrite fmap_app, filter_app. apply NoDup_app. split; [done|]. split.
    + intros id Hid Hid'. simpl in Hid'.
      apply list_elem_of_filter in Hid as [Hun Hid].
      apply list_elem_of_filter in Hid' as [_ Hid'].
      apply list_elem_of_singleton in Hid'. subst id.
      apply list_elem_of_fmap in Hid as (r' & Heq & Hr').
      rewrite Forall_forall in Hall. destruct (Hall r' Hr') as [Hnum|(p' & n' & Hp' & Hlt & Hk)].
      * unfold unnumbered in Hun. congruence.
      * rewrite <- Heq, Hr in Hk. apply keyed_id_inj in Hk as [_ Hk]; [lia | done..].
    + simpl. destruct (decide (unnumbered (r_id r))).
      * rewrite (filter_cons_True unnumbered) by done. rewrite filter_nil.
        apply NoDup_singleton.
      * rewrite (filter_cons_False unnumbered) by done. rewrite filter_nil. constructor.
Qed.

Lemma all_ids_ok_mono k k' reqs : (k ≤ k')%nat → all_ids_ok k reqs → all_ids_ok k' reqs.
Proof.
  intros Hk [Hall Hnd]. split; [|done].
  eapply Forall_impl; [exact Hall|]. intros r (idx & b & Hlt & Hid).
  exists idx, b. split; [lia | done].
Qed.

Lemma all_ids_ok_app k b reqs extracted :
  all_ids_ok k reqs → ids_ok k b extracted → all_ids_ok (S k) (reqs ++ extracted).
Proof.
  intros [Hall Hnd] [Hall' Hnd']. split.
  - apply Forall_app. split.
    + eapply Forall_impl; [exact Hall|]. intros r (idx & b' & Hlt & Hid).
      exists idx, b'. split; [lia | done].
    + eapply Forall_impl; [exact Hall'|]. intros r Hid. exists k, b. split; [lia | done].
  - rewrite fmap_app, filter_app. apply NoDup_app. split; [done|]. split; [|done].
    intros id Hid Hid'.
    apply list_elem_of_filter in Hid as [Hun Hid].
    apply list_elem_of_filter in Hid' as [_ Hid'].
    apply list_elem_of_fmap in Hid as (r & -> & Hr).
    apply list_elem_of_fmap in Hid' as (r' & Heq & Hr').
    rewrite Forall_forall in Hall, Hall'.
    destruct (Hall r Hr) as (idx & b0 & Hlt & [Hnum|(p & n & Hp & _ & Hk)]);
      [unfold unnumbered in Hun; congruence|].
    destruct (Hall' r' Hr') as [Hnum|(p' & n' & Hp' & _ & Hk')];
      [unfold unnumbered in Hun; congruence|].
    rewrite Heq, Hk' in Hk. apply keyed_id_inj in Hk as [Hk _]; [lia | done..].
Qed.

Variable hash : str → Z.

(** A match adds nothing, or one requirement whose id is numbered or
    keyed by the chunk index and the length of the chunk's list. *)
Lemma on_match_ids chunk idx tp st mt :
  tp ∈ enhanced_patterns →
  capture_in digit_or_dot (Regex.m_group1 mt) →
  (on_match hash chunk idx tp.1 st mt).1 = st.1
  ∨ ∃ r, (on_match hash chunk idx tp.1 st mt).1 = st.1 ++ [r]
         ∧ (is_numbered_id (r_id r) = true
            ∨ ∃ p, p ∈ key_prefixes ∧ r_id r = keyed_id p idx (length st.1)).
Proof.
  intros Htp Hcap. destruct st as [reqs processed]. unfold on_match.
  case_bool_decide; [by left | right].
  eexists. split; [reflexivity|]. cbn [r_id fst].
  assert (Text.upper tp.1 ++ txt "_" ∈ key_prefixes) as Hp.
  { unfold key_prefixes, numbered_prefixes. apply elem_of_app. left.
    by apply (list_elem_of_fmap_2 (λ tp : str * list Regex.regex, Text.upper tp.1 ++ txt "_")). }
  destruct (Regex.m_group1 mt) as [[|c w]|].
  - right. eexists. split; [exact Hp|]. unfold keyed_id. by rewrite <- app_assoc.
  - left. by apply numbered_id_shape.
  - right. eexists. split; [exact Hp|]. unfold keyed_id. by rewrite <- app_assoc.
Qed.

Lemma on_match_ok chunk idx tp st mt :
  tp ∈ enhanced_patterns →
  capture_in digit_or_dot (Regex.m_group1 mt) →
  ids_ok idx (length st.1) st.1 →
  ids_ok idx (length (on_match hash chunk idx tp.1 st mt).1)
         (on_match hash chunk idx tp.1 st mt).1.
Proof.
  intros Htp Hcap Hok.
  destruct (on_match_ids chunk idx tp st mt Htp Hcap) as [->|(r & -> & Hr)]; [done|].
  rewrite length_app. simpl. rewrite Nat.add_1_r.
  destruct Hr as [Hnum|(p & Hp & Hk)].
  - apply ids_ok_snoc_numbered; [|done]. eapply ids_ok_mono; [|exact Hok]. lia.
  - by eapply ids_ok_snoc_keyed.
Qed.

Lemma on_type_ok chunk idx tp st :
  tp ∈ enhanced_patterns →
  ids_ok idx (length st.1) st.1 →
  ids_ok idx (length (on_type hash chunk idx st tp).1) (on_type hash chunk idx st tp).1.
Proof.
  intros Htp Hok. unfold on_type.
  pose proof patterns_capture_numbers as Hpats. rewrite Forall_forall in Hpats.
  specialize (Hpats tp Htp). rewrite Forall_forall in Hpats.
  apply (fold_left_invariant (λ st : ext_state, ids_ok idx (length st.1) st.1)); [|done].
  intros s pattern Hpattern Hs. unfold on_pattern.
  pose proof (finditer_captures digit_or_dot pattern chunk (Hpats pattern Hpattern)) as Hcaps.
  rewrite Forall_forall in Hcaps.
  apply (fold_left_invariant (λ st : ext_state, ids_ok idx (length st.1) st.1)); [|done].
  intros s' mt Hmt Hs'. apply on_match_ok; [done | by apply Hcaps | done].
Qed.

Lemma on_sentence_ok idx sentences k st :
  ids_ok idx k st.1 →
  ∃ b, ids_ok idx b (fold_left (on_sentence hash idx) (enumerate_from k sentences) st).1.
Proof.
  revert k st. induction sentences as [|sentence sentences IH]; intros k st Hok; simpl.
  - by exists k.
  - apply (IH (S k)). destruct st as [reqs processed]. unfold on_sentence.
    destruct (60 <? _)%nat; [|by eapply ids_ok_mono; [|exact Hok]; lia].
    case_bool_decide; [by eapply ids_ok_mono; [|exact Hok]; lia|].
    cbn [fst]. eapply (ids_ok_snoc_keyed idx k _ _ (txt "REQ_") k); [done| |lia|done].
    unfold key_prefixes. apply elem_of_app. right. apply list_elem_of_here.
Qed.

Lemma extract_from_chunk_ok chunk idx processed :
  ∃ b, ids_ok idx b
         (_extract_requirements_from_chunk_enhanced hash chunk idx enhanced_patterns
                                                    processed).1.
Proof.
  unfold _extract_requirements_from_chunk_enhanced.
  set (st := fold_left (on_type hash chunk idx) enhanced_patterns ([], processed)).
  assert (ids_ok idx (length st.1) st.1) as Hst.
  { apply (fold_left_invariant (λ st : ext_state, ids_ok idx (length st.1) st.1)).
    - intros s tp Htp Hs. by apply on_type_ok.
    - apply ids_ok_nil. }
  destruct st.1 as [|r rs] eqn:Hreqs.
  - apply on_sentence_ok. rewrite Hreqs. apply ids_ok_nil.
  - exists (length (r :: rs)). by rewrite Hreqs.
Qed.

Lemma on_chunk_ok chunks k st :
  all_ids_ok k st.1 →
  all_ids_ok (k + length chunks) (fold_left (on_chunk hash) (enumerate_from k chunks) st).1.
Proof.
  revert k st. induction chunks as [|chunk chunks IH]; intros k st Hok; simpl.
  - by rewrite Nat.add_0_r.
  - replace (k + S (length chunks))%nat with (S k + length chunks)%nat by lia.
    apply IH. destruct st as [reqs processed]. unfold on_chunk.
    destruct (_ <? 50)%nat; [by eapply all_ids_ok_mono; [|exact Hok]; lia|].
    destruct (extract_from_chunk_ok chunk k processed) as [b Hb].
    destruct (_extract_requirements_from_chunk_enhanced _ _ _ _ _) as [extracted processed'].
    cbn [fst] in *. by eapply all_ids_ok_app.
Qed.

End IdUniqueness.

(** C2 (as amended). Among the ids of one extraction call, those that are
    not of the pattern-numbered form [TYPE_<number>] -- the positional ids
    [TYPE_<chunkIndex>_<localCounter>] and the ids of the generic
    fallback -- are pairwise distinct, for every hash function. *)
Theorem C2_unnumbered_ids_unique (hash : str → Z) (text_chunks : list str) :
  NoDup (filter unnumbered (map r_id (extract_requirements hash text_chunks))).
Proof.
  unfold extract_requirements, sort_asc.
  rewrite sort_by_perm.
  destruct (on_chunk_ok hash text_chunks 0 ([], ∅)) as [_ Hnd]; [|exact Hnd].
  split; [constructor | simpl; constructor].
Qed.

(* ================================================================== *)
(** * The role of the hash function                                    *)
(* ================================================================== *)

Section HashIndependence.

Lemma content_hash_fingerprint (hash : str → Z) (content : str) :
  content_hash hash content = hash (fingerprint content).
Proof. unfold content_hash, fingerprint. by destruct (Text.strip content). Qed.

Lemma injective_hash_pos (s : str) : (1 ≤ injective_hash s)%Z.
Proof. induction s as [|c s IH]; simpl; lia. Qed.

Lemma injective_hash_inj : Inj (=) (=) injective_hash.
Proof.
  intros s. induction s as [|c s IH]; intros [|c' s'] Heq; simpl in Heq.
  - done.
  - pose proof (injective_hash_pos s'). lia.
  - pose proof (injective_hash_pos s). lia.
  - pose proof (nat_ascii_bounded c) as Hc. pose proof (nat_ascii_bounded c') as Hc'.
    unfold Text.code in Heq.
    assert (nat_of_ascii c = nat_of_ascii c' ∧ injective_hash s = injective_hash s')
      as [Hcc Hss] by lia.
    f_equal; [|by apply IH].
    by rewrite <- (ascii_nat_embedding c), <- (ascii_nat_embedding c'), Hcc.
Qed.

(** Two hash functions without collisions. *)
Variables h1 h2 : str → Z.
Hypothesis h1_inj : Inj (=) (=) h1.
Hypothesis h2_inj : Inj (=) (=) h2.

Lemma seen_iff (h : str → Z) (seen : gset str) (x : str) :
  Inj (=) (=) h → h x ∈ (set_map h seen : gset Z) ↔ x ∈ seen.
Proof.
  intros Hinj. rewrite elem_of_map. split.
  - intros (y & Heq & Hy). by apply Hinj in Heq as ->.
  - intros Hx. by exists x.
Qed.

Lemma seen_insert (h : str → Z) (seen : gset str) (x : str) :
  ({[h x]} ∪ set_map h seen : gset Z) = set_map h ({[x]} ∪ seen).
Proof. by rewrite set_map_union_L, set_map_singleton_L. Qed.

Lemma same_run_fold {A} (f1 f2 : ext_state → A → ext_state) (xs : list A) st1 st2 :
  (∀ s1 s2 x, same_run h1 h2 s1 s2 → same_run h1 h2 (f1 s1 x) (f2 s2 x)) →
  same_run h1 h2 st1 st2 → same_run h1 h2 (fold_left f1 xs st1) (fold_left f2 xs st2).
Proof.
  intros Hstep. revert st1 st2.
  induction xs as [|x xs IH]; intros st1 st2 Hst; simpl; [done|].
  by apply IH, Hstep.
Qed.

Lemma on_match_same chunk idx tp st1 st2 mt :
  same_run h1 h2 st1 st2 →
  same_run h1 h2 (on_match h1 chunk idx tp st1 mt) (on_match h2 chunk idx tp st2 mt).
Proof.
  destruct st1 as [reqs1 p1], st2 as [reqs2 p2].
  intros [Hreqs (seen & Hp1 & Hp2)]. simpl in Hreqs, Hp1, Hp2. subst.
  unfold on_match. rewrite !content_hash_fingerprint.
  set (fp := fingerprint _).
  destruct (decide (fp ∈ seen)) as [Hin|Hout].
  - rewrite !bool_decide_eq_true_2 by (by apply seen_iff).
    split; [done|]. by exists seen.
  - rewrite !bool_decide_eq_false_2 by (by rewrite seen_iff).
    split; [done|]. exists ({[fp]} ∪ seen). simpl. by rewrite !seen_insert.
Qed.

Lemma on_sentence_same idx st1 st2 ientry :
  same_run h1 h2 st1 st2 →
  same_run h1 h2 (on_sentence h1 idx st1 ientry) (on_sentence h2 idx st2 ientry).
Proof.
  destruct st1 as [reqs1 p1], st2 as [reqs2 p2], ientry as [i sentence].
  intros [Hreqs (seen & Hp1 & Hp2)]. simpl in Hreqs, Hp1, Hp2. subst.
  unfold on_sentence.
  destruct (60 <? _)%nat; [|split; [done | by exists seen]].
  rewrite !content_hash_fingerprint.
  set (fp := fingerprint _).
  destruct (decide (fp ∈ seen)) as [Hin|Hout].
  - rewrite !bool_decide_eq_true_2 by (by apply seen_iff).
    split; [done|]. by exists seen.
  - rewrite !bool_decide_eq_false_2 by (by rewrite seen_iff).
    split; [done|]. exists ({[fp]} ∪ seen). simpl. by rewrite !seen_insert.
Qed.

Lemma on_chunk_same st1 st2 ic :
  same_run h1 h2 st1 st2 → same_run h1 h2 (on_chunk h1 st1 ic) (on_chunk h2 st2 ic).
Proof.
  destruct st1 as [reqs1 p1], st2 as [reqs2 p2], ic as [idx chunk].
  intros [Hreqs (seen & Hp1 & Hp2)]. simpl in Hreqs, Hp1, Hp2. subst.
  unfold on_chunk.
  destruct (_ <? 50)%nat; [split; [done | by exists seen]|].
  assert (same_run h1 h2
            (_extract_requirements_from_chunk_enhanced h1 chunk idx enhanced_patterns
                                                       (set_map h1 seen))
            (_extract_requirements_from_chunk_enhanced h2 chunk idx enhanced_patterns
                                                       (set_map h2 seen))) as Hsame.
  { unfold _extract_requirements_from_chunk_enhanced.
    assert (same_run h1 h2
              (fold_left (on_type h1 chunk idx) enhanced_patterns ([], set_map h1 seen))
              (fold_left (on_type h2 chunk idx) enhanced_patterns ([], set_map h2 seen)))
      as Hpatterns.
    { apply same_run_fold; [|split; [done | by exists seen]].
      intros s1 s2 tp Hs. unfold on_type. apply same_run_fold; [|done].
      intros s1' s2' pattern Hs'. unfold on_pattern. apply same_run_fold; [|done].
      intros. by apply on_match_same. }
    pose proof Hpatterns as [Heq _]. rewrite <- Heq.
    destruct (fold_left (on_type h1 chunk idx) _ _).1 eqn:Hfound.
    - apply same_run_fold; [|exact Hpatterns].
      intros. by apply on_sentence_same.
    - exact Hpatterns. }
  destruct (_extract_requirements_from_chunk_enhanced h1 _ _ _ _) as [e1 q1].
  destruct (_extract_requirements_from_chunk_enhanced h2 _ _ _ _) as [e2 q2].
  destruct Hsame as [Heq Hseen]. simpl in Heq. subst. by split.
Qed.

(** The outcome of an extraction does not depend on which collision-free
    hash is used. *)
Lemma extract_requirements_hash_independent (text_chunks : list str) :
  extract_requirements h1 text_chunks = extract_requirements h2 text_chunks.
Proof.
  unfold extract_requirements.
  assert (same_run h1 h2 (fold_left (on_chunk h1) (enumerate text_chunks) ([], ∅))
                   (fold_left (on_chunk h2) (enumerate text_chunks) ([], ∅))) as [-> _];
    [|done].
  apply same_run_fold; [intros; by apply on_chunk_same|].
  split; [done|]. exists ∅. by rewrite !set_map_empty.
Qed.

End HashIndependence.

Lemma fr1_ids :
  map r_id (extract_requirements injective_hash fr1_chunks)
  = [txt "FUNCTIONAL_1"; txt "FUNCTIONAL_1"].
Proof. vm_compute. reflexivity. Qed.

(** The same holds whatever the hash, as long as it has no collision. *)
Lemma fr1_ids_any_hash (hash : str → Z) :
  Inj (=) (=) hash →
  map r_id (extract_requirements hash fr1_chunks) = [txt "FUNCTIONAL_1"; txt "FUNCTIONAL_1"].
Proof.
  intros Hinj.
  rewrite (extract_requirements_hash_independent hash injective_hash Hinj injective_hash_inj).
  exact fr1_ids.
Qed.

(** C2 (as stated) fails: two chunks that refer to "FR-1" in different
    sentences give two requirements with the id [FUNCTIONAL_1]. *)
Lemma C2_counterexample :
  ¬ NoDup (map r_id (extract_requirements injective_hash fr1_chunks)).
Proof.
  rewrite fr1_ids. intros Hnd. apply NoDup_cons in Hnd as [Hnotin _].
  apply Hnotin, list_elem_of_here.
Qed.

Lemma login_page_once :
  map summary (extract_requirements injective_hash [login_page_chunk])
  = [(txt "FUNCTIONAL_0_0", txt "functional", login_page_chunk)].
Proof. vm_compute. reflexivity. Qed.

Lemma login_page_twice :
  map summary (extract_requirements injective_hash [login_page_chunk; login_page_chunk])
  = [(txt "FUNCTIONAL_0_0", txt "functional", login_page_chunk);
     (txt "REQ_1_0", txt "general", login_page_sentence)].
Proof. vm_compute. reflexivity. Qed.

(** C9 (the code at the failing input). The chunk alone gives one
    requirement.  Given twice, its second occurrence is not suppressed:
    every pattern candidate of the second occurrence is a duplicate, the
    chunk's list stays empty, the generic fallback runs although patterns
    were found, and the sentence is emitted again as a [general]
    requirement. *)
Theorem C9_second_occurrence_is_emitted (hash : str → Z) :
  Inj (=) (=) hash →
  map summary (extract_requirements hash [login_page_chunk])
  = [(txt "FUNCTIONAL_0_0", txt "functional", login_page_chunk)]
  ∧ map summary (extract_requirements hash [login_page_chunk; login_page_chunk])
    = [(txt "FUNCTIONAL_0_0", txt "functional", login_page_chunk);
       (txt "REQ_1_0", txt "general", login_page_sentence)].
Proof.
  intros Hinj.
  rewrite !(extract_requirements_hash_independent hash injective_hash Hinj injective_hash_inj).
  split; [exact login_page_once | exact login_page_twice].
Qed.

Lemma C9_witness :
  Inj (=) (=) injective_hash
  ∧ map summary (extract_requirements injective_hash [login_page_chunk; login_page_chunk])
    = [(txt "FUNCTIONAL_0_0", txt "functional", login_page_chunk);
       (txt "REQ_1_0", txt "general", login_page_sentence)].
Proof.
  split; [exact injective_hash_inj|].
  exact (proj2 (C9_second_occurrence_is_emitted injective_hash injective_hash_inj)).
Defined.

(* ================================================================== *)
(** * What the dedup does guarantee                                    *)
(* ================================================================== *)

Section Strip.

Lemma lstrip_suffix (s : str) :
  ∃ sp, s = sp ++ Text.lstrip s ∧ Forall (λ c, Text.is_space c = true) sp.
Proof.
  induction s as [|c s (sp & Heq & Hsp)]; simpl.
  - by exists [].
  - destruct (Text.is_space c) eqn:Hc.
    + exists (c :: sp). split; [by rewrite Heq at 1 | by constructor].
    + by exists [].
Qed.

Lemma lstrip_solid (s : str) : starts_solid (Text.lstrip s).
Proof.
  induction s as [|c s IH]; simpl; [done|].
  destruct (Text.is_space c) eqn:Hc; [done | by simpl].
Qed.

Lemma lstrip_id (s : str) : starts_solid s → Text.lstrip s = s.
Proof. destruct s as [|c s]; simpl; [done|]. by intros ->. Qed.

Lemma strip_idempotent (s : str) : Text.strip (Text.strip s) = Text.strip s.
Proof.
  unfold Text.strip, Text.rstrip.
  set (u := Text.lstrip s).
  assert (starts_solid u) as Hu by apply lstrip_solid.
  destruct (lstrip_suffix (rev u)) as (sp & Heq & Hsp).
  set (t := Text.lstrip (rev u)) in *.
  assert (starts_solid (rev t)) as Hsolid.
  { apply (f_equal (λ l : str, rev l)) in Heq. simpl in Heq. rewrite rev_involutive, rev_app_distr in Heq.
    destruct (rev t) as [|c t'] eqn:Ht; [done|].
    rewrite Heq in Hu. exact Hu. }
  rewrite (lstrip_id (rev t) Hsolid), rev_involutive.
  by rewrite (lstrip_id t (lstrip_solid (rev u))).
Qed.

Lemma fingerprint_strip (content : str) :
  fingerprint (Text.strip content) = fingerprint content.
Proof. unfold fingerprint. by rewrite strip_idempotent. Qed.

End Strip.

Section ContentsUnique.

Variable hash : str → Z.

Lemma keys_ok_add before reqs (processed : gset Z) r h :
  keys_ok hash before (reqs, processed) →
  key_of hash r = h →
  h ∉ processed →
  keys_ok hash before (reqs ++ [r], {[h]} ∪ processed).
Proof.
  intros [Hall Hnd] <- Hnew. simpl in *. split; simpl.
  - rewrite app_assoc. apply Forall_app. split.
    + eapply Forall_impl; [exact Hall|]. intros r' Hr'. set_solver.
    + constructor; [set_solver | constructor].
  - rewrite app_assoc, fmap_app. apply NoDup_app. split; [done|]. split.
    + intros k Hk Hk'. apply list_elem_of_singleton in Hk'. subst k.
      apply list_elem_of_fmap in Hk as (r' & Heq & Hr').
      rewrite Forall_forall in Hall. apply Hnew. rewrite Heq. by apply Hall.
    + apply NoDup_singleton.
Qed.

Lemma on_match_keys before chunk idx tp st mt :
  keys_ok hash before st → keys_ok hash before (on_match hash chunk idx tp st mt).
Proof.
  destruct st as [reqs processed]. intros Hok. unfold on_match.
  set (content := _extract_requirement_content_enhanced _ _ _).
  case_bool_decide as Hseen; [done|].
  apply keys_ok_add; [done | | done].
  unfold key_of. simpl. by rewrite !content_hash_fingerprint, fingerprint_strip.
Qed.

Lemma on_sentence_keys before idx st ientry :
  keys_ok hash before st → keys_ok hash before (on_sentence hash idx st ientry).
Proof.
  destruct st as [reqs processed], ientry as [i sentence]. intros Hok. unfold on_sentence.
  destruct (60 <? _)%nat; [|done].
  case_bool_decide as Hseen; [done|].
  apply keys_ok_add; [done | | done].
  unfold key_of. simpl. by rewrite !content_hash_fingerprint, fingerprint_strip.
Qed.

Lemma extract_from_chunk_keys before chunk idx processed :
  keys_ok hash before ([], processed) →
  keys_ok hash before (_extract_requirements_from_chunk_enhanced hash chunk idx enhanced_patterns
                                                            processed).
Proof.
  intros Hok. unfold _extract_requirements_from_chunk_enhanced.
  set (st := fold_left (on_type hash chunk idx) enhanced_patterns ([], processed)).
  assert (keys_ok hash before st) as Hst.
  { apply (fold_left_invariant (keys_ok hash before)); [|done].
    intros s tp _ Hs. unfold on_type.
    apply (fold_left_invariant (keys_ok hash before)); [|done].
    intros s' pattern _ Hs'. unfold on_pattern.
    apply (fold_left_invariant (keys_ok hash before)); [|done].
    intros s'' mt _ Hs''. by apply on_match_keys. }
  destruct st.1; [|done].
  apply (fold_left_invariant (keys_ok hash before)); [|done].
  intros s ientry _ Hs. by apply on_sentence_keys.
Qed.

Lemma on_chunk_keys st ic : keys_ok hash [] st → keys_ok hash [] (on_chunk hash st ic).
Proof.
  destruct st as [reqs processed], ic as [idx chunk]. intros Hok. unfold on_chunk.
  destruct (_ <? 50)%nat; [done|].
  assert (keys_ok hash reqs ([], processed)) as Hstart.
  { destruct Hok as [Hall Hnd]. simpl in *. split; simpl; by rewrite app_nil_r. }
  apply (extract_from_chunk_keys reqs chunk idx) in Hstart.
  destruct (_extract_requirements_from_chunk_enhanced _ _ _ _ _) as [extracted processed'].
  exact Hstart.
Qed.

(** The contents returned by one call are pairwise distinct, and so are
    their dedup keys, whatever the hash and the chunks. *)
Lemma extracted_contents_unique (text_chunks : list str) :
  NoDup (map (key_of hash) (extract_requirements hash text_chunks))
  ∧ NoDup (map r_content (extract_requirements hash text_chunks)).
Proof.
  assert (NoDup (map (key_of hash) (extract_requirements hash text_chunks))) as Hkeys.
  { unfold extract_requirements, sort_asc. rewrite sort_by_perm.
    assert (keys_ok hash [] (fold_left (on_chunk hash) (enumerate text_chunks) ([], ∅)))
      as [_ Hnd]; [|exact Hnd].
    apply (fold_left_invariant (keys_ok hash [])).
    - intros s ic _ Hs. by apply on_chunk_keys.
    - split; simpl; constructor. }
  split; [exact Hkeys|].
  unfold key_of in Hkeys.
  rewrite (list_fmap_compose r_content (content_hash hash)) in Hkeys.
  by apply NoDup_fmap_1 in Hkeys.
Qed.

End ContentsUnique.

(* ================================================================== *)
(** * Scenarios of the specification                                   *)
(* ================================================================== *)

(** Scenario A: the two chunks give two functional requirements with
    distinct ids. *)
Lemma scenario_A_requirements :
  map summary scenario_requirements
  = [ (txt "FUNCTIONAL_0_0", txt "functional", login_chunk);
      (txt "FUNCTIONAL_1_0", txt "functional", password_chunk) ].
Proof. vm_compute. reflexivity. Qed.

(** Scenario D: an entry that is not a record is left out of the mapping. *)
Lemma scenario_D_non_record_skipped :
  map_test_cases_to_requirements clock scenario_chunks
                                 [ENotDict; EDict login_test_case] scenario_requirements
  = Ok [login_mapping].
Proof. vm_compute. reflexivity. Qed.

(** The matcher on a text with three markers: the positions and captures
    are those of [re.finditer]. *)
Lemma finditer_markers :
  Regex.finditer (Regex.Cat (Regex.alts [Regex.lit "FR"; Regex.lit "functional requirement";
                                         Regex.lit "requirement"])
                            (Regex.Cat Regex.seps Regex.number))
                 (txt "fr-12. The Requirement 3.4 and functional requirement_7x")
  = [ {| Regex.m_start := 0; Regex.m_end := 6; Regex.m_group1 := Some (txt "12.") |};
      {| Regex.m_start := 11; Regex.m_end := 26; Regex.m_group1 := Some (txt "3.4") |};
      {| Regex.m_start := 31; Regex.m_end := 55; Regex.m_group1 := Some (txt "7") |} ].
Proof. vm_compute. reflexivity. Qed.

(* ================================================================== *)
(** * Further properties of the extractor                              *)
(* ================================================================== *)

Section LexOrder.

Lemma ltb_irrefl (a : str) : Text.ltb a a = false.
Proof. induction a as [|x a IH]; simpl; [done|]. by rewrite Nat.ltb_irrefl. Qed.

Lemma ltb_asym (a b : str) : Text.ltb a b = true → Text.ltb b a = false.
Proof.
  revert b. induction a as [|x a IH]; intros [|y b]; simpl; try done.
  destruct (Nat.ltb_spec (Text.code x) (Text.code y)),
           (Nat.ltb_spec (Text.code y) (Text.code x)); try done; try lia.
  apply IH.
Qed.

Lemma id_le_trans (a b c : str) : id_le a b → id_le b c → id_le a c.
Proof.
  unfold id_le. revert b c.
  induction a as [|x a IH]; intros [|y b] [|z c]; simpl; try done.
  destruct (Nat.ltb_spec (Text.code y) (Text.code x)),
           (Nat.ltb_spec (Text.code x) (Text.code y)),
           (Nat.ltb_spec (Text.code z) (Text.code y)),
           (Nat.ltb_spec (Text.code y) (Text.code z)),
           (Nat.ltb_spec (Text.code z) (Text.code x)),
           (Nat.ltb_spec (Text.code x) (Text.code z)); try done; try lia.
  apply IH.
Qed.

Context {A : Type} (key : A → str).

Lemma insert_asc_sorted (x : A) (l : list A) :
  StronglySorted (λ a b, id_le (key a) (key b)) l →
  StronglySorted (λ a b, id_le (key a) (key b))
                 (insert_by (λ y x, Text.ltb (key y) (key x)) x l).
Proof.
  induction l as [|y l IH]; intros Hl; simpl.
  - repeat constructor.
  - apply StronglySorted_inv in Hl as [Hl Hy].
    destruct (Text.ltb (key y) (key x)) eqn:Hyx.
    + constructor; [by apply IH|].
      rewrite insert_by_perm. constructor; [|done].
      by apply ltb_asym.
    + constructor; [by constructor|].
      constructor; [exact Hyx|].
      eapply Forall_impl; [exact Hy|]. intros z Hz.
      by apply (id_le_trans _ (key y)).
Qed.

Lemma sort_asc_sorted (l : list A) :
  StronglySorted (λ a b, id_le (key a) (key b)) (sort_asc key l).
Proof.
  unfold sort_asc. induction l as [|x l IH]; simpl; [constructor|].
  by apply insert_asc_sorted.
Qed.

End LexOrder.

Section Records.

Variable hash : str → Z.

Lemma determine_priority_name (content : str) :
  _determine_priority content ∈ priority_names.
Proof.
  unfold _determine_priority, priority_names.
  repeat match goal with |- context [if ?b then _ else _] => destruct b end;
    set_solver.
Qed.

Lemma categorize_requirement_name (content : str) :
  _categorize_requirement content ∈ category_names.
Proof.
  unfold _categorize_requirement, category_names.
  destruct (List.find _ categories) as [ck|] eqn:Hfind.
  - apply elem_of_app. left. apply find_some in Hfind as [Hin _].
    apply (list_elem_of_fmap_2 (λ ck : string * list string, txt ck.1)).
    by apply list_elem_of_In.
  - apply elem_of_app. right. apply list_elem_of_here.
Qed.

Lemma pattern_type_not_general (tp : str * list Regex.regex) :
  tp ∈ enhanced_patterns → tp.1 ∈ requirement_types ∧ tp.1 ≠ txt "general".
Proof.
  intros Htp. split.
  - unfold requirement_types. apply elem_of_app. left.
    by apply (list_elem_of_fmap_2 fst).
  - unfold enhanced_patterns in Htp.
    repeat (apply elem_of_cons in Htp as [->|Htp];
            [intros Heq; by vm_compute in Heq|]).
    by apply elem_of_nil in Htp.
Qed.

Lemma on_match_well_formed chunk idx tp st mt :
  tp ∈ enhanced_patterns →
  Forall (well_formed_at idx) st.1 →
  Forall (well_formed_at idx) (on_match hash chunk idx tp.1 st mt).1.
Proof.
  intros Htp Hst. destruct st as [reqs processed]. unfold on_match.
  case_bool_decide; [done|]. cbn [fst] in *.
  apply Forall_app. split; [done|]. constructor; [|constructor].
  destruct (pattern_type_not_general tp Htp) as [Hin Hne].
  unfold well_formed_at.
  cbn [r_validation_status r_type r_priority r_category r_content r_chunk_index].
  split; [done|]. split; [done|].
  split; [apply determine_priority_name|].
  split; [apply categorize_requirement_name|].
  split; [apply strip_idempotent|]. split; [done|]. done.
Qed.

Lemma on_sentence_well_formed idx st ientry :
  Forall (well_formed_at idx) st.1 →
  Forall (well_formed_at idx) (on_sentence hash idx st ientry).1.
Proof.
  intros Hst. destruct st as [reqs processed], ientry as [i sentence].
  unfold on_sentence.
  destruct (60 <? _)%nat eqn:Hlen; [|done].
  case_bool_decide; [done|]. cbn [fst] in *.
  apply Forall_app. split; [done|]. constructor; [|constructor].
  apply Nat.ltb_lt in Hlen.
  unfold well_formed_at.
  cbn [r_validation_status r_type r_priority r_category r_content r_chunk_index].
  split; [done|]. split.
  { unfold requirement_types. apply elem_of_app. right. apply list_elem_of_here. }
  split; [unfold priority_names; set_solver|].
  split.
  { unfold category_names. apply elem_of_app. right. apply list_elem_of_here. }
  split; [apply strip_idempotent|]. split; [done|]. done.
Qed.

Lemma extract_from_chunk_well_formed chunk idx processed :
  Forall (well_formed_at idx)
         (_extract_requirements_from_chunk_enhanced hash chunk idx enhanced_patterns
                                                    processed).1.
Proof.
  unfold _extract_requirements_from_chunk_enhanced.
  set (st := fold_left (on_type hash chunk idx) enhanced_patterns ([], processed)).
  assert (Forall (well_formed_at idx) st.1) as Hst.
  { apply (fold_left_invariant (λ st : ext_state, Forall (well_formed_at idx) st.1));
      [|constructor].
    intros s tp Htp Hs. unfold on_type.
    apply (fold_left_invariant (λ st : ext_state, Forall (well_formed_at idx) st.1));
      [|done].
    intros s' pattern _ Hs'. unfold on_pattern.
    apply (fold_left_invariant (λ st : ext_state, Forall (well_formed_at idx) st.1));
      [|done].
    intros s'' mt _ Hs''. by apply on_match_well_formed. }
  destruct st.1 as [|r rs] eqn:Hreqs; [|by rewrite Hreqs].
  apply (fold_left_invariant (λ st : ext_state, Forall (well_formed_at idx) st.1)).
  - intros s ientry _ Hs. by apply on_sentence_well_formed.
  - rewrite Hreqs. constructor.
Qed.

Lemma well_formed_at_chunk text_chunks idx chunk r :
  text_chunks !! idx = Some chunk → (50 ≤ length (Text.strip chunk))%nat →
  well_formed_at idx r → well_formed text_chunks r.
Proof.
  intros Hidx Hlen (H1 & H2 & H3 & H4 & H5 & H6 & H7).
  split; try done. exists chunk. by rewrite H6.
Qed.

Lemma on_chunk_well_formed text_chunks st ic :
  ic ∈ enumerate text_chunks →
  Forall (well_formed text_chunks) st.1 →
  Forall (well_formed text_chunks) (on_chunk hash st ic).1.
Proof.
  intros Hic Hst. destruct st as [reqs processed], ic as [idx chunk].
  unfold on_chunk.
  destruct (_ <? 50)%nat eqn:Hlen; [done|]. apply Nat.ltb_ge in Hlen.
  pose proof (extract_from_chunk_well_formed chunk idx processed) as Hex.
  destruct (_extract_requirements_from_chunk_enhanced _ _ _ _ _) as [extracted processed'].
  cbn [fst] in *. apply Forall_app. split; [done|].
  eapply Forall_impl; [exact Hex|]. intros r.
  apply enumerate_from_lookup in Hic as [_ Hic]. rewrite Nat.sub_0_r in Hic.
  by apply well_formed_at_chunk with chunk.
Qed.

Lemma extract_requirements_well_formed text_chunks :
  Forall (well_formed text_chunks) (extract_requirements hash text_chunks).
Proof.
  unfold extract_requirements, sort_asc. apply sort_by_Forall.
  apply (fold_left_invariant (λ st : ext_state, Forall (well_formed text_chunks) st.1));
    [|constructor].
  intros s ic Hic Hs. by apply on_chunk_well_formed.
Qed.

(** A chunk of fewer than 50 characters leaves the state as it is. *)
Lemma on_chunk_short st ic :
  (length (Text.strip ic.2) < 50)%nat → on_chunk hash st ic = st.
Proof.
  intros Hlen. destruct st as [reqs processed], ic as [idx chunk].
  unfold on_chunk. apply Nat.ltb_lt in Hlen. cbn [snd] in Hlen. by rewrite Hlen.
Qed.

End Records.

(** X1. One call of [extract_requirements] never returns two records with
    the same content, nor two with the same dedup key, whatever the hash
    function: the [processed_content] set is shared by all chunks. *)
Theorem X1_extracted_contents_distinct (hash : str → Z) (text_chunks : list str) :
  NoDup (map r_content (extract_requirements hash text_chunks))
  ∧ NoDup (map (key_of hash) (extract_requirements hash text_chunks)).
Proof.
  destruct (extracted_contents_unique hash text_chunks) as [Hkeys Hcontents].
  by split.
Qed.




(** X3. [extract_requirements] returns its records in non-decreasing order
    of their ids (the order of Python strings), and they are the records
    the chunk loop collected. *)
Theorem X3_extracted_sorted_by_id (hash : str → Z) (text_chunks : list str) :
  StronglySorted (λ a b, id_le (r_id a) (r_id b)) (extract_requirements hash text_chunks)
  ∧ extract_requirements hash text_chunks
    ≡ₚ (fold_left (on_chunk hash) (enumerate text_chunks) ([], ∅)).1.
Proof.
  split.
  - apply sort_asc_sorted.
  - apply sort_by_perm.
Qed.

(** X4. Every record of [extract_requirements] is well formed: its status
    is "pending"; its type, priority and category are among the names the
    module uses; its content is stripped; its chunk index points to a chunk
    of the input with at least 50 characters once stripped; and a record of
    the generic fallback has priority "medium", category "general" and a
    content of more than 60 characters. *)
Theorem X4_extracted_records_well_formed (hash : str → Z) (text_chunks : list str) :
  Forall (well_formed text_chunks) (extract_requirements hash text_chunks).
Proof. apply extract_requirements_well_formed. Qed.

(** X5. Chunks of fewer than 50 characters (after stripping) are skipped: a
    document that consists of such chunks only yields no requirement, also
    when they carry requirement markers. *)
Theorem X5_short_chunks_yield_nothing (hash : str → Z) (text_chunks : list str) :
  Forall (λ chunk, (length (Text.strip chunk) < 50)%nat) text_chunks →
  extract_requirements hash text_chunks = [].
Proof.
  intros Hshort. unfold extract_requirements.
  assert (fold_left (on_chunk hash) (enumerate text_chunks) ([], ∅) = ([], ∅)) as ->; [|done].
  apply (fold_left_invariant (λ st : ext_state, st = ([], ∅))); [|done].
  intros s ic Hic ->. apply on_chunk_short.
  destruct ic as [idx chunk]. apply enumerate_from_lookup in Hic as [_ Hic].
  rewrite Forall_forall in Hshort. apply Hshort.
  by apply list_elem_of_lookup_2 in Hic.
Qed.

Lemma X5_witness :
  extract_requirements injective_hash [txt "FR-1 The system shall allow login."] = [].
Proof.
  apply (X5_short_chunks_yield_nothing injective_hash
           [txt "FR-1 The system shall allow login."]).
  repeat constructor.
Defined.

(* ================================================================== *)
(** * Further properties of the lexical index                          *)
(* ================================================================== *)

Section Scores.

Lemma sort_by_map {A B : Type} (f : A → B) (skip : A → A → bool) (skip' : B → B → bool)
      (l : list A) :
  (∀ x y, skip' (f x) (f y) = skip x y) →
  sort_by skip' (map f l) = map f (sort_by skip l).
Proof.
  intros Hskip. induction l as [|x l IH]; simpl; [done|].
  rewrite IH. clear IH. induction (sort_by skip l) as [|y l' IH]; simpl; [done|].
  rewrite Hskip. destruct (skip y x); simpl; [by rewrite IH | done].
Qed.

Lemma filter_all {A : Type} (P : A → Prop) `{∀ x, Decision (P x)} (l : list A) :
  Forall P l → filter P l = l.
Proof.
  induction 1 as [|x l Hx Hl IH]; [done|].
  rewrite filter_cons_True by done. f_equal. exact IH.
Qed.

(** The list that [get_similarity_scores] sorts. *)
Lemma similarity_scores_unfold chunks query k :
  get_similarity_scores chunks query k
  = take k (sort_desc sc_similarity (map (score_record query) (enumerate chunks))).
Proof. destruct chunks; [by destruct k | reflexivity]. Qed.

Lemma similarity_scores_sorted chunks query k :
  StronglySorted scores_before (get_similarity_scores chunks query k).
Proof.
  rewrite similarity_scores_unfold. apply StronglySorted_take.
  apply sort_desc_sorted.
  apply (StronglySorted_fmap _ (λ a b : nat * str, (a.1 < b.1)%nat)).
  - by intros a b Hab.
  - apply enumerate_from_sorted.
Qed.

Lemma similarity_scores_sound chunks query k :
  Forall (λ r, chunks !! sc_index r = Some (sc_chunk r)
               ∧ sc_similarity r = similarity query (sc_chunk r))
         (get_similarity_scores chunks query k).
Proof.
  rewrite similarity_scores_unfold. apply Forall_take, sort_by_Forall.
  apply Forall_map, Forall_forall. intros [i c] Hic. simpl.
  apply enumerate_from_lookup in Hic as [_ Hl]. rewrite Nat.sub_0_r in Hl. done.
Qed.

Lemma similarity_scores_length chunks query k :
  length (get_similarity_scores chunks query k) = Nat.min k (length chunks).
Proof.
  rewrite similarity_scores_unfold, length_take. unfold sort_desc.
  rewrite sort_by_length, length_map. unfold enumerate.
  by rewrite enumerate_from_length.
Qed.

Lemma similarity_scores_all chunks query k :
  (length chunks ≤ k)%nat →
  map sc_chunk (get_similarity_scores chunks query k) ≡ₚ chunks.
Proof.
  intros Hk. rewrite similarity_scores_unfold.
  rewrite take_ge.
  - unfold sort_desc. rewrite sort_by_perm, <- list_fmap_compose.
    unfold enumerate. generalize 0%nat.
    induction chunks as [|c chunks IH]; intros n; simpl; [done|].
    constructor. apply IH. simpl in Hk. lia.
  - unfold sort_desc. rewrite sort_by_length, length_map. unfold enumerate.
    by rewrite enumerate_from_length.
Qed.

(** When every chunk has a token between it and the query, the scoring
    loop of [search] keeps every chunk. *)
Lemma candidates_all chunks query :
  Forall (scorable query) chunks →
  candidates chunks query
  = map (λ ic : nat * str, (similarity query ic.2, ic.1, ic.2)) (enumerate chunks).
Proof.
  intros Hall. unfold candidates. f_equal. apply filter_all.
  apply Forall_forall. intros [i c] Hic. simpl.
  apply enumerate_from_lookup in Hic as [_ Hl].
  rewrite Forall_forall in Hall. apply Hall. by apply list_elem_of_lookup_2 in Hl.
Qed.

Lemma scored_chunks_texts chunks query k :
  Forall (scorable query) chunks →
  map snd (take k (scored_chunks chunks query))
  = map sc_chunk (get_similarity_scores chunks query k).
Proof.
  intros Hall. rewrite similarity_scores_unfold.
  unfold scored_chunks. rewrite score_chunks_candidates, candidates_all by done.
  unfold sort_desc.
  rewrite (sort_by_map (λ ic : nat * str, (similarity query ic.2, ic.1, ic.2))
             (λ y x : nat * str, Qltb (similarity query x.2) (similarity query y.2)))
    by done.
  rewrite (sort_by_map (score_record query)
             (λ y x : nat * str, Qltb (similarity query x.2) (similarity query y.2)))
    by done.
  rewrite <- !fmap_take, <- !list_fmap_compose. done.
Qed.

(** A query with a token has a token between it and every chunk. *)
Lemma query_token_scorable query chunk :
  Text.findall_words (Text.lower query) ≠ [] → scorable query chunk.
Proof.
  intros Hne. unfold scorable, word_set. intros Hsize.
  apply size_empty_inv in Hsize.
  destruct (Text.findall_words (Text.lower query)) as [|w ws]; [done|].
  assert (w ∈ (list_to_set (w :: ws) ∪ list_to_set
                 (Text.findall_words (Text.lower chunk)) : gset str)) as Hw.
  { apply elem_of_union. left. apply elem_of_list_to_set. apply list_elem_of_here. }
  rewrite (Hsize w) in Hw. set_solver.
Qed.

(** The positions of the candidates are pairwise distinct. *)
Lemma scored_chunks_positions chunks query :
  NoDup (map (λ x : Q * nat * str, x.1.2) (scored_chunks chunks query)).
Proof.
  rewrite scored_chunks_perm.
  pose proof (candidates_sorted chunks query) as Hs.
  induction Hs as [|x l Hl IH Hx]; simpl; [constructor|].
  constructor; [|done].
  intros Hin. apply list_elem_of_fmap in Hin as (y & Heq & Hy).
  rewrite Forall_forall in Hx. specialize (Hx y Hy). lia.
Qed.

Lemma NoDup_take {A : Type} (l : list A) k : NoDup l → NoDup (take k l).
Proof.
  intros Hl. eapply sublist_NoDup; [exact Hl | apply sublist_take].
Qed.

End Scores.

(** X6. [get_similarity_scores] scores every chunk: it returns
    [min(top_k, len(chunks))] records, ranked by non-increasing similarity
    with ties in index order; each record holds the chunk at its index and
    the Jaccard similarity of the query and that chunk, a number in [0,1];
    and with [top_k >= len(chunks)] the chunks of the records are the
    chunks of the index, each once. *)
Theorem X6_similarity_scores_ranked (chunks : index) (query : str) (k : nat) :
  length (get_similarity_scores chunks query k) = Nat.min k (length chunks)
  ∧ StronglySorted scores_before (get_similarity_scores chunks query k)
  ∧ Forall (λ r, chunks !! sc_index r = Some (sc_chunk r)
                 ∧ sc_similarity r = similarity query (sc_chunk r)
                 ∧ in_unit (sc_similarity r))
           (get_similarity_scores chunks query k)
  ∧ ((length chunks ≤ k)%nat →
     map sc_chunk (get_similarity_scores chunks query k) ≡ₚ chunks).
Proof.
  split; [apply similarity_scores_length|].
  split; [apply similarity_scores_sorted|].
  split; [|apply similarity_scores_all].
  pose proof (similarity_scores_sound chunks query k) as Hsound.
  pose proof (get_similarity_scores_in_unit chunks query k) as Hunit.
  rewrite Forall_forall in Hsound, Hunit |- *. intros r Hr.
  destruct (Hsound r Hr) as [Hl Hs]. split; [done|]. split; [done|]. by apply Hunit.
Qed.

(** X7. When every chunk of the index has a token between it and the
    query (as is the case for every query that has a token), [search]
    returns the chunk texts of the records of [get_similarity_scores], in
    their order: the two entry points rank alike. *)
Theorem X7_search_agrees_with_scores (chunks : index) (query : str) (k : nat) :
  chunks ≠ [] →
  Forall (scorable query) chunks →
  search chunks query k = Ok (map sc_chunk (get_similarity_scores chunks query k)).
Proof.
  intros Hne Hall.
  assert (search chunks query k
          = Ok (match map snd (take k (scored_chunks chunks query)) with
                | [] => take k chunks
                | _ => map snd (take k (scored_chunks chunks query))
                end)) as ->.
  { destruct chunks; [done | reflexivity]. }
  rewrite scored_chunks_texts by done.
  destruct (map sc_chunk (get_similarity_scores chunks query k)) as [|c cs] eqn:Hres;
    [|done].
  apply (f_equal length) in Hres.
  rewrite length_map, similarity_scores_length in Hres. simpl in Hres.
  destruct chunks as [|c chunks]; [done|]. simpl in Hres.
  by destruct k.
Qed.

Lemma X7_witness :
  search scenario_chunks (txt "password") 2
  = Ok (map sc_chunk (get_similarity_scores scenario_chunks (txt "password") 2)).
Proof.
  apply (X7_search_agrees_with_scores scenario_chunks (txt "password") 2).
  - discriminate.
  - apply Forall_forall. intros c _. apply query_token_scorable. discriminate.
Defined.

(** X8. On a built index and for [top_k > 0], [search] never returns an
    empty list and never a text from outside the index: the results are
    the chunks at pairwise distinct positions of the index. *)
Theorem X8_search_returns_chunks (chunks : index) (query : str) (k : nat) :
  chunks ≠ [] → (0 < k)%nat →
  ∃ results positions,
    search chunks query k = Ok results
    ∧ results ≠ []
    ∧ NoDup positions
    ∧ Forall2 (λ i c, chunks !! i = Some c) positions results.
Proof.
  intros Hne Hk.
  assert (search chunks query k
          = Ok (match map snd (take k (scored_chunks chunks query)) with
                | [] => take k chunks
                | _ => map snd (take k (scored_chunks chunks query))
                end)) as ->.
  { destruct chunks; [done | reflexivity]. }
  destruct (take k (scored_chunks chunks query)) as [|x xs] eqn:Htake.
  - exists (take k chunks), (seq 0 (length (take k chunks))).
    split; [done|].
    split; [destruct chunks, k; simpl; (done || lia)|].
    split; [apply NoDup_seq|].
    apply Forall2_same_length_lookup. split; [by rewrite length_seq|].
    intros i j c Hj Hc. apply lookup_seq in Hj as [-> _].
    by apply lookup_take_Some in Hc as [Hc _].
  - exists (map snd (x :: xs)), (map (λ x : Q * nat * str, x.1.2) (x :: xs)).
    split; [done|]. split; [done|].
    split.
    + rewrite <- Htake, fmap_take. apply NoDup_take, scored_chunks_positions.
    + apply Forall2_fmap, Forall_Forall2_diag.
      rewrite <- Htake. apply Forall_take. rewrite scored_chunks_perm.
      eapply Forall_impl; [apply candidates_sound|]. by intros y (Hy & _).
Qed.

Lemma X8_witness :
  ∃ results positions,
    search separator_index tokenless_query 1 = Ok results
    ∧ results ≠ []
    ∧ NoDup positions
    ∧ Forall2 (λ i c, separator_index !! i = Some c) positions results.
Proof.
  apply (X8_search_returns_chunks separator_index tokenless_query 1).
  - discriminate.
  - lia.
Defined.

Section EmbedText.

Lemma lower_upper_char (c : ascii) :
  Text.lower_char (Text.upper_char c) = Text.lower_char c.
Proof.
  assert (forallb (λ c, bool_decide (Text.lower_char (Text.upper_char c) = Text.lower_char c))
                  all_ascii = true) as H by (vm_compute; reflexivity).
  apply (forallb_all_ascii _ c) in H. by apply bool_decide_eq_true_1 in H.
Qed.

Lemma lower_lower_char (c : ascii) :
  Text.lower_char (Text.lower_char c) = Text.lower_char c.
Proof.
  assert (forallb (λ c, bool_decide (Text.lower_char (Text.lower_char c) = Text.lower_char c))
                  all_ascii = true) as H by (vm_compute; reflexivity).
  apply (forallb_all_ascii _ c) in H. by apply bool_decide_eq_true_1 in H.
Qed.

Lemma lower_upper (s : str) : Text.lower (Text.upper s) = Text.lower s.
Proof.
  unfold Text.lower, Text.upper. rewrite <- list_fmap_compose.
  apply list_fmap_ext. intros _ c _. apply lower_upper_char.
Qed.

Lemma lower_lower (s : str) : Text.lower (Text.lower s) = Text.lower s.
Proof.
  unfold Text.lower. rewrite <- list_fmap_compose.
  apply list_fmap_ext. intros _ c _. apply lower_lower_char.
Qed.

End EmbedText.

(** X9. [embed_text] returns a number from 0 to 999 whatever the sign of
    the hash (Python's [%] follows the divisor), and for ASCII text it
    does not depend on the case of the text. *)
Theorem X9_embed_text_range (hash : str → Z) (text : str) :
  (0 ≤ Embedding.embed_text hash text < 1000)%Z
  ∧ (ascii_text text →
     Embedding.embed_text hash (Text.upper text) = Embedding.embed_text hash text
     ∧ Embedding.embed_text hash (Text.lower text) = Embedding.embed_text hash text).
Proof.
  unfold Embedding.embed_text. split; [|intros _; split].
  - apply Z.mod_pos_bound. lia.
  - by rewrite lower_upper.
  - by rewrite lower_lower.
Qed.

Lemma X9_witness :
  ascii_text (txt "User Login")
  ∧ Embedding.embed_text negated_length (txt "User Login") = 990%Z
  ∧ Embedding.embed_text negated_length (Text.upper (txt "User Login"))
    = Embedding.embed_text negated_length (txt "User Login").
Proof.
  assert (ascii_text (txt "User Login")) as Hascii.
  { unfold ascii_text. repeat constructor; vm_compute; lia. }
  split; [exact Hascii|]. split; [vm_compute; reflexivity|].
  exact (proj1 (proj2 (X9_embed_text_range negated_length (txt "User Login")) Hascii)).
Defined.

(* ================================================================== *)
(** * Further properties of the mapper                                 *)
(* ================================================================== *)

Section Matches.

Open Scope Q_scope.

Lemma retrieval_matching_from chunks text reqs threshold :
  Forall (match_from chunks text reqs threshold)
         (retrieval_matching chunks text reqs threshold).
Proof.
  unfold retrieval_matching. apply Forall_concat, Forall_map.
  eapply Forall_impl; [apply (similarity_scores_sound chunks text)|].
  intros s [Hl Hs]. cbv beta.
  destruct (Qltb threshold (sc_similarity s)) eqn:Hth; [|constructor].
  destruct (first_related (sc_chunk s) reqs) as [req|] eqn:Hrel; [|constructor].
  constructor; [|constructor].
  exists req, (sc_chunk s). apply Qltb_lt in Hth. rewrite Hs in Hth |- *.
  split.
  { unfold first_related in Hrel. apply find_some in Hrel as [Hin _].
    by apply list_elem_of_In. }
  split; [by apply list_elem_of_lookup_2 in Hl|]. done.
Qed.

(** The keys of [unique_matches] after one more match. *)
Lemma upsert_keys mt unique :
  map fst (upsert mt unique)
  = if decide (requirement_id mt ∈ map fst unique)
    then map fst unique else map fst unique ++ [requirement_id mt].
Proof.
  induction unique as [|[k old] unique IH]; cbn [upsert map fst].
  - rewrite decide_False; [done | apply not_elem_of_nil].
  - case_bool_decide as Hk.
    + rewrite decide_True by (rewrite Hk; apply list_elem_of_here).
      by destruct (Qltb _ _).
    + cbn [map fst]. rewrite IH.
      destruct (decide (requirement_id mt ∈ map fst unique)) as [Hin|Hin].
      * rewrite decide_True; [done | by apply list_elem_of_further].
      * rewrite decide_False; [done|].
        intros [Heq|Hin']%elem_of_cons; [by apply Hk | by apply Hin].
Qed.

Lemma upsert_keyed mt unique :
  Forall (λ kv : str * Match, kv.1 = requirement_id kv.2) unique →
  Forall (λ kv : str * Match, kv.1 = requirement_id kv.2) (upsert mt unique).
Proof.
  induction unique as [|[k old] unique IH]; intros Hall; simpl.
  - by repeat constructor.
  - apply Forall_cons in Hall as [Hold Hrest].
    case_bool_decide as Hk.
    + destruct (Qltb _ _); by constructor.
    + constructor; [done | by apply IH].
Qed.

Lemma upsert_NoDup mt unique : NoDup (map fst unique) → NoDup (map fst (upsert mt unique)).
Proof.
  intros Hnd. rewrite upsert_keys. destruct (decide _) as [Hin|Hin]; [done|].
  apply NoDup_app. split; [done|]. split; [|apply NoDup_singleton].
  intros k Hk ->%list_elem_of_singleton. by apply Hin.
Qed.

Lemma top_matches_distinct ms : NoDup (map requirement_id (top_matches ms)).
Proof.
  unfold top_matches. rewrite fmap_take. apply NoDup_take.
  unfold sort_desc. rewrite sort_by_perm.
  set (unique := fold_left (λ u mt, upsert mt u) ms []).
  assert (Forall (λ kv : str * Match, kv.1 = requirement_id kv.2) unique
          ∧ NoDup (map fst unique)) as [Hkeyed Hnd].
  { apply (fold_left_invariant
             (λ u, Forall (λ kv : str * Match, kv.1 = requirement_id kv.2) u
                   ∧ NoDup (map fst u))).
    - intros u mt _ [Hk Hn]. split; [by apply upsert_keyed | by apply upsert_NoDup].
    - split; constructor. }
  assert (requirement_id <$> map snd unique = map fst unique) as ->; [|done].
  clear -Hkeyed. induction Hkeyed as [|kv u Hkv _ IH]; [done|].
  cbn [map fmap list_fmap] in *. by rewrite IH, Hkv.
Qed.

Lemma StronglySorted_any {A : Type} (l : list A) : StronglySorted (λ _ _, True) l.
Proof.
  induction l as [|x l IH]; constructor; [done|].
  by apply Forall_forall.
Qed.

Lemma StronglySorted_weaken {A : Type} (R R' : A → A → Prop) (l : list A) :
  (∀ a b, R a b → R' a b) → StronglySorted R l → StronglySorted R' l.
Proof.
  intros HR. induction 1 as [|x l Hl IH Hx]; constructor; [done|].
  eapply Forall_impl; [exact Hx|]. intros y. apply HR.
Qed.

Lemma top_matches_sorted ms :
  StronglySorted (λ a b, similarity_score b <= similarity_score a) (top_matches ms).
Proof.
  unfold top_matches. apply StronglySorted_take.
  eapply StronglySorted_weaken;
    [|apply (sort_desc_sorted similarity_score (λ _ _, True)), StronglySorted_any].
  intros a b [Hlt|[Heq _]]; [by apply Qlt_le_weak | rewrite Heq; apply Qle_refl].
Qed.

Lemma find_matching_from chunks tc reqs threshold ms :
  _find_matching_requirements chunks tc reqs threshold = Ok ms →
  Forall (match_from chunks (composite_text tc) reqs threshold) ms
  ∧ NoDup (map requirement_id ms)
  ∧ StronglySorted (λ a b, similarity_score b <= similarity_score a) ms.
Proof.
  unfold _find_matching_requirements.
  destruct reqs as [|r reqs]; [intros [= <-]; repeat split; constructor|].
  destruct (composite_text tc) as [|c text] eqn:Htext;
    [intros [= <-]; repeat split; constructor|].
  simpl. intros [= <-]. split; [|split].
  - apply top_matches_Forall, retrieval_matching_from.
  - apply top_matches_distinct.
  - apply top_matches_sorted.
Qed.

Lemma match_from_id chunks text reqs threshold mt :
  match_from chunks text reqs threshold mt → requirement_id mt ∈ map r_id reqs.
Proof.
  intros (req & chunk & Hreq & _ & _ & _ & ->). simpl.
  by apply list_elem_of_fmap_2.
Qed.

End Matches.

Section Results.

Variable now : nat → str.

Lemma for_each_map_one chunks reqs itcs acc results :
  for_each (map_one now chunks reqs) itcs acc = Ok results →
  ∃ new, results = acc ++ new ∧ Forall2 (result_for now chunks reqs) itcs new.
Proof.
  revert acc. induction itcs as [|itc itcs IH]; intros acc; simpl.
  - intros [= <-]. exists []. by rewrite app_nil_r.
  - destruct (map_one now chunks reqs acc itc) as [acc'|] eqn:Hone; simpl; [|done].
    intros Hrun. apply map_one_inv in Hone as (ms & Hms & ->).
    destruct (IH _ Hrun) as (new & -> & Hnew).
    eexists (_ :: new). rewrite <- app_assoc. split; [reflexivity|].
    constructor; [|done]. by exists ms.
Qed.

Lemma map_results_follow chunks tcs reqs results :
  map_test_cases_to_requirements now chunks tcs reqs = Ok results →
  Forall2 (result_for now chunks reqs) (enumerate (valid_test_cases tcs)) results.
Proof.
  unfold map_test_cases_to_requirements. intros Hrun.
  by destruct (for_each_map_one _ _ _ _ _ Hrun) as (new & -> & Hnew).
Qed.

End Results.

Lemma login_matches_run :
  _find_matching_requirements scenario_chunks login_test_case scenario_requirements
                              default_threshold
  = Ok (mapped_requirements login_mapping).
Proof. vm_compute. reflexivity. Qed.

(** X10. The matches the mapper keeps for a test case have pairwise
    distinct requirement ids and are in order of non-increasing score;
    each is built from a requirement of the list, namely the first one
    whose content contains, or is contained in, a chunk of the index whose
    similarity to the test content exceeds the threshold, and its score is
    that similarity. *)
Theorem X10_matches_distinct_and_ranked (chunks : index) (tc : TestCase)
        (reqs : list Requirement) (threshold : Q) (ms : list Match) :
  _find_matching_requirements chunks tc reqs threshold = Ok ms →
  Forall (match_from chunks (composite_text tc) reqs threshold) ms
  ∧ NoDup (map requirement_id ms)
  ∧ StronglySorted (λ a b, (similarity_score b <= similarity_score a)%Q) ms
  ∧ Forall (λ mt, requirement_id mt ∈ map r_id reqs) ms.
Proof.
  intros Hms. destruct (find_matching_from _ _ _ _ _ Hms) as (Hfrom & Hnd & Hsorted).
  split; [done|]. split; [done|]. split; [done|].
  eapply Forall_impl; [exact Hfrom|]. intros mt. apply match_from_id.
Qed.

Lemma X10_witness :
  NoDup (map requirement_id (mapped_requirements login_mapping))
  ∧ Forall (λ mt, requirement_id mt ∈ map r_id scenario_requirements)
           (mapped_requirements login_mapping).
Proof.
  destruct (X10_matches_distinct_and_ranked scenario_chunks login_test_case
              scenario_requirements default_threshold
              (mapped_requirements login_mapping) login_matches_run)
    as (_ & Hnd & _ & Hids).
  split; [exact Hnd | exact Hids].
Defined.

(** X11. The mapper returns one result per record entry of the test-case
    list, in the order of the list: the [n]-th result carries the id and
    title of the [n]-th record, the matches found for it, the confidence
    computed from them and the [n]-th reading of the clock; entries that
    are not records leave no gap. *)
Theorem X11_results_follow_test_cases (now : nat → str) (chunks : index)
        (tcs : list entry) (reqs : list Requirement) (results : list MappingResult) :
  map_test_cases_to_requirements now chunks tcs reqs = Ok results →
  Forall2 (result_for now chunks reqs) (enumerate (valid_test_cases tcs)) results
  ∧ map test_case_id results = map tc_id (valid_test_cases tcs)
  ∧ map test_case_title results = map tc_title (valid_test_cases tcs).
Proof.
  intros Hrun. pose proof (map_results_follow now _ _ _ _ Hrun) as Hall.
  split; [done|].
  assert (∀ n valid,
            Forall2 (result_for now chunks reqs) (enumerate_from n valid) results →
            map test_case_id results = map tc_id valid
            ∧ map test_case_title results = map tc_title valid) as Hmaps; [|by apply Hmaps in Hall].
  clear. intros n valid. revert n results.
  induction valid as [|tc valid IH]; intros n results Hall; simpl in Hall.
  - by apply Forall2_nil_inv_l in Hall as ->.
  - apply Forall2_cons_inv_l in Hall as (r & rest & (ms & _ & ->) & Hrest & ->).
    destruct (IH _ _ Hrest) as [Hids Htitles]. simpl. by rewrite Hids, Htitles.
Qed.

Lemma X11_witness :
  map test_case_id [login_mapping] = map tc_id (valid_test_cases [ENotDict; EDict login_test_case]).
Proof.
  exact (proj1 (proj2 (X11_results_follow_test_cases clock scenario_chunks
                         [ENotDict; EDict login_test_case] scenario_requirements
                         [login_mapping] scenario_D_non_record_skipped))).
Defined.

(* ================================================================== *)
(** * Further properties of the traceability matrix                    *)
(* ================================================================== *)

Section MatrixViews.

Implicit Types (maps : gmap str (list (option str))).

Lemma joined_fields_text tc :
  (text_fields tc = true → ∃ text, joined_fields_lower tc = Ok text)
  ∧ (text_fields tc = false → joined_fields_lower tc = Raise TypeError).
Proof.
  unfold text_fields, joined_fields_lower.
  destruct (tc_title tc) as [[?|?|? ?]|], (tc_description tc) as [[?|?|? ?]|],
           (tc_steps tc) as [[?|?|? ?]|], (tc_query tc) as [[?|?|? ?]|];
    simpl; split; intros H; try done; by eexists.
Qed.

Lemma find_mapped_text tc srs :
  (text_fields tc = true → ∃ ids, _find_mapped_requirements tc srs = Ok ids)
  ∧ (text_fields tc = false → _find_mapped_requirements tc srs = Raise TypeError).
Proof.
  unfold _find_mapped_requirements.
  destruct (joined_fields_text tc) as [Hok Hraise]. split; intros H.
  - destruct (Hok H) as [text ->]. simpl. by eexists.
  - by rewrite (Hraise H).
Qed.

Lemma find_mapped_NoDup tc srs ids :
  _find_mapped_requirements tc srs = Ok ids → NoDup ids.
Proof.
  unfold _find_mapped_requirements.
  destruct (joined_fields_lower tc) as [text|]; simpl; [|done].
  intros [= <-]. apply (fold_left_invariant (λ acc : list str, NoDup acc)).
  - intros acc req _ Hacc. cbv beta zeta.
    match goal with |- context [if ?b then _ else acc] => destruct b end; [|done].
    case_bool_decide as Hin; [done|].
    apply NoDup_app. split; [done|]. split; [|apply NoDup_singleton].
    intros id Hid ->%list_elem_of_singleton. by apply Hin.
  - destruct (tc_requirement_id tc) as [[|c e]|]; try constructor; [|constructor].
    apply not_elem_of_nil.
Qed.

Lemma fold_on_mapped_id tc ids (st : matrix_state) :
  NoDup ids →
  (fold_left (on_mapped_id tc) ids st).1.2 = st.1.2
  ∧ ∀ id, default [] ((fold_left (on_mapped_id tc) ids st).2 !! id)
          = default [] (st.2 !! id) ++ (if decide (id ∈ ids) then [tc_id tc] else []).
Proof.
  revert st. induction ids as [|req_id ids IH]; intros st Hnd; cbn [fold_left].
  - split; [done|]. intros id. rewrite decide_False by apply not_elem_of_nil.
    by rewrite app_nil_r.
  - apply NoDup_cons in Hnd as [Hfresh Hnd].
    destruct (IH (on_mapped_id tc st req_id) Hnd) as [Htcs Hmaps].
    destruct st as [[reqs tcs] maps]. split; [by rewrite Htcs|].
    intros id. rewrite Hmaps. unfold on_mapped_id. cbn [snd].
    destruct (decide (id = req_id)) as [->|Hne].
    + rewrite lookup_insert_eq. cbn [default].
      rewrite decide_False by done.
      rewrite decide_True by apply list_elem_of_here. by rewrite app_nil_r.
    + rewrite lookup_insert_ne by done.
      destruct (decide (id ∈ ids)) as [Hin|Hin].
      * rewrite decide_True; [done | by apply list_elem_of_further].
      * rewrite decide_False; [done|].
        intros [?|?]%elem_of_cons; done.
Qed.

Lemma for_each_on_test_case srs tcs (st st' : matrix_state) :
  for_each (on_test_case srs) tcs st = Ok st' →
  st'.1.2 = st.1.2 ++ map (expected_entry srs) tcs
  ∧ ∀ id, default [] (st'.2 !! id)
          = default [] (st.2 !! id)
            ++ map tc_id (filter (λ tc, id ∈ mapped_ids srs tc) tcs).
Proof.
  revert st. induction tcs as [|tc tcs IH]; intros st; cbn [for_each].
  - intros [= <-]. split; [by rewrite app_nil_r|]. intros id. by rewrite app_nil_r.
  - destruct (on_test_case srs st tc) as [st1|] eqn:Hone; cbn [mbind result_bind]; [|done].
    intros Hrun. destruct (IH _ Hrun) as [Htcs Hmaps]. clear IH Hrun.
    unfold on_test_case in Hone.
    destruct (_find_mapped_requirements tc srs) as [ids|] eqn:Hids;
      cbn [mbind result_bind] in Hone; [|done].
    destruct (fold_on_mapped_id tc ids st (find_mapped_NoDup _ _ _ Hids)) as [Hf1 Hf2].
    destruct (fold_left (on_mapped_id tc) ids st) as [[reqs1 tcs1] maps1].
    injection Hone as <-. cbn [fst snd] in *.
    assert (mapped_ids srs tc = ids) as Hmapped by (unfold mapped_ids; by rewrite Hids).
    split.
    + rewrite Htcs, Hf1, <- app_assoc. cbn [map app]. unfold expected_entry.
      by rewrite Hmapped.
    + intros id. rewrite Hmaps, Hf2, <- app_assoc. f_equal.
      rewrite filter_cons, Hmapped.
      destruct (decide (id ∈ ids)); done.
Qed.

Lemma on_test_case_text srs tc (st : matrix_state) :
  (text_fields tc = true → ∃ st', on_test_case srs st tc = Ok st')
  ∧ (text_fields tc = false → on_test_case srs st tc = Raise TypeError).
Proof.
  destruct (find_mapped_text tc srs) as [Hok Hraise]. unfold on_test_case.
  split; intros H.
  - destruct (Hok H) as [ids ->]. cbn [mbind result_bind].
    destruct (fold_left (on_mapped_id tc) ids st) as [[reqs1 tcs1] maps1]. by eexists.
  - by rewrite (Hraise H).
Qed.

Lemma for_each_on_test_case_text srs tcs (st : matrix_state) :
  (forallb text_fields tcs = true → ∃ st', for_each (on_test_case srs) tcs st = Ok st')
  ∧ (forallb text_fields tcs = false →
     for_each (on_test_case srs) tcs st = Raise TypeError).
Proof.
  revert st. induction tcs as [|tc tcs IH]; intros st; cbn [for_each forallb].
  - split; [by eexists | done].
  - destruct (on_test_case_text srs tc st) as [Hok Hraise].
    destruct (text_fields tc) eqn:Htext; cbn [andb].
    + destruct (Hok eq_refl) as [st1 ->]. cbn [mbind result_bind]. apply IH.
    + rewrite (Hraise eq_refl). cbn [mbind result_bind]. split; done.
Qed.

End MatrixViews.

Lemma listed_steps_rejected :
  forallb text_fields [login_test_case; listed_steps_test_case] = false.
Proof. reflexivity. Qed.

(** X12. [generate_matrix] returns a matrix exactly when the title,
    description, steps and query of every test case are strings or absent;
    otherwise the [" ".join] of [_find_mapped_requirements] raises
    [TypeError] at the first test case with another value.  The mapper
    accepts every such list: it converts list and other values itself. *)
Theorem X12_matrix_needs_text_fields (now : str) (clock : nat → str) (chunks : index)
        (srs : list Requirement) (tcs : list TestCase) :
  (forallb text_fields tcs = true → ∃ matrix, generate_matrix now srs tcs = Ok matrix)
  ∧ (forallb text_fields tcs = false → generate_matrix now srs tcs = Raise TypeError)
  ∧ ∃ results, map_test_cases_to_requirements clock chunks (map EDict tcs) srs = Ok results.
Proof.
  destruct (for_each_on_test_case_text srs tcs (map req_entry srs, [], ∅)) as [Hok Hraise].
  unfold generate_matrix. split; [|split].
  - intros H. destruct (Hok H) as [st ->]. by eexists.
  - intros H. by rewrite (Hraise H).
  - apply map_total.
Qed.

Lemma X12_witness :
  generate_matrix clock0 scenario_requirements [login_test_case; listed_steps_test_case]
  = Raise TypeError.
Proof.
  exact (proj1 (proj2 (X12_matrix_needs_text_fields clock0 clock scenario_chunks
                         scenario_requirements [login_test_case; listed_steps_test_case]))
               listed_steps_rejected).
Defined.

(** X13. In the matrix that [generate_matrix] returns, [test_cases] holds
    one entry per test case, in order, with the defaults for absent keys
    and the requirement ids collected for it, each id once; the metadata
    holds the two input lengths; and the requirement entries are as many
    as the requirements. *)
Theorem X13_matrix_test_case_entries (now : str) (srs : list Requirement)
        (tcs : list TestCase) (matrix : Matrix) :
  generate_matrix now srs tcs = Ok matrix →
  test_cases matrix = map (expected_entry srs) tcs
  ∧ Forall (λ e, NoDup (requirement_mappings e)) (test_cases matrix)
  ∧ metadata matrix = {| generation_date := now;
                         total_requirements := length srs;
                         total_test_cases := length tcs |}
  ∧ length (requirements matrix) = length srs.
Proof.
  intros Hgen. pose proof (generate_matrix_ok _ _ _ _ Hgen) as [Hids _ _ _ _].
  unfold generate_matrix in Hgen.
  destruct (for_each (on_test_case srs) tcs (map req_entry srs, [], ∅)) as [st|] eqn:Hrun;
    cbn [mbind result_bind] in Hgen; [|done].
  injection Hgen as <-. cbn [test_cases metadata requirements fst snd] in *.
  destruct (for_each_on_test_case _ _ _ _ Hrun) as [Htcs _]. cbn [fst snd app] in Htcs.
  split; [done|]. split; [|split; [done|]].
  - rewrite Htcs. apply Forall_map, Forall_forall. intros tc _.
    cbn [requirement_mappings expected_entry]. unfold mapped_ids.
    destruct (_find_mapped_requirements tc srs) as [ids|] eqn:Hfound; [|constructor].
    by eapply find_mapped_NoDup.
  - apply (f_equal length) in Hids. by rewrite !length_map in Hids.
Qed.

Lemma X13_witness :
  ∃ matrix, generate_matrix clock0 scenario_requirements [login_test_case] = Ok matrix
            ∧ test_cases matrix = map (expected_entry scenario_requirements) [login_test_case].
Proof.
  destruct login_matrix_generated as (matrix & Hgen & _).
  exists matrix. split; [exact Hgen|].
  exact (proj1 (X13_matrix_test_case_entries clock0 scenario_requirements
                  [login_test_case] matrix Hgen)).
Defined.

Lemma matrix_views (now : str) (srs : list Requirement) (tcs : list TestCase)
      (matrix : Matrix) (id : str) :
  generate_matrix now srs tcs = Ok matrix →
  default [] (mappings matrix !! id)
  = map tc_id (filter (λ tc, id ∈ mapped_ids srs tc) tcs)
  ∧ (is_Some (mappings matrix !! id) ↔ ∃ tc, tc ∈ tcs ∧ id ∈ mapped_ids srs tc).
Proof.
  intros Hgen.
  pose proof (generate_matrix_ok _ _ _ _ Hgen) as [_ _ Hnonempty _ _].
  cbn [fst snd] in Hnonempty.
  unfold generate_matrix in Hgen.
  destruct (for_each (on_test_case srs) tcs (map req_entry srs, [], ∅)) as [st|] eqn:Hrun;
    cbn [mbind result_bind] in Hgen; [|done].
  injection Hgen as <-. cbn [mappings] in *.
  destruct (for_each_on_test_case _ _ _ _ Hrun) as [_ Hmaps]. cbn [fst snd] in Hmaps.
  specialize (Hmaps id). rewrite lookup_empty in Hmaps. simpl in Hmaps.
  split; [done|]. split.
  - intros [l Hl]. rewrite Hl in Hmaps. simpl in Hmaps.
    specialize (Hnonempty id l Hl).
    destruct (filter (λ tc, id ∈ mapped_ids srs tc) tcs) as [|tc rest] eqn:Hfilter;
      [by subst l|].
    assert (tc ∈ filter (λ tc, id ∈ mapped_ids srs tc) tcs) as Htc
      by (rewrite Hfilter; apply list_elem_of_here).
    apply list_elem_of_filter in Htc as [Hid Htc]. by exists tc.
  - intros (tc & Htc & Hid).
    destruct (st.2 !! id) as [l|] eqn:Hl; [by eexists|].
    simpl in Hmaps. symmetry in Hmaps. apply fmap_nil_inv in Hmaps.
    assert (tc ∈ filter (λ tc, id ∈ mapped_ids srs tc) tcs) as Hin
      by (by apply list_elem_of_filter).
    rewrite Hmaps in Hin. by apply elem_of_nil in Hin.
Qed.

(** X14. The two views of the matrix agree: [mappings[id]] lists the ids
    of exactly the test cases whose [requirement_mappings] contain [id], in
    the order of the test cases and each once; an id that no test case
    maps to has no list.  When the requirement ids are pairwise distinct,
    a requirement entry is therefore covered exactly when some test case
    maps to its id, and its [test_case_count] is the number of those test
    cases. *)
Theorem X14_matrix_views_agree (now : str) (srs : list Requirement)
        (tcs : list TestCase) (matrix : Matrix) :
  generate_matrix now srs tcs = Ok matrix →
  (∀ id,
     default [] (mappings matrix !! id)
     = map tc_id (filter (λ tc, id ∈ mapped_ids srs tc) tcs)
     ∧ (is_Some (mappings matrix !! id) ↔ ∃ tc, tc ∈ tcs ∧ id ∈ mapped_ids srs tc))
  ∧ (NoDup (map r_id srs) →
     Forall (λ e, test_case_count e
                  = length (filter (λ tc, e_id e ∈ mapped_ids srs tc) tcs)
                  ∧ (covered e = true ↔ ∃ tc, tc ∈ tcs ∧ e_id e ∈ mapped_ids srs tc))
            (requirements matrix)).
Proof.
  intros Hgen. split; [intros id; by eapply matrix_views|].
  intros Hnd.
  pose proof (generate_matrix_ok _ _ _ _ Hgen) as [_ _ _ _ Hcounted].
  cbn [fst snd] in Hcounted.
  eapply Forall_impl; [exact (Hcounted Hnd)|].
  intros e [Hcount Hcovered].
  destruct (matrix_views now srs tcs matrix (e_id e) Hgen) as [Hlist Hsome].
  split.
  - by rewrite Hcount, Hlist, length_map.
  - by rewrite Hcovered, Hsome.
Qed.

Lemma X14_witness :
  ∃ matrix, generate_matrix clock0 scenario_requirements [login_test_case] = Ok matrix
            ∧ default [] (mappings matrix !! txt "FR-1")
              = map tc_id (filter (λ tc, txt "FR-1" ∈ mapped_ids scenario_requirements tc)
                                  [login_test_case]).
Proof.
  destruct login_matrix_generated as (matrix & Hgen & _).
  exists matrix. split; [exact Hgen|].
  exact (proj1 (proj1 (X14_matrix_views_agree clock0 scenario_requirements
                         [login_test_case] matrix Hgen) (txt "FR-1"))).
Defined.

(* ================================================================== *)
(** * Further properties of the coverage statistics                    *)
(* ================================================================== *)

Section Tally.

Context {A : Type} (key : A → str) (cov : A → bool).

Lemma tally_nil k : tally key cov k [] = (0, 0)%nat.
Proof. done. Qed.

Lemma tally_cons k x l :
  tally key cov k (x :: l)
  = if decide (key x = k)
    then (S (tally key cov k l).1,
          if cov x then S (tally key cov k l).2 else (tally key cov k l).2)
    else tally key cov k l.
Proof.
  unfold tally. rewrite !filter_cons.
  destruct (decide (key x = k)) as [Hk|Hk].
  - destruct (cov x) eqn:Hc.
    + rewrite decide_True by done. done.
    + rewrite decide_False by (intros [_ ?]; done). done.
  - rewrite decide_False by (intros [? _]; done). done.
Qed.

Lemma tally_le k l : ((tally key cov k l).2 ≤ (tally key cov k l).1)%nat.
Proof.
  induction l as [|x l IH]; [done|]. rewrite tally_cons.
  destruct (decide (key x = k)); [|done]. destruct (cov x); cbn [fst snd]; lia.
Qed.

Lemma tally_occurs k l : k ∈ map key l ↔ (tally key cov k l).1 ≠ 0%nat.
Proof.
  induction l as [|x l IH].
  - split; [by intros ?%elem_of_nil | done].
  - rewrite tally_cons. cbn [map]. rewrite elem_of_cons. destruct (decide (key x = k)) as [Hk|Hk]; cbn [fst snd].
    + split; [done | by left].
    + rewrite <- IH. split; [by intros [?|?] | by right].
Qed.

Lemma tally_fold l acc k :
  fold_left (tally_step key cov) l acc !! k
  = if decide ((tally key cov k l).1 = 0%nat) then acc !! k
    else Some (((default (0, 0) (acc !! k)).1 + (tally key cov k l).1)%nat,
               ((default (0, 0) (acc !! k)).2 + (tally key cov k l).2)%nat).
Proof.
  revert acc. induction l as [|x l IH]; intros acc; cbn [fold_left].
  - by rewrite tally_nil.
  - rewrite IH, tally_cons. clear IH. unfold tally_step.
    destruct (decide (key x = k)) as [Hk|Hk]; cbn [fst snd].
    + rewrite Hk. destruct (default (0, 0)%nat (acc !! k)) as [t c] eqn:Hacc.
      rewrite lookup_insert_eq. cbn [default from_option id fst snd].
      rewrite (decide_False (P := S _ = 0%nat)) by done.
      destruct (decide ((tally key cov k l).1 = 0%nat)) as [Hz|Hz].
      * pose proof (tally_le k l) as Hle. rewrite Hz in Hle |- *.
        assert ((tally key cov k l).2 = 0%nat) as -> by lia.
        do 2 f_equal; try lia; destruct (cov x); lia.
      * do 2 f_equal; try lia; destruct (cov x); lia.
    + destruct (default (0, 0)%nat (acc !! key x)) as [t c].
      by rewrite lookup_insert_ne.
Qed.

Lemma tally_table l k :
  fold_left (tally_step key cov) l ∅ !! k
  = if decide (k ∈ map key l) then Some (tally key cov k l) else None.
Proof.
  rewrite tally_fold, lookup_empty. cbn [default from_option id fst snd].
  destruct (decide ((tally key cov k l).1 = 0%nat)) as [Hz|Hz].
  - rewrite decide_False; [done|]. by intros ?%tally_occurs.
  - rewrite decide_True by (by rewrite tally_occurs).
    by destruct (tally key cov k l).
Qed.

End Tally.

Section Stats.

Open Scope Q_scope.

Lemma count_by_table (key : ReqEntry → str) entries k :
  count_by key entries !! k
  = if decide (k ∈ map key entries) then Some (tally key covered k entries) else None.
Proof. apply (tally_table key covered). Qed.

Lemma breakdown_table_count_by key entries :
  breakdown_table key entries (breakdown <$> count_by key entries).
Proof.
  intros k. rewrite lookup_fmap, count_by_table. by destruct (decide _).
Qed.

Lemma filter_split_length {A : Type} (f : A → bool) (l : list A) :
  (length (filter (λ x, f x = true) l) + length (filter (λ x, f x = false) l)
   = length l)%nat.
Proof.
  induction l as [|x l IH]; [done|]. rewrite !filter_cons.
  destruct (f x) eqn:Hf.
  - rewrite decide_True, decide_False by done. simpl. lia.
  - rewrite decide_False, decide_True by done. simpl. lia.
Qed.

Lemma distribution_fold (tcs : list TcEntry) (acc : gmap str nat) (k : str) :
  default 0%nat
    (fold_left (λ acc tc, <[t_type tc := (default 0 (acc !! t_type tc) + 1)%nat]> acc)
               tcs acc !! k)
  = (default 0 (acc !! k) + length (filter (λ tc, t_type tc = k) tcs))%nat.
Proof.
  revert acc. induction tcs as [|tc tcs IH]; intros acc; cbn [fold_left].
  - simpl. lia.
  - rewrite IH, filter_cons. destruct (decide (t_type tc = k)) as [->|Hne].
    + rewrite lookup_insert_eq. simpl. lia.
    + by rewrite lookup_insert_ne.
Qed.

End Stats.

Section GeneratedStats.

Lemma filter_length_Forall2 {A B : Type} (P : A → Prop) (Q : B → Prop)
      `{∀ a, Decision (P a)} `{∀ b, Decision (Q b)} (l : list A) (k : list B) :
  Forall2 (λ a b, P a ↔ Q b) l k → length (filter P l) = length (filter Q k).
Proof.
  induction 1 as [|a b l k Hab _ IH]; [done|]. rewrite !filter_cons.
  destruct (decide (P a)) as [Ha|Ha], (decide (Q b)) as [Hb|Hb]; simpl;
    try (by rewrite IH); exfalso; tauto.
Qed.

Lemma Forall2_same_keys {A B K : Type} (f : A → K) (g : B → K) (l : list A) (k : list B) :
  map f l = map g k → Forall2 (λ a b, f a = g b) l k.
Proof.
  revert k. induction l as [|a l IH]; intros [|b k]; simpl; try done.
  intros [= Hab Hrest]. constructor; [done | by apply IH].
Qed.

Lemma Forall2_and_Forall {A B : Type} (P : A → Prop) (R : A → B → Prop)
      (l : list A) (k : list B) :
  Forall P l → Forall2 R l k → Forall2 (λ a b, P a ∧ R a b) l k.
Proof.
  intros HP HR. induction HR as [|a b l k Hab _ IH]; [constructor|].
  apply Forall_cons in HP as [Ha HP]. constructor; [done | by apply IH].
Qed.

(** In a generated matrix over distinct requirement ids the covered
    entries are those of the requirements some test case maps to. *)
Lemma generated_covered_count now srs tcs matrix :
  generate_matrix now srs tcs = Ok matrix → NoDup (map r_id srs) →
  length (filter (λ e, covered e = true) (requirements matrix))
  = length (filter (λ req, Exists (λ tc, r_id req ∈ mapped_ids srs tc) tcs) srs).
Proof.
  intros Hgen Hnd.
  pose proof (generate_matrix_ok _ _ _ _ Hgen) as [Hids _ _ _ Hcounted].
  cbn [fst snd] in Hids, Hcounted. specialize (Hcounted Hnd).
  apply filter_length_Forall2.
  eapply Forall2_impl;
    [apply (Forall2_and_Forall _ _ _ _ Hcounted (Forall2_same_keys _ _ _ _ Hids))|].
  intros e req [[_ Hcovered] Hid]. cbv beta in Hid.
  destruct (matrix_views now srs tcs matrix (e_id e) Hgen) as [_ Hsome].
  rewrite Hcovered, Hsome, Hid, Exists_exists. done.
Qed.

End GeneratedStats.

(** X15. In the statistics of a matrix the covered and the uncovered
    requirements add up to the total, and [uncovered_requirements] lists
    the first ten uncovered entries in matrix order, each with its id and
    the first 100 characters of its content followed by "...".  For a
    matrix that [generate_matrix] built over pairwise distinct requirement
    ids, the covered count is the number of requirements that some test
    case maps to. *)
Theorem X15_stats_totals (matrix : Matrix) (stats : Stats) :
  calculate_coverage_stats (Some matrix) = Some stats →
  (o_covered_requirements (overall_coverage stats)
   + o_uncovered_requirements (overall_coverage stats)
   = o_total_requirements (overall_coverage stats))%nat
  ∧ o_uncovered_requirements (overall_coverage stats)
    = length (filter (λ req, covered req = false) (requirements matrix))
  ∧ uncovered_requirements stats
    = map (λ req, uncovered_entry (e_id req) (e_content req))
          (take 10 (filter (λ req, covered req = false) (requirements matrix)))
  ∧ length (uncovered_requirements stats)
    = Nat.min 10 (o_uncovered_requirements (overall_coverage stats))
  ∧ (∀ now srs tcs,
       generate_matrix now srs tcs = Ok matrix → NoDup (map r_id srs) →
       o_covered_requirements (overall_coverage stats)
       = length (filter (λ req, Exists (λ tc, r_id req ∈ mapped_ids srs tc) tcs) srs)).
Proof.
  intros [= <-].
  cbn [overall_coverage o_covered_requirements o_uncovered_requirements
       o_total_requirements uncovered_requirements].
  pose proof (filter_split_length covered (requirements matrix)) as Hsplit.
  split; [lia|]. split; [lia|].
  split; [by rewrite fmap_take|].
  split; [rewrite length_take, length_map; lia|].
  intros now srs tcs Hgen Hnd. by apply (generated_covered_count now).
Qed.

Lemma X15_witness :
  ∃ matrix stats,
    generate_matrix clock0 scenario_requirements [login_test_case] = Ok matrix
    ∧ calculate_coverage_stats (Some matrix) = Some stats
    ∧ (o_covered_requirements (overall_coverage stats)
       + o_uncovered_requirements (overall_coverage stats)
       = o_total_requirements (overall_coverage stats))%nat.
Proof.
  destruct login_matrix_generated as (matrix & Hgen & _).
  exists matrix. eexists. split; [exact Hgen|]. split; [reflexivity|].
  exact (proj1 (X15_stats_totals matrix _ eq_refl)).
Defined.

(** X16. The tables [coverage_by_type] and [coverage_by_priority] hold an
    entry exactly for the types and priorities that occur among the
    requirement entries; the entry counts the entries with that key and
    the covered ones among them, so that covered never exceeds total, and
    its percentage lies between 0 and 100.  [test_case_distribution] counts
    the test cases of each type. *)
Theorem X16_stats_breakdowns (matrix : Matrix) (stats : Stats) :
  calculate_coverage_stats (Some matrix) = Some stats →
  breakdown_table e_type (requirements matrix) (coverage_by_type stats)
  ∧ breakdown_table e_priority (requirements matrix) (coverage_by_priority stats)
  ∧ (∀ k b, coverage_by_type stats !! k = Some b ∨ coverage_by_priority stats !! k = Some b →
            (0 < b_total b)%nat ∧ (b_covered b ≤ b_total b)%nat
            ∧ (0 <= b_percentage b)%Q ∧ (b_percentage b <= 100)%Q)
  ∧ (∀ k, default 0%nat (test_case_distribution stats !! k)
          = length (filter (λ tc, t_type tc = k) (test_cases matrix))).
Proof.
  intros [= <-]. cbn [coverage_by_type coverage_by_priority test_case_distribution].
  pose proof (breakdown_table_count_by e_type (requirements matrix)) as Htype.
  pose proof (breakdown_table_count_by e_priority (requirements matrix)) as Hprio.
  split; [done|]. split; [done|]. split.
  - assert (∀ key k b,
              (if decide (k ∈ map key (requirements matrix))
               then Some (breakdown (tally key covered k (requirements matrix)))
               else None) = Some b →
              (0 < b_total b)%nat ∧ (b_covered b ≤ b_total b)%nat
              ∧ (0 <= b_percentage b)%Q ∧ (b_percentage b <= 100)%Q) as Hrow.
    { intros key k b. destruct (decide _) as [Hin|]; [|done]. intros [= <-].
      apply (tally_occurs key covered) in Hin.
      pose proof (tally_le key covered k (requirements matrix)) as Hle.
      cbn [breakdown b_total b_covered b_percentage].
      split; [lia|]. split; [done|]. by apply percentage_range. }
    intros k b [Hb|Hb].
    + rewrite Htype in Hb. by apply Hrow in Hb.
    + rewrite Hprio in Hb. by apply Hrow in Hb.
  - intros k. rewrite distribution_fold, lookup_empty. done.
Qed.

Lemma X16_witness :
  ∃ matrix stats,
    generate_matrix clock0 scenario_requirements [login_test_case] = Ok matrix
    ∧ calculate_coverage_stats (Some matrix) = Some stats
    ∧ breakdown_table e_type (requirements matrix) (coverage_by_type stats).
Proof.
  destruct login_matrix_generated as (matrix & Hgen & _).
  exists matrix. eexists. split; [exact Hgen|]. split; [reflexivity|].
  exact (proj1 (X16_stats_breakdowns matrix _ eq_refl)).
Defined.

(* ================================================================== *)
(** * The coverage report of the mapper                                *)
(* ================================================================== *)

Section Report.

Import CoverageReport.

Open Scope Q_scope.

Lemma report_percentage_range (covered_n total_n : nat) :
  (covered_n ≤ total_n)%nat →
  0 <= report_percentage covered_n total_n ∧ report_percentage covered_n total_n <= 100.
Proof. apply percentage_range. Qed.

(** A set of elements of a duplicate-free list has as many elements as
    the list has members of the set. *)
Lemma size_subset_filter (ids : list str) (S : gset str) :
  NoDup ids → S ⊆ list_to_set ids → size S = length (filter (λ id, id ∈ S) ids).
Proof.
  intros Hnd Hsub.
  assert (S = list_to_set (filter (λ id, id ∈ S) ids)) as Heq.
  { apply set_eq. intros id. rewrite elem_of_list_to_set, list_elem_of_filter.
    split; [|by intros [? _]]. intros Hid. split; [done|].
    apply Hsub in Hid. by apply elem_of_list_to_set in Hid. }
  rewrite Heq at 1. apply size_list_to_set. by apply NoDup_filter.
Qed.

Lemma filter_map_length {A B : Type} (f : A → B) (P : B → Prop) `{∀ y, Decision (P y)}
      (l : list A) :
  length (filter P (map f l)) = length (filter (λ x, P (f x)) l).
Proof.
  induction l as [|x l IH]; [done|]. cbn [map]. rewrite !filter_cons.
  destruct (decide (P (f x))); simpl; by rewrite IH.
Qed.

Lemma filter_complement_length {A : Type} (P : A → Prop) `{∀ x, Decision (P x)}
      (l : list A) :
  (length (filter P l) + length (filter (λ x, ¬ P x) l) = length l)%nat.
Proof.
  induction l as [|x l IH]; [done|]. rewrite !filter_cons.
  destruct (decide (P x)).
  - rewrite decide_False by (by intros ?). simpl. lia.
  - rewrite decide_True by done. simpl. lia.
Qed.

(** The ids the mapper reports are ids of the requirement list. *)
Lemma covered_ids_sub results (ids : list str) :
  Forall (λ r, Forall (λ mt, requirement_id mt ∈ ids) (mapped_requirements r)) results →
  covered_ids results ⊆ list_to_set ids.
Proof.
  unfold covered_ids.
  induction 1 as [|r results Hr _ IH]; cbn [map concat]; [set_solver|].
  rewrite list_to_set_app. apply union_subseteq. split; [|exact IH].
  intros id Hid. apply elem_of_list_to_set in Hid.
  apply list_elem_of_fmap in Hid as (mt & -> & Hmt).
  apply elem_of_list_to_set. rewrite Forall_forall in Hr. by apply Hr.
Qed.

Lemma covered_ids_from (clock : nat → str) chunks tcs reqs results :
  map_test_cases_to_requirements clock chunks tcs reqs = Ok results →
  covered_ids results ⊆ list_to_set (map r_id reqs).
Proof.
  intros Hrun. apply covered_ids_sub.
  eapply (map_results_forall clock); [|exact Hrun].
  intros n tc ms _ Hms. cbn [mapped_requirements].
  apply find_matching_from in Hms as [Hfrom _].
  eapply Forall_impl; [exact Hfrom|]. intros mt. apply match_from_id.
Qed.

Lemma category_table (covered_requirements : gset str) requirements k :
  (category_row <$> count_categories covered_requirements requirements) !! k
  = if decide (k ∈ map r_category requirements)
    then Some (category_row
                 (tally r_category (λ req, bool_decide (r_id req ∈ covered_requirements))
                        k requirements))
    else None.
Proof.
  rewrite lookup_fmap.
  assert (count_categories covered_requirements requirements !! k
          = if decide (k ∈ map r_category requirements)
            then Some (tally r_category
                             (λ req, bool_decide (r_id req ∈ covered_requirements))
                             k requirements)
            else None) as ->.
  { apply (tally_table r_category
                       (λ req, bool_decide (r_id req ∈ covered_requirements))). }
  by destruct (decide _).
Qed.

End Report.

Lemma scenario_ids_distinct : NoDup (map r_id scenario_requirements).
Proof.
  assert (map r_id scenario_requirements = [txt "FUNCTIONAL_0_0"; txt "FUNCTIONAL_1_0"]) as ->
    by (vm_compute; reflexivity).
  apply NoDup_cons. split; [|apply NoDup_singleton].
  intros H%list_elem_of_singleton. discriminate H.
Qed.

(** X17. For the results of the mapper over a requirement list with
    pairwise distinct ids, the coverage report is consistent: the covered
    and the uncovered requirements add up to the total, the covered count
    is the number of requirements some result mentions, the percentage
    lies between 0 and 100, and [uncovered_list] holds the first ten
    uncovered requirements with the first 100 characters of their content
    followed by "...". *)
Theorem X17_coverage_report_consistent (now : str) (clock : nat → str) (chunks : index)
        (tcs : list entry) (reqs : list Requirement) (results : list MappingResult) :
  NoDup (map r_id reqs) →
  map_test_cases_to_requirements clock chunks tcs reqs = Ok results →
  let report := CoverageReport.generate_coverage_report now reqs results in
  (CoverageReport.rep_covered_requirements report
   + CoverageReport.rep_uncovered_requirements report
   = CoverageReport.rep_total_requirements report)%nat
  ∧ CoverageReport.rep_covered_requirements report
    = length (filter (λ req, r_id req ∈ CoverageReport.covered_ids results) reqs)
  ∧ (0 <= CoverageReport.rep_coverage_percentage report)%Q
  ∧ (CoverageReport.rep_coverage_percentage report <= 100)%Q
  ∧ CoverageReport.rep_uncovered_list report
    = map (λ req, uncovered_entry (r_id req) (r_content req))
          (take 10 (filter (λ req, r_id req ∉ CoverageReport.covered_ids results) reqs)).
Proof.
  intros Hnd Hrun report.
  pose proof (covered_ids_from clock _ _ _ _ Hrun) as Hsub.
  pose proof (size_subset_filter _ _ Hnd Hsub) as Hsize.
  rewrite (filter_map_length r_id (λ id, id ∈ CoverageReport.covered_ids results)) in Hsize.
  pose proof (filter_complement_length
                (λ req, r_id req ∈ CoverageReport.covered_ids results) reqs) as Hsplit.
  cbv beta in Hsplit.
  unfold report, CoverageReport.generate_coverage_report.
  cbn [CoverageReport.rep_covered_requirements CoverageReport.rep_uncovered_requirements
       CoverageReport.rep_total_requirements CoverageReport.rep_coverage_percentage
       CoverageReport.rep_uncovered_list].
  split; [lia|]. split; [done|].
  split; [|split; [|done]]; apply report_percentage_range; lia.
Qed.

Lemma X17_witness :
  let report := CoverageReport.generate_coverage_report clock0 scenario_requirements
                                                        [login_mapping] in
  (CoverageReport.rep_covered_requirements report
   + CoverageReport.rep_uncovered_requirements report
   = CoverageReport.rep_total_requirements report)%nat.
Proof.
  exact (proj1 (X17_coverage_report_consistent clock0 clock scenario_chunks
                  [EDict login_test_case] scenario_requirements [login_mapping]
                  scenario_ids_distinct login_mapping_run)).
Defined.

(** X18. [coverage_by_category] of the coverage report holds a row exactly
    for the categories that occur among the requirements; the row counts
    the requirements of the category and those among them whose id some
    result mentions, so that covered never exceeds total, and its
    percentage lies between 0 and 100. *)
Theorem X18_coverage_by_category (now : str) (reqs : list Requirement)
        (results : list MappingResult) (k : str) :
  let report := CoverageReport.generate_coverage_report now reqs results in
  let counts :=
    tally r_category (λ req, bool_decide (r_id req ∈ CoverageReport.covered_ids results))
          k reqs in
  CoverageReport.rep_coverage_by_category report !! k
  = (if decide (k ∈ map r_category reqs) then Some (category_row counts) else None)
  ∧ (counts.2 ≤ counts.1)%nat
  ∧ (0 <= CoverageReport.cat_percentage (category_row counts))%Q
  ∧ (CoverageReport.cat_percentage (category_row counts) <= 100)%Q.
Proof.
  intros report counts.
  pose proof (tally_le r_category
                (λ req, bool_decide (r_id req ∈ CoverageReport.covered_ids results))
                k reqs) as Hle.
  split; [apply category_table|]. split; [done|].
  by apply report_percentage_range.
Qed.

(* ================================================================== *)
(** * Cleaning and chunking                                            *)
(* ================================================================== *)

Section Trimming.

Lemma Forall_rev_list {A : Type} (P : A → Prop) (l : list A) :
  Forall P l → Forall P (rev l).
Proof.
  rewrite !Forall_forall. intros H x Hx. apply H.
  apply list_elem_of_In. apply in_rev. by apply list_elem_of_In.
Qed.

Lemma lstrip_Forall (P : ascii → Prop) (s : str) : Forall P s → Forall P (Text.lstrip s).
Proof.
  induction 1 as [|c s Hc Hs IH]; simpl; [constructor|].
  destruct (Text.is_space c); [done | by constructor].
Qed.

Lemma strip_Forall (P : ascii → Prop) (s : str) : Forall P s → Forall P (Text.strip s).
Proof.
  intros H. unfold Text.strip, Text.rstrip.
  by apply Forall_rev_list, lstrip_Forall, Forall_rev_list, lstrip_Forall.
Qed.

Lemma strip_trimmed (s : str) : trimmed (Text.strip s).
Proof.
  unfold trimmed, Text.strip, Text.rstrip.
  set (u := Text.lstrip s).
  assert (starts_solid u) as Hu by apply lstrip_solid.
  destruct (lstrip_suffix (rev u)) as (sp & Heq & Hsp).
  set (t := Text.lstrip (rev u)) in *.
  split.
  - apply (f_equal (λ l : str, rev l)) in Heq. simpl in Heq.
    rewrite rev_involutive, rev_app_distr in Heq.
    destruct (rev t) as [|c t'] eqn:Ht; [done|].
    rewrite Heq in Hu. exact Hu.
  - rewrite rev_involutive. apply lstrip_solid.
Qed.

Lemma trimmed_strip (s : str) : trimmed s → Text.strip s = s.
Proof.
  intros [H1 H2]. unfold Text.strip, Text.rstrip.
  rewrite (lstrip_id s H1), (lstrip_id (rev s) H2). apply rev_involutive.
Qed.

Lemma starts_solid_app (a b : str) : a ≠ [] → starts_solid a → starts_solid (a ++ b).
Proof. by destruct a. Qed.

Lemma trimmed_app (a sep b : str) :
  a ≠ [] → b ≠ [] → trimmed a → trimmed b → trimmed (a ++ sep ++ b).
Proof.
  intros Ha Hb [Ha1 Ha2] [Hb1 Hb2]. split.
  - by apply starts_solid_app.
  - rewrite !rev_app_distr, <- app_assoc. apply starts_solid_app; [|done].
    intros Hrev. apply Hb. apply (f_equal (λ l : str, rev l)) in Hrev.
    by rewrite rev_involutive in Hrev.
Qed.

(** A word without white space is trimmed. *)
Lemma word_trimmed (w : str) :
  Forall (λ c, Text.is_space c = false) w → trimmed w.
Proof.
  intros Hw. split.
  - destruct Hw; [done | by simpl].
  - apply Forall_rev_list in Hw. destruct Hw; [done | by simpl].
Qed.

Lemma runs_aux_pieces (p : ascii → bool) (Q : ascii → Prop) (cur s : str) :
  Forall (λ c, p c = true ∧ Q c) cur → Forall Q s →
  Forall (λ w, w ≠ [] ∧ Forall (λ c, p c = true ∧ Q c) w) (Text.runs_aux p cur s).
Proof.
  intros Hcur Hs. revert cur Hcur.
  induction Hs as [|c s Hc Hs IH]; intros cur Hcur; simpl.
  - destruct cur as [|x cur]; [constructor|].
    constructor; [|constructor]. split.
    + intros Hrev. apply (f_equal (λ l : str, rev l)) in Hrev.
      by rewrite rev_involutive in Hrev.
    + by apply Forall_rev_list.
  - destruct (p c) eqn:Hp.
    + apply IH. by constructor.
    + destruct cur as [|x cur]; [by apply IH|].
      constructor; [|by apply IH].
      split.
      * intros Hrev. apply (f_equal (λ l : str, rev l)) in Hrev.
        by rewrite rev_involutive in Hrev.
      * by apply Forall_rev_list.
Qed.

Lemma split_ws_words (Q : ascii → Prop) (s : str) :
  Forall Q s →
  Forall (λ w, w ≠ [] ∧ Forall (λ c, Text.is_space c = false ∧ Q c) w) (Text.split_ws s).
Proof.
  intros Hs. unfold Text.split_ws, Text.runs.
  eapply Forall_impl; [apply (runs_aux_pieces _ Q); [constructor | exact Hs]|].
  intros w [Hne Hw]. split; [done|].
  eapply Forall_impl; [exact Hw|]. intros c [Hc HQ]. split; [|done].
  by apply negb_true_iff in Hc.
Qed.

Lemma split_punct_aux_pieces (cur : str) (in_delim : bool) (s : str) :
  no_sentence_end cur →
  Forall no_sentence_end (Text.split_punct_aux cur in_delim s).
Proof.
  revert cur in_delim. induction s as [|c s IH]; intros cur in_delim Hcur; simpl.
  - destruct in_delim; repeat constructor. by apply Forall_rev_list.
  - destruct (Text.is_sentence_end c) eqn:Hc.
    + destruct in_delim; [apply IH; constructor|].
      constructor; [by apply Forall_rev_list | apply IH; constructor].
    + apply IH. by constructor.
Qed.

Lemma split_punct_pieces (s : str) : Forall no_sentence_end (Text.split_punct s).
Proof. apply split_punct_aux_pieces. constructor. Qed.

End Trimming.

Section Chunking.

Import Preprocessing.

(** After the collapse of white space the only white space left is the
    plain space. *)
Lemma collapse_ws_aux_plain (in_ws : bool) (s : str) :
  Forall (λ c, Text.is_space c = true → c = " "%char) (collapse_ws_aux in_ws s).
Proof.
  revert in_ws. induction s as [|c s IH]; intros in_ws; simpl; [constructor|].
  destruct (Text.is_space c) eqn:Hc.
  - destruct in_ws; [apply IH|]. constructor; [done | apply IH].
  - constructor; [|apply IH]. intros H. congruence.
Qed.

Lemma newline_is_space (c : ascii) : is_newline c = true → Text.is_space c = true.
Proof.
  unfold is_newline, Text.is_space. intros H%Nat.eqb_eq. by rewrite H.
Qed.

Lemma collapse_ws_no_newline (s : str) :
  Forall (λ c, is_newline c = false) (collapse_ws s).
Proof.
  eapply Forall_impl; [apply (collapse_ws_aux_plain false)|].
  intros c Hc. destruct (is_newline c) eqn:Hn; [|done].
  by rewrite (Hc (newline_is_space c Hn)) in Hn.
Qed.

(** A text without newline is one paragraph. *)
Lemma split_paragraphs_aux_one (cur s : str) :
  Forall (λ c, is_newline c = false) s →
  split_paragraphs_aux cur s = [rev cur ++ s].
Proof.
  intros Hs. revert cur. induction Hs as [|c s Hc Hs IH]; intros cur.
  - simpl. by rewrite app_nil_r.
  - cbn [split_paragraphs_aux]. destruct s as [|d s'].
    + done.
    + rewrite Hc. cbn [andb]. rewrite IH. simpl. by rewrite <- app_assoc.
Qed.

Lemma split_paragraphs_normalized (text : str) :
  split_paragraphs (normalized text) = [normalized text].
Proof.
  unfold split_paragraphs. rewrite split_paragraphs_aux_one; [done|].
  apply strip_Forall, collapse_ws_no_newline.
Qed.

Lemma split_into_chunks_unfold (text : str) (chunk_size : nat) :
  split_into_chunks text chunk_size
  = (chunks ← add_paragraph chunk_size [] (normalized text);
     Ok (filter (λ chunk, (20 < length (Text.strip chunk))%nat) chunks)).
Proof.
  unfold split_into_chunks. fold (normalized text).
  rewrite split_paragraphs_normalized. cbn [for_each].
  by destruct (add_paragraph chunk_size [] (normalized text)).
Qed.

Lemma normalized_stripped (text : str) : Text.strip (normalized text) = normalized text.
Proof. apply strip_idempotent. Qed.

End Chunking.

(** X19. White space is collapsed before the split on blank lines, so the
    text is always one paragraph: a normalized text of fewer than 30
    characters yields no chunk, and one of at least 30 and at most
    [chunk_size] characters yields exactly one chunk, the normalized text
    itself. *)
Theorem X19_text_is_one_paragraph (text : str) (chunk_size : nat) :
  Preprocessing.split_paragraphs (normalized text) = [normalized text]
  ∧ ((length (normalized text) < 30)%nat →
     Preprocessing.split_into_chunks text chunk_size = Ok [])
  ∧ ((30 ≤ length (normalized text))%nat → (length (normalized text) ≤ chunk_size)%nat →
     Preprocessing.split_into_chunks text chunk_size = Ok [normalized text]).
Proof.
  split; [apply split_paragraphs_normalized|].
  rewrite split_into_chunks_unfold. unfold Preprocessing.add_paragraph.
  rewrite normalized_stripped. split.
  - intros Hlen. apply Nat.ltb_lt in Hlen. by rewrite Hlen.
  - intros Hlo Hhi.
    assert ((length (normalized text) <? 30)%nat = false) as -> by (by apply Nat.ltb_ge).
    apply Nat.leb_le in Hhi. rewrite Hhi. cbn [mbind result_bind app].
    rewrite filter_cons_True; [done|]. rewrite normalized_stripped. lia.
Qed.

Section ChunkLoop.

Import Preprocessing.

Lemma add_sentence_cases chunk_size st sentence :
  (∃ st', add_sentence chunk_size st sentence = Ok st')
  ∨ ((chunk_size < 10)%nat ∧ add_sentence chunk_size st sentence = Raise zero_step).
Proof.
  unfold add_sentence. destruct st as [chunks current_chunk].
  destruct (Text.strip sentence) as [|c s]; [left; by eexists|].
  destruct (chunk_size <? _)%nat; [|left; by eexists].
  destruct current_chunk as [|x current_chunk]; [|left; by eexists].
  destruct (chunk_size / 10 =? 0)%nat eqn:Hstep; [|left; by eexists].
  right. split; [|done]. apply Nat.eqb_eq in Hstep.
  apply Nat.div_small_iff in Hstep; lia.
Qed.

Lemma for_each_cases {S A : Type} (step : S → A → result S) (xs : list A) (st : S)
      (e : exn) (Q : Prop) :
  (∀ s x, (∃ s', step s x = Ok s') ∨ (Q ∧ step s x = Raise e)) →
  (∃ st', for_each step xs st = Ok st') ∨ (Q ∧ for_each step xs st = Raise e).
Proof.
  intros Hstep. revert st. induction xs as [|x xs IH]; intros st; cbn [for_each].
  - left. by eexists.
  - destruct (Hstep st x) as [[s' ->]|[HQ ->]]; cbn [mbind result_bind]; [apply IH|].
    by right.
Qed.

Lemma add_paragraph_cases chunk_size chunks paragraph :
  (∃ chunks', add_paragraph chunk_size chunks paragraph = Ok chunks')
  ∨ ((chunk_size < 10)%nat ∧ add_paragraph chunk_size chunks paragraph = Raise zero_step).
Proof.
  unfold add_paragraph.
  destruct (_ <? 30)%nat; [left; by eexists|].
  destruct (_ <=? chunk_size)%nat; [left; by eexists|].
  destruct (for_each_cases (add_sentence chunk_size)
              (Text.split_punct (Text.strip paragraph)) (chunks, []) zero_step
              (chunk_size < 10)%nat (add_sentence_cases chunk_size))
    as [[st ->]|[Hlt ->]]; cbn [mbind result_bind]; [left; by eexists | by right].
Qed.

Lemma split_into_chunks_cases text chunk_size :
  (∃ chunks, split_into_chunks text chunk_size = Ok chunks)
  ∨ ((chunk_size < 10)%nat ∧ split_into_chunks text chunk_size = Raise zero_step).
Proof.
  rewrite split_into_chunks_unfold.
  destruct (add_paragraph_cases chunk_size [] (normalized text)) as [[chunks ->]|[Hlt ->]];
    cbn [mbind result_bind]; [left; by eexists | by right].
Qed.

(** ** The shape of the chunks *)

Lemma space_no_sentence_end : no_sentence_end (txt " ").
Proof. by repeat constructor. Qed.

Lemma join_words (g : list str) :
  g ≠ [] →
  Forall (λ w, w ≠ [] ∧ Forall (λ c, Text.is_space c = false
                                      ∧ Text.is_sentence_end c = false) w) g →
  Text.join (txt " ") g ≠ [] ∧ good_chunk (Text.join (txt " ") g).
Proof.
  intros Hne Hall. induction Hall as [|w g [Hw Hchars] Hall IH]; [done|].
  assert (trimmed w ∧ no_sentence_end w) as [Htrim Hpunct].
  { split; [apply word_trimmed|]; (eapply Forall_impl; [exact Hchars|]); by intros c [? ?]. }
  destruct g as [|w' g]; [done|].
  destruct (IH ltac:(done)) as [Hne' [Htrim' Hpunct']].
  change (Text.join (txt " ") (w :: w' :: g))
    with (w ++ txt " " ++ Text.join (txt " ") (w' :: g)).
  split; [by destruct w|]. split.
  - by apply trimmed_app.
  - unfold no_sentence_end. rewrite !Forall_app. split; [done|].
    split; [apply space_no_sentence_end | done].
Qed.

Lemma groups_of_nonempty (P : str → Prop) fuel n (words : list str) :
  (0 < n)%nat → Forall P words →
  Forall (λ g, g ≠ [] ∧ Forall P g) (groups_of fuel n words).
Proof.
  intros Hn. revert words. induction fuel as [|fuel IH]; intros words Hwords; simpl;
    [constructor|].
  destruct words as [|w words]; [constructor|].
  constructor; [|apply IH; by apply Forall_drop].
  split; [by destruct n; [lia|] | by apply Forall_take].
Qed.

Lemma add_sentence_good chunk_size st sentence st' :
  no_sentence_end sentence →
  Forall good_chunk st.1 → good_chunk st.2 →
  add_sentence chunk_size st sentence = Ok st' →
  Forall good_chunk st'.1 ∧ good_chunk st'.2.
Proof.
  intros Hsentence Hchunks Hcurrent. unfold add_sentence.
  destruct st as [chunks current_chunk]. cbn [fst snd] in *.
  assert (good_chunk (Text.strip sentence)) as Hgood.
  { split; [apply strip_trimmed | by apply strip_Forall]. }
  destruct (Text.strip sentence) as [|c s] eqn:Hstrip; [by intros [= <-]|].
  destruct (chunk_size <? _)%nat.
  - destruct current_chunk as [|x current_chunk].
    + destruct (chunk_size / 10 =? 0)%nat eqn:Hstep; [done|]. intros [= <-].
      cbn [fst snd]. split; [|done].
      apply Forall_app. split; [done|]. apply Forall_map.
      apply Nat.eqb_neq in Hstep.
      eapply Forall_impl;
        [apply (groups_of_nonempty
                  (λ w, w ≠ [] ∧ Forall (λ c, Text.is_space c = false
                                              ∧ Text.is_sentence_end c = false) w));
         [change (0 < chunk_size / 10)%nat; lia | apply split_ws_words, Hgood]|].
      intros g [Hg Hwords]. by apply join_words.
    + intros [= <-]. cbn [fst snd]. split; [|done].
      apply Forall_app. split; [done|]. constructor; [|constructor].
      destruct Hcurrent as [_ Hpunct].
      split; [apply strip_trimmed | by apply strip_Forall].
  - intros [= <-]. cbn [fst snd]. split; [done|].
    destruct current_chunk as [|x current_chunk]; [done|].
    destruct Hcurrent as [Htrim Hpunct], Hgood as [Htrim' Hpunct'].
    split.
    + by apply (trimmed_app (x :: current_chunk) (txt " ") (c :: s)).
    + change (no_sentence_end ((x :: current_chunk) ++ txt " " ++ c :: s)).
      unfold no_sentence_end. rewrite !Forall_app. split; [done|].
      split; [apply space_no_sentence_end | done].
Qed.

Lemma add_paragraph_good chunk_size paragraph chunks :
  (chunk_size < length (Text.strip paragraph))%nat →
  add_paragraph chunk_size [] paragraph = Ok chunks →
  Forall good_chunk chunks.
Proof.
  intros Hlong. unfold add_paragraph.
  destruct (_ <? 30)%nat; [by intros [= <-]|].
  assert ((length (Text.strip paragraph) <=? chunk_size)%nat = false) as ->
    by (apply Nat.leb_gt; lia).
  destruct (for_each (add_sentence chunk_size) _ _) as [st|] eqn:Hrun;
    cbn [mbind result_bind]; [|done].
  assert (Forall good_chunk st.1 ∧ good_chunk st.2) as [Hchunks Hcurrent].
  { eapply (for_each_invariant (λ st, Forall good_chunk st.1 ∧ good_chunk st.2));
      [| |exact Hrun].
    - intros s sentence s' Hin [H1 H2] Hstep.
      eapply add_sentence_good; [|exact H1|exact H2|exact Hstep].
      pose proof (split_punct_pieces (Text.strip paragraph)) as Hpieces.
      rewrite Forall_forall in Hpieces. by apply Hpieces.
    - split; [constructor|]. split; [done | constructor]. }
  intros [= <-]. destruct st.2 as [|x current]; [done|].
  apply Forall_app. split; [done|]. constructor; [|constructor].
  destruct Hcurrent as [_ Hpunct].
  split; [apply strip_trimmed | by apply strip_Forall].
Qed.

Lemma split_into_chunks_good text chunk_size chunks :
  split_into_chunks text chunk_size = Ok chunks →
  Forall (λ c, Text.strip c = c ∧ (20 < length c)%nat) chunks
  ∧ ((chunk_size < length (normalized text))%nat → Forall no_sentence_end chunks).
Proof.
  rewrite split_into_chunks_unfold.
  destruct (add_paragraph chunk_size [] (normalized text)) as [all|] eqn:Hpar;
    cbn [mbind result_bind]; [|done].
  intros [= <-].
  assert (Forall trimmed all) as Htrim.
  { destruct (decide (chunk_size < length (normalized text))%nat) as [Hlong|Hshort].
    - rewrite <- normalized_stripped in Hlong.
      eapply Forall_impl; [by eapply add_paragraph_good|]. by intros c [? _].
    - unfold add_paragraph in Hpar. rewrite normalized_stripped in Hpar.
      destruct (_ <? 30)%nat; [injection Hpar as <-; constructor|].
      assert ((length (normalized text) <=? chunk_size)%nat = true) as Hle
        by (apply Nat.leb_le; lia).
      rewrite Hle in Hpar. injection Hpar as <-.
      constructor; [apply strip_trimmed | constructor]. }
  split.
  - apply Forall_forall. intros c Hc. apply list_elem_of_filter in Hc as [Hlen Hc].
    rewrite Forall_forall in Htrim.
    rewrite (trimmed_strip c (Htrim c Hc)) in Hlen. split; [|done].
    by apply trimmed_strip, Htrim.
  - intros Hlong. rewrite <- normalized_stripped in Hlong.
    apply Forall_forall. intros c Hc. apply list_elem_of_filter in Hc as [_ Hc].
    pose proof (add_paragraph_good _ _ _ Hlong Hpar) as Hgood.
    rewrite Forall_forall in Hgood. by apply Hgood.
Qed.

End ChunkLoop.

Lemma tiny_chunk_size_run :
  Preprocessing.split_into_chunks unpunctuated_text 9
  = Raise (ValueError (txt "range() arg 3 must not be zero")).
Proof. vm_compute. reflexivity. Qed.

(** X20. [split_into_chunks] returns for every text when [chunk_size] is at
    least 10.  The only exception it can raise is the [ValueError] of
    [range] for a step of 0, and only for a [chunk_size] below 10. *)
Theorem X20_chunking_total (text : str) (chunk_size : nat) :
  ((10 ≤ chunk_size)%nat → ∃ chunks, Preprocessing.split_into_chunks text chunk_size = Ok chunks)
  ∧ (∀ e, Preprocessing.split_into_chunks text chunk_size = Raise e →
          (chunk_size < 10)%nat
          ∧ e = ValueError (txt "range() arg 3 must not be zero")).
Proof.
  destruct (split_into_chunks_cases text chunk_size) as [[chunks Hok]|[Hlt Hraise]].
  - split; [by exists chunks|]. intros e He. congruence.
  - split; [lia|]. intros e He. rewrite Hraise in He. by injection He as <-.
Qed.

Lemma X20_witness :
  (9 < 10)%nat
  ∧ ValueError (txt "range() arg 3 must not be zero")
    = ValueError (txt "range() arg 3 must not be zero").
Proof.
  exact (proj2 (X20_chunking_total unpunctuated_text 9) _ tiny_chunk_size_run).
Defined.

(** X21. Every chunk that [split_into_chunks] returns is stripped and
    longer than 20 characters; and when the normalized text is longer than
    [chunk_size], so that it is cut at sentence punctuation, no chunk
    contains any of the characters [.], [!] and [?]. *)
Theorem X21_chunk_shape (text : str) (chunk_size : nat) (chunks : list str) :
  Preprocessing.split_into_chunks text chunk_size = Ok chunks →
  Forall (λ c, Text.strip c = c ∧ (20 < length c)%nat) chunks
  ∧ ((chunk_size < length (normalized text))%nat → Forall no_sentence_end chunks).
Proof. apply split_into_chunks_good. Qed.

Lemma login_page_chunks_run :
  Preprocessing.split_into_chunks login_page_chunk 50
  = Ok [txt "The system shall allow user"; txt "login with valid credentials entered"].
Proof. vm_compute. reflexivity. Qed.

Lemma X21_witness :
  Forall (λ c, Text.strip c = c ∧ (20 < length c)%nat)
         [txt "The system shall allow user"; txt "login with valid credentials entered"].
Proof.
  exact (proj1 (X21_chunk_shape login_page_chunk 50 _ login_page_chunks_run)).
Defined.

Section Cleaning.

Import Preprocessing.

Lemma clean_text_chars (text : str) :
  Forall (λ c, clean_char c = true) (clean_text text).
Proof.
  unfold clean_text. apply strip_Forall, Forall_map.
  eapply Forall_impl; [apply (collapse_ws_aux_plain false)|].
  intros c Hc. cbv beta. unfold is_kept.
  destruct (Text.is_word c) eqn:Hw; cbn [orb].
  { unfold clean_char. by rewrite Hw. }
  destruct (Text.is_space c) eqn:Hs; cbn [orb].
  { by rewrite (Hc Hs). }
  destruct (existsb _ _) eqn:Hp; [|done].
  unfold clean_char. rewrite Hp. by rewrite orb_true_r.
Qed.

End Cleaning.

(** X22. [clean_text] returns a stripped text over the alphabet of word
    characters, the plain space and the punctuation [.,;:!?-()]: every
    other character, and every white space other than a single space, is
    gone. *)
Theorem X22_clean_text_alphabet (text : str) :
  Forall (λ c, clean_char c = true) (Preprocessing.clean_text text)
  ∧ Text.strip (Preprocessing.clean_text text) = Preprocessing.clean_text text.
Proof.
  split; [apply clean_text_chars|]. apply strip_idempotent.
Qed.

(* ================================================================== *)
(** * The explicit requirement id of generated test cases              *)
(* ================================================================== *)

Section Matching.

Import Regex.

Context {R : Type}.
Implicit Types (k : str → option str → option R) (res : R).

Lemma m_lit_chars (w : str) s cap k res :
  w ≠ [] →
  m (lit_chars w) s cap k = Some res →
  ∃ v s', s = v ++ s' ∧ Text.lower v = Text.lower w ∧ k s' cap = Some res.
Proof.
  intros Hw. revert s k. induction w as [|c w IH]; [done|]. intros s k.
  destruct w as [|c' w].
  - cbn [lit_chars m]. destruct s as [|x s']; [done|].
    case_bool_decide as Hx; [|done]. intros Hk.
    exists [x], s'. split; [done|]. split; [|done].
    unfold Text.lower. cbn [map]. by rewrite Hx.
  - change (lit_chars (c :: c' :: w)) with (Cat (Chr c) (lit_chars (c' :: w))).
    cbn [m]. destruct s as [|x s1]; [done|].
    case_bool_decide as Hx; [|done]. intros Hk.
    apply IH in Hk as (v & s' & -> & Hv & Hk); [|done].
    exists (x :: v), s'. split; [done|]. split; [|done].
    unfold Text.lower in *. cbn [map] in *. by rewrite Hx, Hv.
Qed.

Lemma m_opt_sep s cap k res :
  m App.opt_sep s cap k = Some res →
  ∃ sep s', s = sep ++ s'
            ∧ (sep = [] ∨ ∃ x, sep = [x] ∧ is_sep_char x = true)
            ∧ k s' cap = Some res.
Proof.
  unfold App.opt_sep. cbn [m].
  destruct s as [|x s1].
  - intros Hk. exists [], []. split; [done|]. split; [by left | done].
  - destruct (_ || _) eqn:Hsep.
    + destruct (k s1 cap) as [res'|] eqn:Hk1.
      * intros [= <-]. exists [x], s1. split; [done|]. split; [|done].
        right. by exists x.
      * intros Hk. exists [], (x :: s1). split; [done|]. split; [by left | done].
    + intros Hk. exists [], (x :: s1). split; [done|]. split; [by left | done].
Qed.

Lemma only_digits : only Text.is_digit (Star digit) = true.
Proof. vm_compute. reflexivity. Qed.

Lemma m_digits s cap k res :
  m App.digits s cap k = Some res →
  ∃ number s' cap', s = number ++ s' ∧ is_digits number ∧ k s' cap' = Some res.
Proof.
  unfold App.digits, Plus.
  change (m (Cat digit (Star digit)) s cap k)
    with (m (Cls Text.is_digit) s cap (λ s' cap', m (Star digit) s' cap' k)).
  cbn [m]. destruct s as [|x s1]; [done|].
  destruct (Text.is_digit x) eqn:Hx; [|done]. intros Hk.
  destruct (m_consumes Text.is_digit (Star digit) only_digits s1 cap k res Hk)
    as (w & s' & cap' & -> & Hw & Hk').
  exists (x :: w), s', cap'. split; [done|]. split; [|done].
  split; [done | by constructor].
Qed.

(** A greedy repetition never fails before a continuation that accepts
    whatever is left. *)
Lemma m_star_total (r : regex) s cap k :
  accepts_all k → is_Some (m (Star r) s cap k).
Proof.
  intros Hk. cbn [m]. destruct (length s) as [|fuel]; cbn [star_loop]; [apply Hk|].
  destruct (m r s cap _); [by eexists | apply Hk].
Qed.

Lemma m_digits_total (d : ascii) s cap k :
  Text.is_digit d = true → accepts_all k → is_Some (m App.digits (d :: s) cap k).
Proof.
  intros Hd Hk. unfold App.digits, Plus.
  change (m (Cat digit (Star digit)) (d :: s) cap k)
    with (m (Cls Text.is_digit) (d :: s) cap (λ s' cap', m (Star digit) s' cap' k)).
  cbn [m]. rewrite Hd. by apply m_star_total.
Qed.

End Matching.

Section Finditer.

Import Regex.

(** The first match that [finditer] reports is the leftmost one. *)
Lemma finditer_from_head fuel r s pos :
  (length s < fuel)%nat →
  match finditer_from fuel r s pos with
  | [] => ∀ i, (i ≤ length s)%nat → match_here r (drop i s) = None
  | mt :: _ =>
      ∃ i s' cap,
        (i ≤ length s)%nat
        ∧ (∀ j, (j < i)%nat → match_here r (drop j s) = None)
        ∧ match_here r (drop i s) = Some (s', cap)
        ∧ m_start mt = (pos + i)%nat
        ∧ m_end mt = (pos + i + (length (drop i s) - length s'))%nat
  end.
Proof.
  revert s pos. induction fuel as [|fuel IH]; intros s pos Hfuel; [lia|].
  cbn [finditer_from].
  destruct (match_here r s) as [[s' cap]|] eqn:Hhere.
  - exists 0%nat, s', cap. rewrite drop_0. cbn [m_start m_end].
    split; [lia|]. split; [intros j Hj; lia|]. split; [done|]. split; lia.
  - destruct s as [|x s1].
    + intros i Hi. simpl in Hi. assert (i = 0%nat) as -> by lia. done.
    + specialize (IH s1 (S pos) ltac:(simpl in Hfuel; lia)).
      destruct (finditer_from fuel r s1 (S pos)) as [|mt rest].
      * intros [|i] Hi; [done|]. apply IH. simpl in Hi. lia.
      * destruct IH as (i & s' & cap & Hi & Hbefore & Hmatch & Hstart & Hend).
        exists (S i), s', cap. cbn [drop length].
        split; [lia|]. split.
        { intros [|j] Hj; [done|]. apply Hbefore. lia. }
        split; [done|]. split; lia.
Qed.

Lemma search_group_None pattern chunk :
  App.search_group pattern chunk = None →
  ∀ i, (i ≤ length chunk)%nat → match_here pattern (drop i chunk) = None.
Proof.
  unfold App.search_group, finditer. intros Hnone.
  pose proof (finditer_from_head (S (length chunk)) pattern chunk 0 ltac:(lia)) as Hhead.
  by destruct (finditer_from _ _ _ _).
Qed.

Lemma search_group_Some pattern chunk text :
  App.search_group pattern chunk = Some text →
  ∃ i s' cap,
    (i ≤ length chunk)%nat
    ∧ match_here pattern (drop i chunk) = Some (s', cap)
    ∧ text = take (length (drop i chunk) - length s') (drop i chunk).
Proof.
  unfold App.search_group, finditer. intros Hsome.
  pose proof (finditer_from_head (S (length chunk)) pattern chunk 0 ltac:(lia)) as Hhead.
  destruct (finditer_from _ _ _ _) as [|mt rest]; [done|].
  destruct Hhead as (i & s' & cap & Hi & _ & Hmatch & Hstart & Hend).
  injection Hsome as <-. exists i, s', cap. split; [done|]. split; [done|].
  unfold Text.slice. rewrite Hstart, Hend. f_equal. lia.
Qed.

Lemma search_group_found pattern chunk i :
  (i ≤ length chunk)%nat → is_Some (match_here pattern (drop i chunk)) →
  is_Some (App.search_group pattern chunk).
Proof.
  intros Hi Hmatch. destruct (App.search_group pattern chunk) eqn:Hsearch; [by eexists|].
  rewrite (search_group_None _ _ Hsearch i Hi) in Hmatch. by destruct Hmatch.
Qed.

End Finditer.

Section Markers.

Import Regex.

Lemma consumed_prefix (w s' : str) :
  take (length (w ++ s') - length s') (w ++ s') = w.
Proof.
  rewrite length_app.
  replace (length w + length s' - length s')%nat with (length w) by lia.
  by rewrite take_app_length.
Qed.

Lemma drop_tail {A : Type} (l : list A) i x t :
  drop i l = x :: t → (S i ≤ length l)%nat ∧ drop (S i) l = t.
Proof.
  revert i. induction l as [|y l IH]; intros [|i]; simpl; try done.
  - intros [= -> ->]. split; [lia | by rewrite drop_0].
  - intros H. destruct (IH _ H) as [Hlen Hdrop]. split; [lia | done].
Qed.

Lemma lit_sep_digits_shape (w : str) t s' cap :
  w ≠ [] →
  match_here (Cat (lit_chars w) (Cat App.opt_sep App.digits)) t = Some (s', cap) →
  ∃ letters sep number,
    t = (letters ++ sep ++ number) ++ s'
    ∧ Text.lower letters = Text.lower w
    ∧ (sep = [] ∨ ∃ x, sep = [x] ∧ is_sep_char x = true)
    ∧ is_digits number.
Proof.
  intros Hw. unfold match_here. cbn [m]. intros H.
  apply m_lit_chars in H as (letters & s1 & -> & Hletters & H); [|done].
  apply m_opt_sep in H as (sep & s2 & -> & Hsep & H).
  apply m_digits in H as (number & s3 & cap' & -> & Hnumber & H).
  injection H as -> ->. exists letters, sep, number.
  by rewrite <- !app_assoc.
Qed.

Lemma lit_digits_shape (w : str) t s' cap :
  w ≠ [] →
  match_here (Cat (lit_chars w) App.digits) t = Some (s', cap) →
  ∃ letters number,
    t = (letters ++ number) ++ s'
    ∧ Text.lower letters = Text.lower w
    ∧ is_digits number.
Proof.
  intros Hw. unfold match_here. cbn [m]. intros H.
  apply m_lit_chars in H as (letters & s1 & -> & Hletters & H); [|done].
  apply m_digits in H as (number & s3 & cap' & -> & Hnumber & H).
  injection H as -> ->. exists letters, number.
  by rewrite <- !app_assoc.
Qed.

(** Where [NFR...] matches, [FR...] matches one character further. *)
Lemma nfr_match_gives_fr_match t :
  is_Some (match_here nfr_pattern t) →
  ∃ x t', t = x :: t' ∧ is_Some (match_here fr_pattern t').
Proof.
  destruct t as [|x t']; [by intros [? ?]|].
  unfold match_here, nfr_pattern, fr_pattern, lit. cbn [txt list_ascii_of_string lit_chars m].
  case_bool_decide as Hx; [|by intros [? ?]].
  intros Hsome. by exists x, t'.
Qed.

Lemma nfr_never_decides chunk :
  App.search_group fr_pattern chunk = None → App.search_group nfr_pattern chunk = None.
Proof.
  intros Hfr. destruct (App.search_group nfr_pattern chunk) as [text|] eqn:Hnfr; [|done].
  exfalso. apply search_group_Some in Hnfr as (i & s' & cap & Hi & Hmatch & _).
  destruct (nfr_match_gives_fr_match (drop i chunk)) as (x & t' & Hdrop & Hsome);
    [by rewrite Hmatch|].
  apply drop_tail in Hdrop as [Hlen Hdrop]. rewrite <- Hdrop in Hsome.
  destruct (search_group_found _ _ _ Hlen Hsome) as [text' Htext'].
  congruence.
Qed.

(** Where [FR] is followed by a digit, [R\d+] matches one character
    further. *)
Lemma fr_digit_gives_r_match f r d rest :
  Text.lower [f; r] = txt "fr" → Text.is_digit d = true →
  is_Some (match_here r_pattern (r :: d :: rest)).
Proof.
  intros Hfr Hd. unfold match_here, r_pattern, lit.
  cbn [txt list_ascii_of_string lit_chars m].
  injection Hfr as _ Hr. rewrite bool_decide_eq_true_2 by (by rewrite Hr).
  apply m_digits_total; [done|]. intros s cap. by eexists.
Qed.

Lemma extract_requirement_id_unfold chunk :
  App._extract_requirement_id chunk
  = match App.search_group req_pattern chunk with
    | Some text => Some text
    | None =>
        match App.search_group r_pattern chunk with
        | Some text => Some text
        | None =>
            match App.search_group fr_pattern chunk with
            | Some text => Some text
            | None =>
                match App.search_group nfr_pattern chunk with
                | Some text => Some text
                | None => None
                end
            end
        end
    end.
Proof. reflexivity. Qed.

Lemma extract_requirement_id_shape chunk id :
  App._extract_requirement_id chunk = Some id → marker_shape id.
Proof.
  rewrite extract_requirement_id_unfold.
  destruct (App.search_group req_pattern chunk) as [text|] eqn:Hreq.
  { intros [= <-]. apply search_group_Some in Hreq as (i & s' & cap & _ & Hmatch & ->).
    apply lit_sep_digits_shape in Hmatch as (letters & sep & number & -> & Hl & Hsep & Hn);
      [|done].
    rewrite consumed_prefix. exists letters, sep, number.
    split; [done|]. split; [done|]. by left. }
  destruct (App.search_group r_pattern chunk) as [text|] eqn:Hr.
  { intros [= <-]. apply search_group_Some in Hr as (i & s' & cap & _ & Hmatch & ->).
    apply lit_digits_shape in Hmatch as (letters & number & -> & Hl & Hn); [|done].
    rewrite consumed_prefix. exists letters, [], number.
    split; [done|]. split; [done|]. right. by left. }
  destruct (App.search_group fr_pattern chunk) as [text|] eqn:Hfr.
  { intros [= <-]. apply search_group_Some in Hfr as (i & s' & cap & Hi & Hmatch & ->).
    apply lit_sep_digits_shape in Hmatch as (letters & sep & number & Hdrop & Hl & Hsep & Hn);
      [|done].
    rewrite Hdrop, consumed_prefix. exists letters, sep, number.
    split; [done|]. split; [done|]. right. right. split; [done|].
    destruct Hsep as [->|Hsep]; [exfalso|done].
    destruct letters as [|f [|r [|? ?]]]; try done.
    destruct Hn as [Hne Hdigits]. destruct number as [|d number]; [done|].
    apply Forall_cons in Hdigits as [Hd _].
    cbn [app] in Hdrop. apply drop_tail in Hdrop as [Hlen Hdrop].
    pose proof (fr_digit_gives_r_match f r d (number ++ s') Hl Hd) as Hsome.
    rewrite <- Hdrop in Hsome.
    destruct (search_group_found _ _ _ Hlen Hsome) as [text' Htext'].
    congruence. }
  by rewrite (nfr_never_decides chunk Hfr).
Qed.

End Markers.

Section MarkerVsRequirement.

Lemma strip_prefix_Some (p s t : str) : strip_prefix p s = Some t → s = p ++ t.
Proof.
  revert s. induction p as [|a p IH]; intros [|b s]; simpl; try done.
  - by intros [= <-].
  - by intros [= <-].
  - case_bool_decide as Hab; [|done]. intros H. rewrite Hab. f_equal. by apply IH.
Qed.

Lemma id_from_shape idx b id : id_from idx b id → requirement_id_shape id.
Proof.
  intros [Hnum|(p & n & Hp & _ & ->)].
  - left. unfold is_numbered_id in Hnum. apply existsb_exists in Hnum as (p & Hp & Hstrip).
    destruct (strip_prefix p id) as [[|c w]|] eqn:Hs; try done.
    apply strip_prefix_Some in Hs. exists p, (c :: w). split; [|done].
    by apply list_elem_of_In.
  - unfold key_prefixes in Hp. apply elem_of_app in Hp as [Hp|Hp].
    + left. exists p, (Text.of_nat idx ++ txt "_" ++ Text.of_nat n). by split.
    + right. apply list_elem_of_singleton in Hp as ->. by exists idx, n.
Qed.

Lemma extracted_ids_shape (hash : str → Z) (text_chunks : list str) :
  Forall (λ r, requirement_id_shape (r_id r)) (extract_requirements hash text_chunks).
Proof.
  unfold extract_requirements, sort_asc. apply sort_by_Forall.
  destruct (on_chunk_ok hash text_chunks 0 ([], ∅)) as [Hall _].
  { split; [constructor | simpl; constructor]. }
  eapply Forall_impl; [exact Hall|].
  intros r (idx & b & _ & Hid). by eapply id_from_shape.
Qed.

Lemma marker_opens id : marker_shape id → opens_like_marker id = true.
Proof.
  intros (letters & sep & number & -> & [Hne Hdigits] & Hcase).
  destruct number as [|d number]; [done|]. apply Forall_cons in Hdigits as [Hd _].
  destruct Hcase as [[Hl _]|[[Hl ->]|[Hl _]]].
  - destruct letters as [|a [|b [|c [|? ?]]]]; try done.
    injection Hl as Ha Hb Hc. cbn [app opens_like_marker].
    rewrite (bool_decide_eq_true_2 (Text.lower_char a = "r"%char)) by done.
    by rewrite (bool_decide_eq_true_2 (Text.lower_char b = "e"%char)) by done.
  - destruct letters as [|a [|? ?]]; try done.
    injection Hl as Ha. cbn [app opens_like_marker].
    rewrite (bool_decide_eq_true_2 (Text.lower_char a = "r"%char)) by done.
    rewrite Hd. by rewrite orb_true_r.
  - destruct letters as [|a [|b [|? ?]]]; try done.
    injection Hl as Ha Hb. cbn [app opens_like_marker].
    rewrite (bool_decide_eq_true_2 (Text.lower_char a = "f"%char)) by done.
    rewrite (bool_decide_eq_true_2 (Text.lower_char b = "r"%char)) by done.
    by rewrite orb_true_r.
Qed.

Lemma prefix_not_marker p rest :
  p ∈ numbered_prefixes → opens_like_marker (p ++ rest) = false.
Proof.
  intros Hp. unfold numbered_prefixes, enhanced_patterns in Hp. cbn [map] in Hp.
  repeat (apply elem_of_cons in Hp as [->|Hp]; [vm_compute; reflexivity|]).
  by apply elem_of_nil in Hp.
Qed.

Lemma underscore_not_digit : Text.is_digit "_"%char = false.
Proof. reflexivity. Qed.

Lemma keyed_not_marker i n : ¬ marker_shape (keyed_id (txt "REQ_") i n).
Proof.
  intros (letters & sep & number & Heq & [Hne Hdigits] & Hcase).
  unfold keyed_id in Heq. cbn [txt list_ascii_of_string app] in Heq.
  destruct Hcase as [[Hl Hsep]|[[Hl ->]|[Hl _]]].
  - destruct letters as [|a [|b [|c [|? ?]]]]; try done.
    cbn [app] in Heq. injection Heq as _ _ _ Heq.
    destruct Hsep as [->|(x & -> & _)]; cbn [app] in Heq.
    + rewrite <- Heq in Hdigits. apply Forall_cons in Hdigits as [Hd _].
      by rewrite underscore_not_digit in Hd.
    + injection Heq as _ Heq. rewrite <- Heq in Hdigits.
      apply Forall_app in Hdigits as [_ Hdigits].
      apply Forall_cons in Hdigits as [Hd _].
      by rewrite underscore_not_digit in Hd.
  - destruct letters as [|a [|? ?]]; try done.
    cbn [app] in Heq. injection Heq as _ Heq.
    rewrite <- Heq in Hdigits. apply Forall_cons in Hdigits as [Hd _]. done.
  - destruct letters as [|a [|b [|? ?]]]; try done.
    cbn [app] in Heq. injection Heq as Ha _. subst a. done.
Qed.

Lemma marker_not_requirement_id id : marker_shape id → ¬ requirement_id_shape id.
Proof.
  intros Hmarker [(p & rest & Hp & ->)|(i & n & ->)].
  - apply marker_opens in Hmarker. by rewrite prefix_not_marker in Hmarker.
  - by apply keyed_not_marker in Hmarker.
Qed.

Lemma marker_not_extracted (hash : str → Z) chunk id text_chunks :
  App._extract_requirement_id chunk = Some id →
  id ∉ map r_id (extract_requirements hash text_chunks).
Proof.
  intros Hid Hin. apply extract_requirement_id_shape in Hid.
  apply list_elem_of_fmap in Hin as (r & -> & Hr).
  pose proof (extracted_ids_shape hash text_chunks) as Hall.
  rewrite Forall_forall in Hall. by apply (marker_not_requirement_id (r_id r)), Hall.
Qed.

End MarkerVsRequirement.

Lemma nfr_marker_run :
  App._extract_requirement_id (txt "NFR_3 The system shall respond within 2 seconds")
  = Some (txt "FR_3").
Proof. vm_compute. reflexivity. Qed.

Lemma fr_marker_run :
  App._extract_requirement_id (txt "FR12 The system shall allow user login")
  = Some (txt "R12").
Proof. vm_compute. reflexivity. Qed.

(** X23. The fourth pattern of [_extract_requirement_id], [NFR[_-]?\d+],
    never decides: wherever it matches, the third one matches one
    character further and is tried first.  The result, if any, is [REQ]
    with an optional separator and digits, [R] with digits, or [FR] with a
    separator and digits: a marker written [FR12] or [NFR12] is reported as
    [R12], and [NFR_3] as [FR_3]. *)
Theorem X23_marker_patterns (chunk : str) :
  App._extract_requirement_id chunk = App.first_group deciding_patterns chunk
  ∧ (∀ id, App._extract_requirement_id chunk = Some id → marker_shape id).
Proof.
  split; [|intros id; apply extract_requirement_id_shape].
  rewrite extract_requirement_id_unfold. unfold deciding_patterns. cbn [App.first_group].
  destruct (App.search_group req_pattern chunk); [done|].
  destruct (App.search_group r_pattern chunk); [done|].
  destruct (App.search_group fr_pattern chunk) eqn:Hfr; [done|].
  by rewrite (nfr_never_decides chunk Hfr).
Qed.

Lemma X23_witness : marker_shape (txt "FR_3").
Proof.
  exact (proj2 (X23_marker_patterns (txt "NFR_3 The system shall respond within 2 seconds"))
               (txt "FR_3") nfr_marker_run).
Defined.

(** X24. What [_extract_requirement_id] returns for a chunk is never the
    id of a requirement that [extract_requirements] builds, for any
    document: those ids open with [FUNCTIONAL_], [NON_FUNCTIONAL_] or
    [USER_STORY_], or are [REQ_<chunk>_<n>] with two separators. *)
Theorem X24_marker_names_no_requirement (hash : str → Z) (chunk id : str)
        (text_chunks : list str) :
  App._extract_requirement_id chunk = Some id →
  id ∉ map r_id (extract_requirements hash text_chunks).
Proof. apply marker_not_extracted. Qed.

Lemma X24_witness :
  App._extract_requirement_id (txt "FR12 The system shall allow user login")
  = Some (txt "R12")
  ∧ txt "R12" ∉ map r_id (extract_requirements injective_hash fr1_chunks).
Proof.
  split; [exact fr_marker_run|].
  exact (X24_marker_names_no_requirement injective_hash
           (txt "FR12 The system shall allow user login") (txt "R12") fr1_chunks
           fr_marker_run).
Defined.

Section GeneratedTestCases.

Variable hash : str → Z.

Lemma unlinked_confidence (tc : TestCase) (ms : list Match) (reqs : list Requirement) :
  (∀ id, tc_requirement_id tc = Some id → id ∉ map requirement_id ms) →
  _calculate_mapping_confidence tc ms reqs
  = _calculate_mapping_confidence (unlinked tc) ms reqs.
Proof.
  intros Hid. unfold _calculate_mapping_confidence.
  destruct ms as [|first rest]; [done|].
  cbn [tc_requirement_id unlinked].
  destruct (tc_requirement_id tc) as [[|c explicit]|]; [done| |done].
  destruct (existsb _ (first :: rest)) eqn:Hex; [|done].
  apply existsb_exists in Hex as (mt & Hmt & Heq).
  apply bool_decide_eq_true_1 in Heq.
  exfalso. apply (Hid (c :: explicit) eq_refl). rewrite <- Heq.
  apply list_elem_of_fmap_2. by apply list_elem_of_In.
Qed.

Lemma check_requirement_mapping_unknown (tc : TestCase) (reqs : list Requirement) :
  reqs ≠ [] →
  (∀ id, tc_requirement_id tc = Some id → id ∉ map r_id reqs) →
  ValidationEngine.passed (ValidationEngine._check_requirement_mapping tc reqs) = false.
Proof.
  intros Hne Hid. unfold ValidationEngine._check_requirement_mapping.
  destruct (tc_requirement_id tc) as [[|c explicit]|]; [done| |done].
  destruct reqs as [|r reqs]; [done|].
  rewrite bool_decide_eq_true_2; [done|].
  intros Hin. apply (Hid (c :: explicit) eq_refl).
  apply list_elem_of_fmap in Hin as (req & -> & Hreq).
  apply list_elem_of_filter in Hreq as [_ Hreq]. by apply list_elem_of_fmap_2.
Qed.

End GeneratedTestCases.

Lemma fr1_marker_run : App._extract_requirement_id fr1_chunk = Some (txt "FR-1").
Proof. vm_compute. reflexivity. Qed.

(** X25. A test case whose explicit requirement id is what
    [_extract_requirement_id] found in a chunk, as the query endpoint
    builds it, is never linked to a requirement of the uploaded document:
    the confidence of its mapping is the one computed without the explicit
    id (the boost of 0.2 never applies), the rule
    [_check_requirement_mapping] does not pass as soon as the document has
    a requirement, and the id is not the id of any requirement. *)
Theorem X25_generated_id_links_nothing (hash : str → Z) (indexed : index)
        (text_chunks : list str) (chunk : str) (tc : TestCase) (threshold : Q)
        (ms : list Match) :
  tc_requirement_id tc = App._extract_requirement_id chunk →
  _find_matching_requirements indexed tc (extract_requirements hash text_chunks) threshold
  = Ok ms →
  _calculate_mapping_confidence tc ms (extract_requirements hash text_chunks)
  = _calculate_mapping_confidence (unlinked tc) ms (extract_requirements hash text_chunks)
  ∧ (extract_requirements hash text_chunks ≠ [] →
     ValidationEngine.passed
       (ValidationEngine._check_requirement_mapping
          tc (extract_requirements hash text_chunks)) = false)
  ∧ (∀ id, tc_requirement_id tc = Some id →
           id ∉ map r_id (extract_requirements hash text_chunks)).
Proof.
  intros Htc Hms.
  assert (∀ id, tc_requirement_id tc = Some id →
                id ∉ map r_id (extract_requirements hash text_chunks)) as Hid.
  { intros id Hsome. rewrite Htc in Hsome. by eapply marker_not_extracted. }
  split; [|split; [|done]].
  - apply unlinked_confidence. intros id Hsome Hin.
    apply (Hid id Hsome).
    apply find_matching_from in Hms as [Hfrom _].
    apply list_elem_of_fmap in Hin as (mt & -> & Hmt).
    rewrite Forall_forall in Hfrom. by eapply match_from_id, Hfrom.
  - intros Hne. by apply check_requirement_mapping_unknown.
Qed.

Lemma generated_matches_run :
  _find_matching_requirements [fr1_chunk] (generated_test_case (txt "user login") fr1_chunk)
                              (extract_requirements injective_hash [fr1_chunk])
                              default_threshold
  = Ok [].
Proof. vm_compute. reflexivity. Qed.

Lemma X25_witness :
  ValidationEngine.passed
    (ValidationEngine._check_requirement_mapping
       (generated_test_case (txt "user login") fr1_chunk)
       (extract_requirements injective_hash [fr1_chunk])) = false.
Proof.
  apply (X25_generated_id_links_nothing injective_hash [fr1_chunk] [fr1_chunk] fr1_chunk
           (generated_test_case (txt "user login") fr1_chunk) default_threshold []
           eq_refl generated_matches_run).
  vm_compute. discriminate.
Defined.

Section Upload.

Variable hash : str → Z.

Lemma extract_requirements_nil : extract_requirements hash [] = [].
Proof. reflexivity. Qed.

Lemma search_total (chunks : SemanticSearch.index) query k :
  chunks ≠ [] → ∃ results, search chunks query k = Ok results.
Proof. destruct chunks; [done|]. intros _. by eexists. Qed.

Lemma process_document_chunks raw_text (st : App.State) :
  ∃ chunks,
    Preprocessing.split_into_chunks (Preprocessing.clean_text raw_text) 300 = Ok chunks
    ∧ App.process_document hash raw_text st
      = {| App.document_chunks := chunks;
           App.srs_requirements := extract_requirements hash chunks;
           App.search_index := match chunks with
                               | [] => App.search_index st
                               | _ => chunks
                               end |}.
Proof.
  destruct (split_into_chunks_cases (Preprocessing.clean_text raw_text) 300)
    as [[chunks Hok]|[Hlt _]]; [|lia].
  exists chunks. split; [done|]. unfold App.process_document. rewrite Hok.
  by destruct chunks.
Qed.

End Upload.

(** X26. The upload pipeline (clean, chunk with [chunk_size=300], extract,
    index) never fails on a text.  It stores the chunks and the
    requirements extracted from them, every requirement pointing to one of
    the stored chunks.  If there are chunks they become the index, and
    every later search succeeds; if there are none, the requirement list
    becomes empty but the index keeps the chunks of the previous
    document. *)
Theorem X26_upload_pipeline (hash : str → Z) (raw_text : str) (st : App.State) :
  ∃ chunks,
    Preprocessing.split_into_chunks (Preprocessing.clean_text raw_text) 300 = Ok chunks
    ∧ App.document_chunks (App.process_document hash raw_text st) = chunks
    ∧ App.srs_requirements (App.process_document hash raw_text st)
      = extract_requirements hash chunks
    ∧ Forall (well_formed chunks) (App.srs_requirements (App.process_document hash raw_text st))
    ∧ (chunks = [] →
       App.srs_requirements (App.process_document hash raw_text st) = []
       ∧ App.search_index (App.process_document hash raw_text st) = App.search_index st)
    ∧ (chunks ≠ [] →
       App.search_index (App.process_document hash raw_text st) = chunks
       ∧ ∀ query k, ∃ results,
           search (App.search_index (App.process_document hash raw_text st)) query k
           = Ok results).
Proof.
  destruct (process_document_chunks hash raw_text st) as (chunks & Hok & ->).
  exists chunks. cbn [App.document_chunks App.srs_requirements App.search_index].
  split; [done|]. split; [done|]. split; [done|].
  split; [apply extract_requirements_well_formed|]. split.
  - by intros ->.
  - intros Hne. destruct chunks as [|c chunks]; [done|].
    split; [done|]. intros query k. by apply search_total.
Qed.

(* ================================================================== *)
(** * Extraction from chunks without sentence punctuation              *)
(* ================================================================== *)

Section PlainChunks.

Import Regex.

Variable hash : str → Z.

Lemma split_punct_aux_plain (cur s : str) :
  no_sentence_end s → Text.split_punct_aux cur false s = [rev cur ++ s].
Proof.
  intros Hs. revert cur. induction Hs as [|c s Hc Hs IH]; intros cur; simpl.
  - by rewrite app_nil_r.
  - rewrite Hc, IH. simpl. by rewrite <- app_assoc.
Qed.

Lemma split_punct_plain (s : str) : no_sentence_end s → Text.split_punct s = [s].
Proof. intros Hs. unfold Text.split_punct. by rewrite split_punct_aux_plain. Qed.

(** The context of a match in a chunk of one sentence is the chunk. *)
Lemma content_of_plain (chunk : str) (start end_ : nat) :
  no_sentence_end chunk → (start ≤ length chunk)%nat →
  _extract_requirement_content_enhanced chunk start end_ = Text.strip chunk.
Proof.
  intros Hplain Hstart. unfold _extract_requirement_content_enhanced.
  rewrite split_punct_plain by done. cbn [find_sentence].
  assert (((0 <=? start) && (start <=? 0 + (length chunk + 1)))%nat = true) as ->.
  { apply andb_true_iff. split; [by apply Nat.leb_le; lia | apply Nat.leb_le; lia]. }
  reflexivity.
Qed.

Lemma finditer_from_start_bound fuel r s pos :
  Forall (λ mt, (m_start mt ≤ pos + length s)%nat) (finditer_from fuel r s pos).
Proof.
  revert s pos. induction fuel as [|fuel IH]; intros s pos; cbn [finditer_from];
    [constructor|].
  destruct (match_here r s) as [[s' cap]|].
  - constructor; [cbn [m_start]; lia|].
    destruct (length s - length s')%nat as [|len] eqn:Hlen.
    + destruct s as [|x s1]; [constructor|].
      eapply Forall_impl; [apply IH|]. intros mt Hmt. cbn [length] in *. lia.
    + eapply Forall_impl; [apply IH|]. intros mt Hmt. cbv beta in Hmt. lia.
  - destruct s as [|x s1]; [constructor|].
    eapply Forall_impl; [apply IH|]. intros mt Hmt. cbn [length] in *. lia.
Qed.

Lemma finditer_start_bound r s :
  Forall (λ mt, (m_start mt ≤ length s)%nat) (finditer r s).
Proof. apply (finditer_from_start_bound _ r s 0). Qed.

Lemma on_match_plain chunk idx req_type st mt :
  good_chunk chunk → (m_start mt ≤ length chunk)%nat →
  Forall (λ r, r_content r = chunk ∧ r_chunk_index r = idx) st.1 →
  Forall (λ r, r_content r = chunk ∧ r_chunk_index r = idx)
         (on_match hash chunk idx req_type st mt).1.
Proof.
  intros [Htrim Hplain] Hstart Hst. destruct st as [reqs processed]. unfold on_match.
  case_bool_decide; [done|]. cbn [fst] in *.
  apply Forall_app. split; [done|]. constructor; [|constructor].
  cbn [r_content r_chunk_index]. split; [|done].
  rewrite content_of_plain by done. rewrite strip_idempotent. by apply trimmed_strip.
Qed.

Lemma split_into_sentences_plain chunk :
  good_chunk chunk →
  _split_into_sentences chunk = [] ∨ _split_into_sentences chunk = [chunk].
Proof.
  intros [Htrim Hplain]. unfold _split_into_sentences.
  rewrite split_punct_plain by done. rewrite filter_cons, filter_nil.
  destruct (decide _); [right | by left]. cbn [map]. by rewrite trimmed_strip.
Qed.

Lemma on_sentence_plain chunk idx st ientry :
  good_chunk chunk → ientry.2 = chunk →
  Forall (λ r, r_content r = chunk ∧ r_chunk_index r = idx) st.1 →
  Forall (λ r, r_content r = chunk ∧ r_chunk_index r = idx)
         (on_sentence hash idx st ientry).1.
Proof.
  intros [Htrim Hplain] Hsentence Hst.
  destruct st as [reqs processed], ientry as [i sentence]. cbn [snd] in Hsentence.
  subst sentence. unfold on_sentence.
  destruct (60 <? _)%nat; [|done]. case_bool_decide; [done|]. cbn [fst] in *.
  apply Forall_app. split; [done|]. constructor; [|constructor].
  cbn [r_content r_chunk_index]. split; [by apply trimmed_strip | done].
Qed.

Lemma extract_from_chunk_plain chunk idx processed :
  good_chunk chunk →
  Forall (λ r, r_content r = chunk ∧ r_chunk_index r = idx)
         (_extract_requirements_from_chunk_enhanced hash chunk idx enhanced_patterns
                                                    processed).1.
Proof.
  intros Hgood. unfold _extract_requirements_from_chunk_enhanced.
  set (P := λ st : ext_state, Forall (λ r, r_content r = chunk ∧ r_chunk_index r = idx) st.1).
  set (st := fold_left (on_type hash chunk idx) enhanced_patterns ([], processed)).
  assert (P st) as Hst.
  { apply (fold_left_invariant P); [|constructor].
    intros s tp _ Hs. unfold on_type.
    apply (fold_left_invariant P); [|done].
    intros s' pattern _ Hs'. unfold on_pattern.
    apply (fold_left_invariant P); [|done].
    intros s'' mt Hmt Hs''. apply on_match_plain; [done| |done].
    pose proof (finditer_start_bound pattern chunk) as Hbound.
    rewrite Forall_forall in Hbound. by apply Hbound. }
  destruct st.1 as [|r rs] eqn:Hreqs; [|exact Hst].
  apply (fold_left_invariant P); [|done].
  intros s ientry Hin Hs. apply on_sentence_plain; [done| |done].
  destruct (split_into_sentences_plain chunk Hgood) as [Hnil|Hone].
  - rewrite Hnil in Hin. by apply elem_of_nil in Hin.
  - rewrite Hone in Hin. apply list_elem_of_singleton in Hin. by subst ientry.
Qed.

Lemma extract_requirements_plain text_chunks :
  Forall good_chunk text_chunks →
  Forall (λ r, text_chunks !! r_chunk_index r = Some (r_content r))
         (extract_requirements hash text_chunks).
Proof.
  intros Hgood. unfold extract_requirements, sort_asc. apply sort_by_Forall.
  apply (fold_left_invariant
           (λ st : ext_state,
              Forall (λ r, text_chunks !! r_chunk_index r = Some (r_content r)) st.1));
    [|constructor].
  intros [reqs processed] [idx chunk] Hic Hs. unfold on_chunk.
  destruct (_ <? 50)%nat; [done|].
  apply enumerate_from_lookup in Hic as [_ Hic]. rewrite Nat.sub_0_r in Hic.
  assert (good_chunk chunk) as Hchunk.
  { rewrite Forall_forall in Hgood. apply Hgood. by apply list_elem_of_lookup_2 in Hic. }
  pose proof (extract_from_chunk_plain chunk idx processed Hchunk) as Hex.
  destruct (_extract_requirements_from_chunk_enhanced _ _ _ _ _) as [extracted processed'].
  cbn [fst] in *. apply Forall_app. split; [done|].
  eapply Forall_impl; [exact Hex|]. by intros r [-> ->].
Qed.

Lemma NoDup_fmap_factor {A B C : Type} (f : A → B) (g : A → C) (h : B → C) (l : list A) :
  Forall (λ x, g x = h (f x)) l → NoDup (map g l) → NoDup (map f l).
Proof.
  induction 1 as [|x l Hx Hl IH]; cbn [map]; [constructor|].
  intros [Hfresh Hnd]%NoDup_cons. apply NoDup_cons. split; [|by apply IH].
  intros Hin. apply Hfresh. apply list_elem_of_fmap in Hin as (y & Heq & Hy).
  rewrite Forall_forall in Hl. rewrite Hx, Heq, <- (Hl y Hy).
  by apply list_elem_of_fmap_2.
Qed.

Lemma extract_requirements_one_per_chunk text_chunks :
  Forall good_chunk text_chunks →
  NoDup (map r_chunk_index (extract_requirements hash text_chunks)).
Proof.
  intros Hgood.
  apply (NoDup_fmap_factor r_chunk_index r_content (λ i, default [] (text_chunks !! i))).
  - eapply Forall_impl; [by apply extract_requirements_plain|].
    intros r Hr. cbv beta. by rewrite Hr.
  - apply extracted_contents_unique.
Qed.

Lemma chunk_indexes_bounded (text_chunks : list str) (reqs : list Requirement) :
  Forall (λ r, text_chunks !! r_chunk_index r = Some (r_content r)) reqs →
  NoDup (map r_chunk_index reqs) →
  (length reqs ≤ length text_chunks)%nat.
Proof.
  intros Hcontents Hnd.
  rewrite <- (length_map r_chunk_index), <- (length_seq (length text_chunks) 0).
  apply submseteq_length, NoDup_submseteq; [done|].
  intros i Hi. apply list_elem_of_fmap in Hi as (r & -> & Hr).
  rewrite Forall_forall in Hcontents. specialize (Hcontents r Hr).
  apply elem_of_seq. apply lookup_lt_Some in Hcontents. lia.
Qed.

End PlainChunks.

Lemma plain_chunk_good : Forall good_chunk [login_page_sentence].
Proof.
  constructor; [|constructor]. split.
  - split; reflexivity.
  - unfold no_sentence_end. apply Forall_forall. intros c Hc.
    assert (forallb (λ c, negb (Text.is_sentence_end c)) login_page_sentence = true)
      as Hall by (vm_compute; reflexivity).
    rewrite forallb_forall in Hall. apply negb_true_iff, Hall. by apply list_elem_of_In.
Qed.

(** X27. From chunks that are stripped and hold no sentence punctuation,
    as the chunker cuts them from a long text, [extract_requirements]
    returns at most one requirement per chunk, and the content of that
    requirement is the whole chunk: the sentence context of a match and the
    sentences of the generic fallback are the chunk itself. *)
Theorem X27_plain_chunks_one_requirement (hash : str → Z) (text_chunks : list str) :
  Forall good_chunk text_chunks →
  Forall (λ r, text_chunks !! r_chunk_index r = Some (r_content r))
         (extract_requirements hash text_chunks)
  ∧ NoDup (map r_chunk_index (extract_requirements hash text_chunks))
  ∧ (length (extract_requirements hash text_chunks) ≤ length text_chunks)%nat.
Proof.
  intros Hgood.
  pose proof (extract_requirements_plain hash text_chunks Hgood) as Hcontents.
  pose proof (extract_requirements_one_per_chunk hash text_chunks Hgood) as Hnd.
  split; [done|]. split; [done|].
  by apply chunk_indexes_bounded.
Qed.

Lemma X27_witness :
  Forall (λ r, [login_page_sentence] !! r_chunk_index r = Some (r_content r))
         (extract_requirements injective_hash [login_page_sentence]).
Proof.
  exact (proj1 (X27_plain_chunks_one_requirement injective_hash [login_page_sentence]
                  plain_chunk_good)).
Defined.

(** X28. In the upload pipeline a document whose cleaned text is longer
    than 300 characters is cut at sentence punctuation, so every
    requirement extracted from it holds one whole chunk as its content,
    no two requirements come from the same chunk, and there are at most
    as many requirements as chunks. *)
Theorem X28_long_document_requirements (hash : str → Z) (raw_text : str) (st : App.State) :
  (300 < length (normalized (Preprocessing.clean_text raw_text)))%nat →
  let st' := App.process_document hash raw_text st in
  Forall (λ r, App.document_chunks st' !! r_chunk_index r = Some (r_content r))
         (App.srs_requirements st')
  ∧ NoDup (map r_chunk_index (App.srs_requirements st'))
  ∧ (length (App.srs_requirements st') ≤ length (App.document_chunks st'))%nat
  ∧ Forall no_sentence_end (App.document_chunks st').
Proof.
  intros Hlong st'. unfold st'.
  destruct (process_document_chunks hash raw_text st) as (chunks & Hok & ->).
  cbn [App.document_chunks App.srs_requirements].
  destruct (split_into_chunks_good _ _ _ Hok) as [Hshape Hplain].
  specialize (Hplain Hlong).
  assert (Forall good_chunk chunks) as Hgood.
  { rewrite Forall_forall in Hshape, Hplain |- *. intros c Hc.
    split; [|by apply Hplain]. destruct (Hshape c Hc) as [<- _]. apply strip_trimmed. }
  pose proof (extract_requirements_plain hash chunks Hgood) as Hcontents.
  pose proof (extract_requirements_one_per_chunk hash chunks Hgood) as Hnd.
  split; [done|]. split; [done|]. split; [|done].
  by apply chunk_indexes_bounded.
Qed.

Lemma X28_witness :
  Forall no_sentence_end
         (App.document_chunks (App.process_document injective_hash long_document initial_state)).
Proof.
  refine (proj2 (proj2 (proj2 (X28_long_document_requirements
                                 injective_hash long_document initial_state _)))).
  apply Nat.ltb_lt. vm_compute. reflexivity.
Defined.
